(** * Client-side page behaviour of the SCR site (js/script.js and
      Mdule-1/js/script.js), embedded as pure state transformers.

    Every handler of the script is a function from the part of the page it
    reads and writes to the new value of that part.  Strings typed by the
    user are sequences of UTF-16 code units; identifiers, attribute values
    and labels that the script only compares or copies are [string]s; pixel
    offsets reported by the layout are integers and the scroll offset is a
    rational number. *)

From Stdlib Require Import ZArith QArith Lia.
From stdpp Require Import gmap strings list.

Open Scope Z_scope.

(** ** Active navigation highlighting (highlightActiveSection) *)

Module Highlight.

(** A [section[id]] element: its id attribute and its layout box. *)
Record SectionEl := mkSection {
  sec_id : string;
  offsetTop : Z;
  offsetHeight : Z
}.

(** A [nav a[href^="#"]] element: its href attribute and its inline
    background style. *)
Record NavLink := mkLink {
  href : string;
  background : string
}.

Definition teal : string := "var(--teal)".

(** [scrollY > sectionTop && scrollY <= sectionTop + sectionHeight] *)
Definition inSpan (scrollY : Q) (section : SectionEl) : bool :=
  let sectionHeight := offsetHeight section in
  let sectionTop := offsetTop section - 100 in
  negb (Qle_bool scrollY (inject_Z sectionTop))
  && Qle_bool scrollY (inject_Z (sectionTop + sectionHeight)).

(** Body of the inner [navLinks.forEach]: the background is cleared, then
    set when the href is "#" followed by the section id. *)
Definition markLink (sectionId : string) (link : NavLink) : NavLink :=
  let cleared := {| href := href link; background := "" |} in
  if String.eqb (href cleared) ("#" +:+ sectionId)
  then {| href := href cleared; background := teal |}
  else cleared.

Definition highlightStep (scrollY : Q) (navLinks : list NavLink)
    (section : SectionEl) : list NavLink :=
  if inSpan scrollY section
  then map (markLink (sec_id section)) navLinks
  else navLinks.

(** [sections.forEach(section => ...)], in document order. *)
Definition highlightActiveSection (scrollY : Q) (sections : list SectionEl)
    (navLinks : list NavLink) : list NavLink :=
  fold_left (highlightStep scrollY) sections navLinks.

Definition marked (link : NavLink) : Prop := background link = teal.

(** The last section, in document order, whose span test succeeds. *)
Definition lastMatching (scrollY : Q) (sections : list SectionEl)
    : option SectionEl :=
  last (List.filter (inSpan scrollY) sections).

(** The closed span of the specification text,
    [offsetTop-100, offsetTop-100+height]. *)
Definition inClosedSpan (Y : Q) (s : SectionEl) : Prop :=
  (inject_Z (offsetTop s - 100) <= Y)%Q
  /\ (Y <= inject_Z (offsetTop s - 100 + offsetHeight s))%Q.

(** The highlighting property as the specification words it: the marked
    links are those of the unique section whose closed span contains [Y],
    and nothing is marked when no closed span contains [Y]. *)
Definition closedSpanHighlighting (Y : Q) (sections : list SectionEl)
    (navLinks : list NavLink) : Prop :=
  let after := highlightActiveSection Y sections navLinks in
  (forall s, In s sections -> inClosedSpan Y s ->
     (forall s', In s' sections -> inClosedSpan Y s' -> s' = s) ->
     forall l, In l after -> (marked l <-> href l = "#" +:+ sec_id s))
  /\ ((forall s, In s sections -> ~ inClosedSpan Y s) ->
      forall l, In l after -> ~ marked l).

Lemma inSpan_spec Y s :
  inSpan Y s = true <->
  (inject_Z (offsetTop s - 100) < Y)%Q
  /\ (Y <= inject_Z (offsetTop s - 100 + offsetHeight s))%Q.
Proof.
  unfold inSpan; cbn zeta.
  rewrite andb_true_iff, negb_true_iff, Qle_bool_iff.
  split; intros [H1 H2]; split; auto.
  - apply Qnot_le_lt. intros Hle. apply Qle_bool_iff in Hle. congruence.
  - destruct (Qle_bool Y (inject_Z (offsetTop s - 100))) eqn:E; auto.
    apply Qle_bool_iff in E. exfalso. eapply Qlt_not_le; eauto.
Qed.

Lemma markLink_href sid l : href (markLink sid l) = href l.
Proof. unfold markLink; cbn. destruct (String.eqb _ _); reflexivity. Qed.

Lemma markLink_absorb sid sid' l :
  markLink sid (markLink sid' l) = markLink sid l.
Proof.
  unfold markLink; cbn.
  destruct (String.eqb (href l) ("#" +:+ sid')); cbn; reflexivity.
Qed.

Lemma markLink_marked sid l :
  marked (markLink sid l) <-> href l = "#" +:+ sid.
Proof.
  unfold marked, markLink; cbn.
  destruct (String.eqb (href l) ("#" +:+ sid)) eqn:E; cbn.
  - apply String.eqb_eq in E. split; auto.
  - apply String.eqb_neq in E. split; [discriminate | contradiction].
Qed.

Lemma map_markLink_absorb sid sid' ls :
  map (markLink sid) (map (markLink sid') ls) = map (markLink sid) ls.
Proof.
  rewrite map_map. apply map_ext. intros l. apply markLink_absorb.
Qed.

Lemma highlight_fold Y sections : forall navLinks,
  highlightActiveSection Y sections navLinks =
  match lastMatching Y sections with
  | Some s => map (markLink (sec_id s)) navLinks
  | None => navLinks
  end.
Proof.
  unfold highlightActiveSection, lastMatching.
  induction sections as [|x xs IH]; intros navLinks; cbn; [reflexivity|].
  rewrite IH. unfold highlightStep.
  destruct (inSpan Y x) eqn:Ex; [|reflexivity].
  destruct (List.filter (inSpan Y) xs) as [|y ys] eqn:Ef; cbn; [reflexivity|].
  destruct (last (y :: ys)) as [s|] eqn:El.
  - now rewrite map_markLink_absorb.
  - apply last_None in El. discriminate.
Qed.

Lemma lastMatching_Some Y sections s :
  lastMatching Y sections = Some s -> In s sections /\ inSpan Y s = true.
Proof.
  unfold lastMatching. intros H.
  apply last_Some in H as [l' Hl'].
  assert (Hin : In s (List.filter (inSpan Y) sections)).
  { rewrite Hl'. apply in_or_app. right. now left. }
  now apply filter_In in Hin.
Qed.

Lemma lastMatching_None Y sections :
  lastMatching Y sections = None <->
  forall s, In s sections -> inSpan Y s = false.
Proof.
  unfold lastMatching. rewrite last_None. split.
  - intros H s Hin. destruct (inSpan Y s) eqn:E; [|reflexivity].
    assert (Hf : In s (List.filter (inSpan Y) sections))
      by (apply filter_In; auto).
    rewrite H in Hf. destruct Hf.
  - intros H. destruct (List.filter (inSpan Y) sections) as [|y ys] eqn:E;
      [reflexivity|].
    assert (Hin : In y (List.filter (inSpan Y) sections))
      by (rewrite E; now left).
    apply filter_In in Hin as [Hin Hy]. rewrite (H y Hin) in Hy. discriminate.
Qed.

(** The span the code tests: open below, closed above. *)
Definition inHalfOpenSpan (Y : Q) (s : SectionEl) : Prop :=
  (inject_Z (offsetTop s - 100) < Y)%Q
  /\ (Y <= inject_Z (offsetTop s - 100 + offsetHeight s))%Q.

Lemma lastMatching_unique Y sections s :
  In s sections -> inHalfOpenSpan Y s ->
  (forall s', In s' sections -> inHalfOpenSpan Y s' -> s' = s) ->
  lastMatching Y sections = Some s.
Proof.
  intros Hin Hs Huniq.
  destruct (lastMatching Y sections) as [s'|] eqn:E.
  - apply lastMatching_Some in E as [Hin' Hs'].
    f_equal. apply Huniq; [assumption|]. now apply inSpan_spec.
  - rewrite lastMatching_None in E. apply inSpan_spec in Hs.
    rewrite (E s Hin) in Hs. discriminate.
Qed.

Lemma marked_after_markLink sid navLinks l :
  In l (map (markLink sid) navLinks) -> (marked l <-> href l = "#" +:+ sid).
Proof.
  intros Hin. apply in_map_iff in Hin as [l0 [<- _]].
  rewrite markLink_href. apply markLink_marked.
Qed.

(** A section starting at offset 100 with height 50 has the closed span
    [0, 50]; at scroll offset 0 the routine leaves its link unmarked. *)
Example highlight_at_lower_edge :
  highlightActiveSection 0 [mkSection "about" 100 50] [mkLink "#about" ""]
  = [mkLink "#about" ""].
Proof. reflexivity. Qed.

(** A link marked by an earlier run stays marked when the routine runs at
    an offset that no section's span contains. *)
Example highlight_keeps_stale_mark :
  highlightActiveSection 0 [mkSection "about" 500 50] [mkLink "#about" teal]
  = [mkLink "#about" teal].
Proof. reflexivity. Qed.

(** C1, counterexample: with one section whose closed span is [0, 50] and
    scroll offset 0, the span contains the offset and the section is the
    only one, yet its nav link is not marked after the routine runs; the
    property as the specification words it is false there. *)
Lemma closedSpanHighlighting_fails_at_lower_edge :
  ~ closedSpanHighlighting 0 [mkSection "about" 100 50] [mkLink "#about" ""].
Proof.
  intros [Hmark _].
  assert (Hm : marked (mkLink "#about" "")).
  { apply (Hmark (mkSection "about" 100 50)).
    - now left.
    - split; cbn; unfold Qle; cbn; lia.
    - intros s' [<-|[]] _. reflexivity.
    - rewrite highlight_at_lower_edge. now left.
    - reflexivity. }
  discriminate Hm.
Qed.

(** C1, amended: for every scroll offset Y, when exactly one section has
    offsetTop-100 < Y <= offsetTop-100+height, the links marked after the
    routine are exactly those whose href is "#" followed by that section's
    id; when several sections do, the same holds for the last of them in
    document order; when none does, every link keeps the background it had
    before the routine ran. *)
Theorem highlightActiveSection_marks_last_matching
    (Y : Q) (sections : list SectionEl) (navLinks : list NavLink) :
  let after := highlightActiveSection Y sections navLinks in
  (forall s, In s sections -> inHalfOpenSpan Y s ->
     (forall s', In s' sections -> inHalfOpenSpan Y s' -> s' = s) ->
     after = map (markLink (sec_id s)) navLinks
     /\ forall l, In l after -> (marked l <-> href l = "#" +:+ sec_id s))
  /\ (forall s, lastMatching Y sections = Some s ->
      In s sections /\ inHalfOpenSpan Y s
      /\ after = map (markLink (sec_id s)) navLinks
      /\ forall l, In l after -> (marked l <-> href l = "#" +:+ sec_id s))
  /\ ((forall s, In s sections -> ~ inHalfOpenSpan Y s) -> after = navLinks).
Proof.
  cbn zeta. rewrite highlight_fold. split; [|split].
  - intros s Hin Hs Huniq.
    rewrite (lastMatching_unique Y sections s) by assumption.
    split; [reflexivity|]. intros l. apply marked_after_markLink.
  - intros s E. rewrite E.
    apply lastMatching_Some in E as [Hin Hs]. apply inSpan_spec in Hs.
    split; [assumption|]. split; [assumption|]. split; [reflexivity|].
    intros l. apply marked_after_markLink.
  - intros Hnone.
    destruct (lastMatching Y sections) as [s|] eqn:E; [|reflexivity].
    apply lastMatching_Some in E as [Hin Hs].
    apply inSpan_spec in Hs. exfalso. exact (Hnone s Hin Hs).
Qed.

End Highlight.

(** ** Theme toggle (getTheme, setTheme, toggleTheme, initTheme) *)

Module Theme.

(** The three places the theme code reads and writes: browser-local
    storage, the data-theme attribute of the document element (absent until
    first set), and the text of the toggle's icon when that element exists. *)
Record ThemeState := mkTheme {
  localStorage : gmap string string;
  data_theme : option string;
  themeIcon : option string
}.

(** The two copies of the script. They differ in the text [setTheme] gives
    the icon: src/Mdule-1/js/script.js holds the sun and moon emoji
    (U+2600 U+FE0F and U+1F319), src/js/script.js holds the same bytes read
    as Windows-1252 and saved again as UTF-8. *)
Inductive ScriptFile :=
| JsScript
| Mdule1Script.

Definition sunGlyph (script : ScriptFile) : string :=
  match script with
  | JsScript => "â˜€ï¸"
  | Mdule1Script => "☀️"
  end.

Definition moonGlyph (script : ScriptFile) : string :=
  match script with
  | JsScript => "ðŸŒ™"
  | Mdule1Script => "🌙"
  end.

(** The UTF-8 bytes of a string literal of the source. *)
Definition utf8Bytes (s : string) : list nat :=
  map Ascii.nat_of_ascii (String.list_ascii_of_string s).

(** [localStorage.getItem('theme') || 'light']: a missing key reads as null,
    and both null and the empty string are falsy. *)
Definition getTheme (st : ThemeState) : string :=
  match localStorage st !! "theme" with
  | Some t => if String.eqb t "" then "light" else t
  | None => "light"
  end.

(** The theme operations of the script. *)
Inductive ThemeOp :=
| OpInit
| OpSet (theme : string)
| OpToggle.

Section Script.

Variable script : ScriptFile.

Definition setTheme (theme : string) (st : ThemeState) : ThemeState :=
  {| data_theme := Some theme;
     localStorage := <["theme" := theme]> (localStorage st);
     themeIcon :=
       match themeIcon st with
       | Some _ =>
           Some (if String.eqb theme "dark" then sunGlyph script
                 else moonGlyph script)
       | None => None
       end |}.

Definition toggleTheme (st : ThemeState) : ThemeState :=
  let currentTheme := getTheme st in
  let newTheme := if String.eqb currentTheme "dark" then "light" else "dark" in
  setTheme newTheme st.

Definition initTheme (st : ThemeState) : ThemeState :=
  let savedTheme := getTheme st in
  setTheme savedTheme st.

Definition runOp (st : ThemeState) (op : ThemeOp) : ThemeState :=
  match op with
  | OpInit => initTheme st
  | OpSet theme => setTheme theme st
  | OpToggle => toggleTheme st
  end.

Definition runOps (ops : list ThemeOp) (st : ThemeState) : ThemeState :=
  fold_left runOp ops st.

(** The persisted value is "light", "dark" or unset. *)
Definition persistedLightOrDark (st : ThemeState) : Prop :=
  localStorage st !! "theme" = None
  \/ localStorage st !! "theme" = Some "light"
  \/ localStorage st !! "theme" = Some "dark".

(** Two toggles bring back the attribute and the persisted value, the
    latter read with its "light" default. *)
Definition toggleTwiceRestores (st : ThemeState) : Prop :=
  let st2 := toggleTheme (toggleTheme st) in
  data_theme st2 = data_theme st /\ getTheme st2 = getTheme st.

Lemma getTheme_setTheme theme st :
  theme <> "" -> getTheme (setTheme theme st) = theme.
Proof.
  intros Hne. unfold getTheme, setTheme; cbn.
  rewrite lookup_insert_eq.
  destruct (String.eqb theme "") eqn:E; [|reflexivity].
  apply String.eqb_eq in E. contradiction.
Qed.

Lemma data_theme_setTheme theme st : data_theme (setTheme theme st) = Some theme.
Proof. reflexivity. Qed.

Lemma stored_setTheme theme st :
  localStorage (setTheme theme st) !! "theme" = Some theme.
Proof. cbn. apply lookup_insert_eq. Qed.

Lemma getTheme_light_or_dark st :
  persistedLightOrDark st -> getTheme st = "light" \/ getTheme st = "dark".
Proof.
  unfold getTheme. intros [H|[H|H]]; rewrite H; cbn; auto.
Qed.

(** After two toggles both the attribute and the stored entry hold the
    value that [getTheme] read before the first one. *)
Lemma toggleTheme_twice st :
  persistedLightOrDark st ->
  let st2 := toggleTheme (toggleTheme st) in
  data_theme st2 = Some (getTheme st)
  /\ localStorage st2 = <["theme" := getTheme st]> (localStorage st).
Proof.
  intros Hp. cbn zeta.
  destruct (getTheme_light_or_dark st Hp) as [H|H].
  - replace (toggleTheme st) with (setTheme "dark" st)
      by (unfold toggleTheme; rewrite H; reflexivity).
    unfold toggleTheme. rewrite getTheme_setTheme by discriminate.
    rewrite H. cbn. now rewrite insert_insert_eq.
  - replace (toggleTheme st) with (setTheme "light" st)
      by (unfold toggleTheme; rewrite H; reflexivity).
    unfold toggleTheme. rewrite getTheme_setTheme by discriminate.
    rewrite H. cbn. now rewrite insert_insert_eq.
Qed.

(** C6, amended: for every starting state in which the persisted value is
    "light" or "dark" (or unset, read as "light") and the document theme
    attribute equals that value, two toggles return the attribute and the
    persisted value (read with its default) to what they were before the
    first toggle; when the entry was set, the whole storage is as before. *)
Theorem toggleTheme_twice_restores (st : ThemeState) :
  persistedLightOrDark st ->
  data_theme st = Some (getTheme st) ->
  let st2 := toggleTheme (toggleTheme st) in
  data_theme st2 = data_theme st
  /\ getTheme st2 = getTheme st
  /\ (is_Some (localStorage st !! "theme") -> localStorage st2 = localStorage st).
Proof.
  intros Hp Hsync. cbn zeta.
  destruct (toggleTheme_twice st Hp) as [Hattr Hstore].
  split; [congruence|]. split.
  - unfold getTheme at 1. rewrite Hstore, lookup_insert_eq.
    destruct (getTheme_light_or_dark st Hp) as [H|H]; rewrite H; reflexivity.
  - intros [t Ht]. rewrite Hstore. apply insert_id.
    rewrite Ht. f_equal. unfold getTheme. rewrite Ht.
    destruct Hp as [H|[H|H]]; rewrite Ht in H; inversion H; reflexivity.
Qed.

(** C9: after a non-empty sequence of theme operations (initialise, set,
    toggle) started in any state, the data-theme attribute and the entry
    stored under "theme" hold the same value. *)
Theorem theme_attribute_equals_stored
    (st : ThemeState) (ops : list ThemeOp) (op : ThemeOp) :
  let st' := runOps (ops ++ [op]) st in
  exists theme,
    data_theme st' = Some theme /\ localStorage st' !! "theme" = Some theme.
Proof.
  cbn zeta. unfold runOps. rewrite fold_left_app. cbn.
  set (s := fold_left runOp ops st). clearbody s.
  destruct op as [|theme|]; cbn [runOp].
  - exists (getTheme s). split; [reflexivity | apply stored_setTheme].
  - exists theme. split; [reflexivity | apply stored_setTheme].
  - eexists. split; [reflexivity | apply stored_setTheme].
Qed.

End Script.

(** A page whose attribute still says "light" while the storage entry,
    shared by every page of the origin, already says "dark". *)
Definition staleLightPage : ThemeState :=
  {| localStorage := {["theme" := "dark"]};
     data_theme := Some "light";
     themeIcon := Some (moonGlyph Mdule1Script) |}.

Definition darkPage : ThemeState :=
  {| localStorage := {["theme" := "dark"]};
     data_theme := Some "dark";
     themeIcon := Some (sunGlyph Mdule1Script) |}.

(** The icon texts, byte for byte as the two files hold them. *)
Example sunGlyph_bytes :
  utf8Bytes (sunGlyph JsScript) = [195; 162; 203; 156; 226; 130; 172; 195; 175; 194; 184]%nat
  /\ utf8Bytes (sunGlyph Mdule1Script) = [226; 152; 128; 239; 184; 143]%nat.
Proof. split; reflexivity. Qed.

Example moonGlyph_bytes :
  utf8Bytes (moonGlyph JsScript) = [195; 176; 197; 184; 197; 146; 226; 132; 162]%nat
  /\ utf8Bytes (moonGlyph Mdule1Script) = [240; 159; 140; 153]%nat.
Proof. split; reflexivity. Qed.

(** C6, counterexample: the stored value is "dark" and the attribute is
    "light"; the first toggle writes "light" to both and the second writes
    "dark" to both, so the attribute ends at "dark", not at the "light" it
    had before the first toggle. Both copies of the script behave so. *)
Lemma toggleTwice_changes_stale_attribute :
  persistedLightOrDark staleLightPage
  /\ ~ toggleTwiceRestores JsScript staleLightPage
  /\ ~ toggleTwiceRestores Mdule1Script staleLightPage.
Proof.
  split; [|split].
  - right; right. reflexivity.
  - intros [Hattr _]. vm_compute in Hattr. discriminate Hattr.
  - intros [Hattr _]. vm_compute in Hattr. discriminate Hattr.
Qed.

Lemma toggleTheme_twice_restores_darkPage :
  let st2 := toggleTheme Mdule1Script (toggleTheme Mdule1Script darkPage) in
  data_theme st2 = data_theme darkPage
  /\ getTheme st2 = getTheme darkPage
  /\ (is_Some (localStorage darkPage !! "theme")
      -> localStorage st2 = localStorage darkPage).
Proof.
  apply (toggleTheme_twice_restores Mdule1Script darkPage).
  - right; right. reflexivity.
  - reflexivity.
Defined.

End Theme.

(** ** Hamburger menu (toggleMobileMenu, Mdule-1/js/script.js) *)

Module Menu.

(** The hamburger control: its class list and aria-expanded attribute. *)
Record Hamburger := mkHamburger {
  ham_classList : gset string;
  aria_expanded : option string
}.

(** The nav menu element: its class list. *)
Record NavMenu := mkNavMenu {
  nav_classList : gset string
}.

(** [hamburger] and [navMenu] are the results of getElementById, null when
    the element is missing; [bodyOverflow] is document.body.style.overflow,
    which the lightbox code writes as well. *)
Record MenuState := mkMenu {
  hamburger : option Hamburger;
  navMenu : option NavMenu;
  bodyOverflow : string
}.

Definition toggleMobileMenu (st : MenuState) : MenuState :=
  match hamburger st, navMenu st with
  | Some h, Some n =>
      let isActive := bool_decide ("active" ∈ nav_classList n) in
      if isActive then
        {| navMenu := Some {| nav_classList := nav_classList n ∖ {["active"]} |};
           hamburger := Some {| ham_classList := ham_classList h ∖ {["active"]};
                                aria_expanded := Some "false" |};
           bodyOverflow := "" |}
      else
        {| navMenu := Some {| nav_classList := nav_classList n ∪ {["active"]} |};
           hamburger := Some {| ham_classList := ham_classList h ∪ {["active"]};
                                aria_expanded := Some "true" |};
           bodyOverflow := "hidden" |}
  | _, _ => st
  end.

(** The four observations of the claim. *)
Definition menuOpen (st : MenuState) : bool :=
  match navMenu st with
  | Some n => bool_decide ("active" ∈ nav_classList n)
  | None => false
  end.

Definition hamburgerActive (st : MenuState) : bool :=
  match hamburger st with
  | Some h => bool_decide ("active" ∈ ham_classList h)
  | None => false
  end.

Definition ariaExpanded (st : MenuState) : option string :=
  match hamburger st with
  | Some h => aria_expanded h
  | None => None
  end.

Definition observations (st : MenuState) : bool * bool * option string * string :=
  (menuOpen st, hamburgerActive st, ariaExpanded st, bodyOverflow st).

Definition bothExist (st : MenuState) : Prop :=
  is_Some (hamburger st) /\ is_Some (navMenu st).

(** The four values agree: all say "open" or all say "closed". *)
Definition consistent (st : MenuState) : Prop :=
  (menuOpen st = true /\ hamburgerActive st = true
   /\ ariaExpanded st = Some "true" /\ bodyOverflow st = "hidden")
  \/ (menuOpen st = false /\ hamburgerActive st = false
      /\ ariaExpanded st = Some "false" /\ bodyOverflow st = "").

(** The menu is closed while the lightbox is open: the lightbox has set the
    body overflow to "hidden". *)
Definition closedUnderLightbox : MenuState :=
  {| hamburger := Some {| ham_classList := {["hamburger"]};
                          aria_expanded := Some "false" |};
     navMenu := Some {| nav_classList := {["nav-menu"]} |};
     bodyOverflow := "hidden" |}.

Definition closedMenu : MenuState :=
  {| hamburger := Some {| ham_classList := {["hamburger"]};
                          aria_expanded := Some "false" |};
     navMenu := Some {| nav_classList := {["nav-menu"]} |};
     bodyOverflow := "" |}.

Lemma remove_add_active (s : gset string) :
  "active" ∉ s -> (s ∪ {["active"]}) ∖ {["active"]} = s.
Proof.
  intros Hnot. apply set_eq. intros x.
  rewrite elem_of_difference, elem_of_union, elem_of_singleton. split.
  - intros [[Hx|Hx] Hne]; [assumption | contradiction].
  - intros Hx. split; [now left | intros ->; contradiction].
Qed.

Lemma add_remove_active (s : gset string) :
  "active" ∈ s -> (s ∖ {["active"]}) ∪ {["active"]} = s.
Proof.
  intros Hin. apply set_eq. intros x.
  rewrite elem_of_union, elem_of_difference, elem_of_singleton. split.
  - intros [[Hx _] | ->]; assumption.
  - intros Hx. destruct (decide (x = "active")) as [->|Hne]; [now right | now left].
Qed.

Lemma active_after_add (s : gset string) :
  bool_decide ("active" ∈ s ∪ {["active"]}) = true.
Proof.
  apply bool_decide_eq_true. apply elem_of_union. right.
  now apply elem_of_singleton.
Qed.

Lemma active_after_remove (s : gset string) :
  bool_decide ("active" ∈ s ∖ {["active"]}) = false.
Proof.
  apply bool_decide_eq_false. rewrite elem_of_difference, elem_of_singleton.
  intros [_ Hne]. now apply Hne.
Qed.

(** What two toggles leave behind, whatever the starting values were. *)
Lemma toggleMobileMenu_twice_observations st :
  bothExist st ->
  observations (toggleMobileMenu (toggleMobileMenu st)) =
  if menuOpen st then (true, true, Some "true", "hidden")
  else (false, false, Some "false", "").
Proof.
  intros [[h Hh] [n Hn]]. destruct st as [ho no ov]; cbn in *; subst.
  unfold toggleMobileMenu, observations, menuOpen, hamburgerActive, ariaExpanded; cbn.
  destruct (bool_decide ("active" ∈ nav_classList n)) eqn:E; cbn.
  - rewrite active_after_remove; cbn. now rewrite !active_after_add.
  - rewrite active_after_add; cbn. now rewrite !active_after_remove.
Qed.

(** C10, counterexample: both elements exist, the menu is closed and the
    body overflow is "hidden" because the lightbox is open; two toggles
    open and close the menu and leave the overflow at the empty string. *)
Lemma toggleMobileMenu_twice_loses_overflow :
  bothExist closedUnderLightbox
  /\ observations (toggleMobileMenu (toggleMobileMenu closedUnderLightbox))
     <> observations closedUnderLightbox.
Proof.
  split.
  - split; eexists; reflexivity.
  - rewrite toggleMobileMenu_twice_observations by (split; eexists; reflexivity).
    vm_compute. discriminate.
Qed.

(** C10, amended: for every state in which both elements exist, two
    toggles return the menu's open class to its earlier value and leave the
    hamburger's active class, its aria-expanded attribute and the body
    overflow at the values that agree with it (all "open": both classes
    present, aria-expanded "true", overflow "hidden"; or all "closed": both
    classes absent, aria-expanded "false", overflow empty). So the four
    values are back at their earlier values exactly when they agreed
    beforehand, and from an agreeing state the whole state is restored. *)
Theorem toggleMobileMenu_twice_restores (st : MenuState) :
  bothExist st ->
  let st2 := toggleMobileMenu (toggleMobileMenu st) in
  menuOpen st2 = menuOpen st
  /\ consistent st2
  /\ observations st2
     = (if menuOpen st then (true, true, Some "true", "hidden")
        else (false, false, Some "false", ""))
  /\ (observations st2 = observations st <-> consistent st)
  /\ (consistent st -> st2 = st).
Proof.
  intros Hex. cbn zeta.
  pose proof (toggleMobileMenu_twice_observations st Hex) as Hobs.
  split; [|split; [|split; [exact Hobs|split]]].
  - unfold observations in Hobs. destruct (menuOpen st); now inversion Hobs.
  - unfold observations in Hobs. unfold consistent.
    destruct (menuOpen st); inversion Hobs as [[Hm Hh Ha Ho]];
      rewrite ?Hm, ?Hh, ?Ha, ?Ho; [left | right]; auto.
  - rewrite Hobs. unfold consistent, observations.
    destruct (menuOpen st); split.
    + intros H. inversion H. left. auto.
    + intros [(_ & -> & -> & ->)|(H & _)]; [reflexivity | discriminate].
    + intros H. inversion H. right. auto.
    + intros [(H & _)|(_ & -> & -> & ->)]; [discriminate | reflexivity].
  - destruct Hex as [[h Hh] [n Hn]]. destruct st as [ho no ov]; cbn in *; subst.
    unfold consistent, menuOpen, hamburgerActive, ariaExpanded; cbn.
    unfold toggleMobileMenu; cbn.
    intros [(Hn & Hh & Ha & Ho)|(Hn & Hh & Ha & Ho)]; rewrite Hn; cbn.
    + rewrite active_after_remove; cbn.
      apply bool_decide_eq_true in Hn, Hh.
      rewrite !add_remove_active by assumption.
      destruct h, n; cbn in *; subst; reflexivity.
    + rewrite active_after_add; cbn.
      apply bool_decide_eq_false in Hn, Hh.
      rewrite !remove_add_active by assumption.
      destruct h, n; cbn in *; subst; reflexivity.
Qed.

Lemma toggleMobileMenu_twice_restores_closedMenu :
  let st2 := toggleMobileMenu (toggleMobileMenu closedMenu) in
  menuOpen st2 = menuOpen closedMenu
  /\ consistent st2
  /\ observations st2
     = (if menuOpen closedMenu then (true, true, Some "true", "hidden")
        else (false, false, Some "false", ""))
  /\ (observations st2 = observations closedMenu <-> consistent closedMenu)
  /\ (consistent closedMenu -> st2 = closedMenu).
Proof.
  apply (toggleMobileMenu_twice_restores closedMenu).
  split; eexists; reflexivity.
Defined.

End Menu.

(** ** Lazy loading of images (imageObserver) *)

Module LazyLoad.

(** An image element is its attribute map: [img.src = v] writes the "src"
    attribute and [img.dataset.src] reads "data-src".  The state holds the
    images of the page by node identity and the targets the observer
    currently watches. *)
Record LazyState := mkLazy {
  images : gmap nat (gmap string string);
  observed : gset nat
}.

Record Entry := mkEntry {
  target : nat;
  isIntersecting : bool
}.

(** [img[data-src]]: the attribute is present, whatever its value. *)
Definition hasDataSrc (img : gmap string string) : bool :=
  bool_decide (is_Some (img !! "data-src")).

(** [document.querySelectorAll('img[data-src]').forEach(img =>
    imageObserver.observe(img))] *)
Definition observeAll (st : LazyState) : LazyState :=
  {| images := images st;
     observed := observed st ∪ dom (filter (λ kv, hasDataSrc kv.2 = true) (images st)) |}.

(** Body of [entries.forEach]: an undefined or empty [dataset.src] is
    falsy. *)
Definition handleEntry (st : LazyState) (entry : Entry) : LazyState :=
  if isIntersecting entry then
    match images st !! target entry with
    | Some img =>
        match img !! "data-src" with
        | Some dataSrc =>
            if String.eqb dataSrc "" then st
            else
              {| images := <[target entry := delete "data-src" (<["src" := dataSrc]> img)]>
                             (images st);
                 observed := observed st ∖ {[target entry]} |}
        | None => st
        end
    | None => st
    end
  else st.

(** One run of the observer callback on a batch of entries. *)
Definition imageObserverCallback (st : LazyState) (entries : list Entry) : LazyState :=
  fold_left handleEntry entries st.

(** Any number of callback runs. *)
Definition runCallbacks (batches : list (list Entry)) (st : LazyState) : LazyState :=
  fold_left imageObserverCallback batches st.

Definition plainImagePage : gmap nat (gmap string string) :=
  {[ 0%nat := {["src" := "a.jpg"]};
     1%nat := {["data-src" := "b.jpg"]} ]}.

Lemma handleEntry_keeps_plain_image st entry i (img : gmap string string) :
  images st !! i = Some img -> img !! "data-src" = None ->
  images (handleEntry st entry) !! i = Some img.
Proof.
  intros Hi Hnone. unfold handleEntry.
  destruct (isIntersecting entry); [|assumption].
  destruct (images st !! target entry) as [img'|] eqn:Et; [|assumption].
  destruct (img' !! "data-src") as [d|] eqn:Ed; [|assumption].
  destruct (String.eqb d ""); [assumption|]. cbn.
  destruct (decide (target entry = i)) as [Heq|Hne].
  - subst i. rewrite Et in Hi. inversion Hi; subst. congruence.
  - now rewrite lookup_insert_ne.
Qed.

Lemma callback_keeps_plain_image entries : forall st i (img : gmap string string),
  images st !! i = Some img -> img !! "data-src" = None ->
  images (imageObserverCallback st entries) !! i = Some img.
Proof.
  unfold imageObserverCallback.
  induction entries as [|e es IH]; intros st i img Hi Hnone; cbn; [assumption|].
  apply IH; [|assumption]. now apply handleEntry_keeps_plain_image.
Qed.

Lemma observeAll_skips_plain_image st i (img : gmap string string) :
  images st !! i = Some img -> img !! "data-src" = None ->
  i ∉ observed st -> i ∉ observed (observeAll st).
Proof.
  intros Hi Hnone Hobs. unfold observeAll; cbn.
  rewrite elem_of_union, elem_of_dom. intros [H|[x Hx]]; [contradiction|].
  apply map_lookup_filter_Some in Hx as [Hx Hp]. cbn in Hp.
  rewrite Hi in Hx. inversion Hx; subst x.
  unfold hasDataSrc in Hp. apply bool_decide_eq_true in Hp.
  rewrite Hnone in Hp. destruct Hp as [? Hp]. discriminate Hp.
Qed.

Lemma handleEntry_observed_shrinks st entry i :
  i ∉ observed st -> i ∉ observed (handleEntry st entry).
Proof.
  intros Hnot. unfold handleEntry.
  destruct (isIntersecting entry); [|assumption].
  destruct (images st !! target entry) as [img'|]; [|assumption].
  destruct (img' !! "data-src") as [d|]; [|assumption].
  destruct (String.eqb d ""); [assumption|]. cbn.
  rewrite elem_of_difference. intros [Hin _]. contradiction.
Qed.

Lemma runCallbacks_keep_plain_image batches : forall st i (img : gmap string string),
  images st !! i = Some img -> img !! "data-src" = None ->
  images (runCallbacks batches st) !! i = Some img.
Proof.
  unfold runCallbacks.
  induction batches as [|b bs IH]; intros st i img Hi Hnone; cbn; [assumption|].
  apply IH; [|assumption]. now apply callback_keeps_plain_image.
Qed.

Lemma runCallbacks_observed_shrinks batches : forall st i,
  i ∉ observed st -> i ∉ observed (runCallbacks batches st).
Proof.
  unfold runCallbacks.
  induction batches as [|b bs IH]; intros st i Hnot; cbn; [assumption|].
  apply IH. unfold imageObserverCallback. revert st Hnot.
  induction b as [|e es IHe]; intros st Hnot; cbn; [assumption|].
  apply IHe. now apply handleEntry_observed_shrinks.
Qed.

(** C7: an image with no data-src attribute is not among the targets that
    the registration loop hands to the observer and never becomes one, and
    whatever batches of entries the callback receives, in any state of the
    observer (entries for that image included), the image's attributes are
    what they were. *)
Theorem imageObserver_never_changes_plain_image
    (imgs : gmap nat (gmap string string)) (i : nat) (img : gmap string string) :
  imgs !! i = Some img ->
  img !! "data-src" = None ->
  let st0 := observeAll {| images := imgs; observed := ∅ |} in
  (i ∉ observed st0)
  /\ (forall batches : list (list Entry),
        (i ∉ observed (runCallbacks batches st0))
        /\ images (runCallbacks batches st0) !! i = Some img)
  /\ (forall (st : LazyState) (batches : list (list Entry)),
        images st !! i = Some img ->
        images (runCallbacks batches st) !! i = Some img).
Proof.
  intros Hi Hnone st0.
  assert (Hobs : i ∉ observed st0).
  { apply (observeAll_skips_plain_image _ i img); cbn;
      [assumption | assumption | apply not_elem_of_empty]. }
  split; [assumption|]. split.
  - intros batches. split.
    + now apply runCallbacks_observed_shrinks.
    + now apply runCallbacks_keep_plain_image.
  - intros st batches Hst. now apply runCallbacks_keep_plain_image.
Qed.

Lemma imageObserver_never_changes_plain_image_example :
  let st0 := observeAll {| images := plainImagePage; observed := ∅ |} in
  (0%nat ∉ observed st0)
  /\ (forall batches : list (list Entry),
        (0%nat ∉ observed (runCallbacks batches st0))
        /\ images (runCallbacks batches st0) !! 0%nat = Some {["src" := "a.jpg"]})
  /\ (forall (st : LazyState) (batches : list (list Entry)),
        images st !! 0%nat = Some {["src" := "a.jpg"]} ->
        images (runCallbacks batches st) !! 0%nat = Some {["src" := "a.jpg"]}).
Proof.
  apply (imageObserver_never_changes_plain_image plainImagePage 0%nat).
  - reflexivity.
  - reflexivity.
Defined.

End LazyLoad.

(** ** Strings typed by the user *)

Module JsString.

Open Scope N_scope.

(** A JavaScript string is a sequence of UTF-16 code units; [length] counts
    code units.  [ofString] embeds an ASCII literal. *)
Definition ofString (s : string) : list N :=
  map Ascii.N_of_ascii (String.list_ascii_of_string s).

(** WhiteSpace and LineTerminator of the language: the code units that
    [String.prototype.trim] strips and that the class [\s] matches. *)
Definition isWhiteSpace (c : N) : bool :=
  (c =? 0x9) || (c =? 0xA) || (c =? 0xB) || (c =? 0xC) || (c =? 0xD)
  || (c =? 0x20) || (c =? 0xA0) || (c =? 0x1680)
  || ((0x2000 <=? c) && (c <=? 0x200A))
  || (c =? 0x2028) || (c =? 0x2029) || (c =? 0x202F) || (c =? 0x205F)
  || (c =? 0x3000) || (c =? 0xFEFF).

Fixpoint trimStart (s : list N) : list N :=
  match s with
  | [] => []
  | c :: rest => if isWhiteSpace c then trimStart rest else s
  end.

Definition trimEnd (s : list N) : list N := rev (trimStart (rev s)).

Definition trim (s : list N) : list N := trimEnd (trimStart s).

Example trim_pads : trim (ofString "  Ann ") = ofString "Ann".
Proof. reflexivity. Qed.

Example trim_keeps_inner : trim (ofString " a b ") = ofString "a b".
Proof. reflexivity. Qed.

End JsString.

(** ** Regular expressions, as far as the email pattern needs them *)

Module Regex.

Import JsString.
Open Scope N_scope.

(** Patterns over code units.  A pattern anchored with [^] and [$] is
    matched against the whole input. *)
Inductive Regex :=
| Never
| Empty
| Class (p : N -> bool)
| Seq (r1 r2 : Regex)
| Alt (r1 r2 : Regex)
| Star (r : Regex).

(** [r+] *)
Definition Plus (r : Regex) : Regex := Seq r (Star r).

(** A literal character. *)
Definition Lit (c : N) : Regex := Class (N.eqb c).

Inductive Matches : Regex -> list N -> Prop :=
| MEmpty : Matches Empty []
| MClass p c : p c = true -> Matches (Class p) [c]
| MSeq r1 r2 s1 s2 : Matches r1 s1 -> Matches r2 s2 -> Matches (Seq r1 r2) (s1 ++ s2)
| MAltL r1 r2 s : Matches r1 s -> Matches (Alt r1 r2) s
| MAltR r1 r2 s : Matches r2 s -> Matches (Alt r1 r2) s
| MStarNil r : Matches (Star r) []
| MStarApp r s1 s2 : Matches r s1 -> Matches (Star r) s2 -> Matches (Star r) (s1 ++ s2).

Fixpoint nullable (r : Regex) : bool :=
  match r with
  | Never => false
  | Empty => true
  | Class _ => false
  | Seq r1 r2 => nullable r1 && nullable r2
  | Alt r1 r2 => nullable r1 || nullable r2
  | Star _ => true
  end.

(** The pattern left to match once the code unit [c] has been read. *)
Fixpoint deriv (c : N) (r : Regex) : Regex :=
  match r with
  | Never => Never
  | Empty => Never
  | Class p => if p c then Empty else Never
  | Seq r1 r2 =>
      if nullable r1
      then Alt (Seq (deriv c r1) r2) (deriv c r2)
      else Seq (deriv c r1) r2
  | Alt r1 r2 => Alt (deriv c r1) (deriv c r2)
  | Star r1 => Seq (deriv c r1) (Star r1)
  end.

(** [regex.test(s)] for a pattern anchored at both ends. *)
Fixpoint test (r : Regex) (s : list N) : bool :=
  match s with
  | [] => nullable r
  | c :: rest => test (deriv c r) rest
  end.

(** [[^\s@]] *)
Definition notSpaceOrAt (c : N) : bool :=
  negb (isWhiteSpace c || (c =? 64)).

(** [/^[^\s@]+@[^\s@]+\.[^\s@]+$/] *)
Definition emailRegex : Regex :=
  Seq (Plus (Class notSpaceOrAt))
    (Seq (Lit 64)
      (Seq (Plus (Class notSpaceOrAt))
        (Seq (Lit 46)
          (Plus (Class notSpaceOrAt))))).

Example emailRegex_accepts : test emailRegex (ofString "ann@example.com") = true.
Proof. reflexivity. Qed.

Example emailRegex_rejects : test emailRegex (ofString "bad-email") = false.
Proof. reflexivity. Qed.

Example emailRegex_rejects_two_ats : test emailRegex (ofString "a@b@c.d") = false.
Proof. reflexivity. Qed.

Example emailRegex_rejects_trailing_dot : test emailRegex (ofString "a@b.") = false.
Proof. reflexivity. Qed.

Lemma Matches_Never_inv s : Matches Never s -> False.
Proof. inversion 1. Qed.

Lemma Matches_Empty_inv s : Matches Empty s -> s = [].
Proof. now inversion 1. Qed.

Lemma Matches_Class_inv p s : Matches (Class p) s -> exists c, s = [c] /\ p c = true.
Proof. inversion 1; subst; eauto. Qed.

Lemma Matches_Seq_inv r1 r2 s :
  Matches (Seq r1 r2) s ->
  exists s1 s2, s = s1 ++ s2 /\ Matches r1 s1 /\ Matches r2 s2.
Proof. inversion 1; subst; eauto. Qed.

Lemma Matches_Alt_inv r1 r2 s :
  Matches (Alt r1 r2) s -> Matches r1 s \/ Matches r2 s.
Proof. inversion 1; subst; auto. Qed.

Lemma nullable_spec r : nullable r = true <-> Matches r [].
Proof.
  induction r as [| |p|r1 IH1 r2 IH2|r1 IH1 r2 IH2|r IH]; cbn.
  - split; [discriminate | intros H; destruct (Matches_Never_inv _ H)].
  - split; [constructor | reflexivity].
  - split; [discriminate|].
    intros H. apply Matches_Class_inv in H as (c & Hc & _). discriminate.
  - rewrite andb_true_iff, IH1, IH2. split.
    + intros [H1 H2]. exact (MSeq _ _ [] [] H1 H2).
    + intros H. apply Matches_Seq_inv in H as (s1 & s2 & Heq & H1 & H2).
      symmetry in Heq. apply app_eq_nil in Heq as [-> ->]. auto.
  - rewrite orb_true_iff, IH1, IH2. split.
    + intros [H|H]; [now apply MAltL | now apply MAltR].
    + apply Matches_Alt_inv.
  - split; [constructor | reflexivity].
Qed.

(** A match of [r*] against a non-empty input starts with a non-empty match
    of [r]. *)
Lemma star_cons r s : Matches (Star r) s -> forall c rest, s = c :: rest ->
  exists s1 s2, rest = s1 ++ s2 /\ Matches r (c :: s1) /\ Matches (Star r) s2.
Proof.
  remember (Star r) as r' eqn:Er. intros H. revert r Er.
  induction H as [| | | | | r0 | r0 s1 s2 H1 _ H2 IH2]; intros r Er;
    try discriminate Er.
  - intros c rest Hnil. discriminate Hnil.
  - inversion Er; subst r0. intros c rest Heq.
    destruct s1 as [|c1 s1'].
    + cbn in Heq. exact (IH2 r eq_refl c rest Heq).
    + cbn in Heq. inversion Heq; subst. exists s1', s2. auto.
Qed.

Lemma deriv_spec r : forall c s, Matches (deriv c r) s <-> Matches r (c :: s).
Proof.
  induction r as [| |p|r1 IH1 r2 IH2|r1 IH1 r2 IH2|r IH]; intros c s; cbn.
  - split; intros H; destruct (Matches_Never_inv _ H).
  - split; intros H; [destruct (Matches_Never_inv _ H)|].
    apply Matches_Empty_inv in H. discriminate.
  - destruct (p c) eqn:Ep; split; intros H.
    + apply Matches_Empty_inv in H as ->. now constructor.
    + apply Matches_Class_inv in H as (c' & Heq & _).
      inversion Heq; subst. constructor.
    + destruct (Matches_Never_inv _ H).
    + apply Matches_Class_inv in H as (c' & Heq & Hp).
      inversion Heq; subst. congruence.
  - assert (Hseq : Matches (Seq (deriv c r1) r2) s ->
                   Matches (Seq r1 r2) (c :: s)).
    { intros H. apply Matches_Seq_inv in H as (s1 & s2 & -> & H1 & H2).
      apply IH1 in H1. exact (MSeq _ _ (c :: s1) s2 H1 H2). }
    assert (Hinv : Matches (Seq r1 r2) (c :: s) ->
                   Matches (Seq (deriv c r1) r2) s
                   \/ (Matches r1 [] /\ Matches r2 (c :: s))).
    { intros H. apply Matches_Seq_inv in H as (s1 & s2 & Heq & H1 & H2).
      destruct s1 as [|c1 s1'].
      - right. cbn in Heq. subst s2. auto.
      - left. cbn in Heq. inversion Heq; subst.
        apply IH1 in H1. now constructor. }
    destruct (nullable r1) eqn:En; split.
    + intros H. apply Matches_Alt_inv in H as [H|H]; [now apply Hseq|].
      apply nullable_spec in En. apply IH2 in H.
      exact (MSeq _ _ [] (c :: s) En H).
    + intros H. destruct (Hinv H) as [H'|[_ H']];
        [now apply MAltL | apply MAltR; now apply IH2].
    + apply Hseq.
    + intros H. destruct (Hinv H) as [H'|[H' _]]; [assumption|].
      apply nullable_spec in H'. congruence.
  - split; intros H; apply Matches_Alt_inv in H as [H|H].
    + apply MAltL. now apply IH1.
    + apply MAltR. now apply IH2.
    + apply MAltL. now apply IH1.
    + apply MAltR. now apply IH2.
  - split; intros H.
    + apply Matches_Seq_inv in H as (s1 & s2 & -> & H1 & H2).
      apply IH in H1. exact (MStarApp _ (c :: s1) s2 H1 H2).
    + destruct (star_cons r _ H c s eq_refl) as (s1 & s2 & -> & H1 & H2).
      constructor; [now apply IH | assumption].
Qed.

Lemma test_spec s : forall r, test r s = true <-> Matches r s.
Proof.
  induction s as [|c rest IH]; intros r; cbn.
  - apply nullable_spec.
  - rewrite IH. apply deriv_spec.
Qed.

Lemma Matches_Star_Class p s :
  Matches (Star (Class p)) s <-> Forall (fun c => p c = true) s.
Proof.
  split.
  - remember (Star (Class p)) as r eqn:Er. intros H.
    induction H as [| | | | | r0 | r0 s1 s2 H1 _ H2 IH2]; try discriminate Er.
    + constructor.
    + inversion Er; subst r0.
      apply Matches_Class_inv in H1 as (c & -> & Hc).
      constructor; [assumption | now apply IH2].
  - induction 1 as [|c rest Hc _ IH]; [constructor|].
    exact (MStarApp _ [c] rest (MClass p c Hc) IH).
Qed.

Lemma Matches_Plus_Class p s :
  Matches (Plus (Class p)) s <-> s <> [] /\ Forall (fun c => p c = true) s.
Proof.
  unfold Plus. split.
  - intros H. apply Matches_Seq_inv in H as (s1 & s2 & -> & H1 & H2).
    apply Matches_Class_inv in H1 as (c & -> & Hc).
    apply Matches_Star_Class in H2. split; [discriminate | now constructor].
  - intros [Hne Hall]. destruct s as [|c rest]; [contradiction|].
    inversion Hall; subst.
    apply (MSeq _ _ [c] rest); [now constructor | now apply Matches_Star_Class].
Qed.

Lemma Matches_Lit c s : Matches (Lit c) s <-> s = [c].
Proof.
  unfold Lit. split.
  - intros H. apply Matches_Class_inv in H as (c' & -> & Hc).
    apply N.eqb_eq in Hc. now subst.
  - intros ->. constructor. apply N.eqb_refl.
Qed.

(** The strings the email pattern accepts: three non-empty runs of code
    units other than whitespace and "@", separated by "@" and ".". *)
Lemma emailRegex_shape s :
  Matches emailRegex s <->
  exists a b c,
    s = a ++ 64 :: b ++ 46 :: c
    /\ a <> [] /\ b <> [] /\ c <> []
    /\ Forall (fun x => notSpaceOrAt x = true) a
    /\ Forall (fun x => notSpaceOrAt x = true) b
    /\ Forall (fun x => notSpaceOrAt x = true) c.
Proof.
  unfold emailRegex. split.
  - intros H.
    apply Matches_Seq_inv in H as (a & t1 & -> & Ha & H).
    apply Matches_Seq_inv in H as (at_ & t2 & -> & Hat & H).
    apply Matches_Seq_inv in H as (b & t3 & -> & Hb & H).
    apply Matches_Seq_inv in H as (dot & c & -> & Hdot & Hc).
    apply Matches_Lit in Hat as ->. apply Matches_Lit in Hdot as ->.
    apply Matches_Plus_Class in Ha as [Ha1 Ha2].
    apply Matches_Plus_Class in Hb as [Hb1 Hb2].
    apply Matches_Plus_Class in Hc as [Hc1 Hc2].
    exists a, b, c. cbn. auto 10.
  - intros (a & b & c & -> & Ha1 & Hb1 & Hc1 & Ha2 & Hb2 & Hc2).
    apply MSeq; [now apply Matches_Plus_Class|].
    apply (MSeq _ _ [64]); [now apply Matches_Lit|].
    apply MSeq; [now apply Matches_Plus_Class|].
    apply (MSeq _ _ [46]); [now apply Matches_Lit|].
    now apply Matches_Plus_Class.
Qed.

(** The email rule as the specification words it: no whitespace, exactly
    one "@", a non-empty part before it, and in the part after it some "."
    with a non-empty segment on each side. *)
Definition emailSpec (s : list N) : Prop :=
  (forall x, In x s -> isWhiteSpace x = false)
  /\ count_occ N.eq_dec s 64 = 1%nat
  /\ exists localPart domain,
       s = localPart ++ 64 :: domain
       /\ localPart <> []
       /\ exists before after,
            domain = before ++ 46 :: after /\ before <> [] /\ after <> [].

Lemma notSpaceOrAt_spec x :
  notSpaceOrAt x = true <-> isWhiteSpace x = false /\ x <> 64.
Proof.
  unfold notSpaceOrAt. rewrite negb_true_iff, orb_false_iff, N.eqb_neq.
  reflexivity.
Qed.

Lemma count_at_zero l :
  count_occ N.eq_dec l 64 = 0%nat <-> Forall (fun x => x <> 64) l.
Proof.
  rewrite <- count_occ_not_In, List.Forall_forall. split.
  - intros H x Hx ->. contradiction.
  - intros H Hin. exact (H 64 Hin eq_refl).
Qed.

Lemma notSpaceOrAt_all l :
  Forall (fun x => notSpaceOrAt x = true) l <->
  (forall x, In x l -> isWhiteSpace x = false)
  /\ count_occ N.eq_dec l 64 = 0%nat.
Proof.
  rewrite count_at_zero, !List.Forall_forall. split.
  - intros H. split; intros x Hx; now apply notSpaceOrAt_spec, H.
  - intros [H1 H2] x Hx. apply notSpaceOrAt_spec. auto.
Qed.

(** The pattern and the worded rule accept the same strings. *)
Lemma emailRegex_emailSpec s : Matches emailRegex s <-> emailSpec s.
Proof.
  rewrite emailRegex_shape. unfold emailSpec. split.
  - intros (a & b & c & -> & Ha1 & Hb1 & Hc1 & Ha2 & Hb2 & Hc2).
    apply notSpaceOrAt_all in Ha2 as [Ha2 Ha3].
    apply notSpaceOrAt_all in Hb2 as [Hb2 Hb3].
    apply notSpaceOrAt_all in Hc2 as [Hc2 Hc3].
    split; [|split].
    + intros x Hx. apply in_app_or in Hx as [Hx|[<-|Hx]]; [auto|reflexivity|].
      apply in_app_or in Hx as [Hx|[<-|Hx]]; [auto|reflexivity|auto].
    + rewrite count_occ_app; cbn. rewrite count_occ_app; cbn. lia.
    + exists a, (b ++ 46 :: c). split; [reflexivity|]. split; [assumption|].
      exists b, c. auto.
  - intros (Hws & Hcount & a & dom & -> & Ha1 & b & c & -> & Hb1 & Hc1).
    rewrite count_occ_app in Hcount; cbn in Hcount.
    rewrite count_occ_app in Hcount; cbn in Hcount.
    exists a, b, c. split; [reflexivity|]. repeat (split; [assumption|]).
    split; [|split]; apply notSpaceOrAt_all; (split; [|lia]); intros x Hx;
      apply Hws; apply in_or_app.
    + now left.
    + right. right. apply in_or_app. now left.
    + right. right. apply in_or_app. right. now right.
Qed.

End Regex.

(** ** Contact form: validation, error messages, submission *)

Module Form.

Import JsString Regex.

Inductive Field := NameField | EmailField | MessageField.

#[global] Instance Field_eq_dec : EqDecision Field.
Proof. solve_decision. Defined.

(** An input or textarea: its current value and its inline border colour. *)
Record InputEl := mkInput {
  value : list N;
  borderColor : string
}.

(** A div made by [document.createElement('div')]: its identity, class,
    inline styles in the order they are set, and text. *)
Record Div := mkDiv {
  node : nat;
  className : string;
  style : list (string * string);
  textContent : string
}.

(** The submit button of the form. *)
Record Button := mkButton {
  btn_textContent : string;
  disabled : bool
}.

(** What a pending [setTimeout] will run: the rest of the submit handler
    after its [await], or the removal of one banner. *)
Inductive Task :=
| SubmitDelayElapsed (originalText : string)
| RemoveMessage (messageNode : nat).

(** [errorMessages p] lists the elements of class error-message below the
    element [p], in document order; [formMessages] lists the elements of
    class form-message below the form; [submitBtn] is the result of
    [contactForm.querySelector('button[type="submit"]')]; [timers] are the
    pending timeouts with their delays in milliseconds; [nextNode] is the
    identity the next created element receives. *)
Record FormState := mkForm {
  nameInput : InputEl;
  emailInput : InputEl;
  messageInput : InputEl;
  errorMessages : nat -> list Div;
  formMessages : list Div;
  submitBtn : option Button;
  timers : list (N * Task);
  nextNode : nat
}.

Definition input (f : Field) (st : FormState) : InputEl :=
  match f with
  | NameField => nameInput st
  | EmailField => emailInput st
  | MessageField => messageInput st
  end.

Definition setInput (f : Field) (el : InputEl) (st : FormState) : FormState :=
  match f with
  | NameField =>
      mkForm el (emailInput st) (messageInput st) (errorMessages st)
        (formMessages st) (submitBtn st) (timers st) (nextNode st)
  | EmailField =>
      mkForm (nameInput st) el (messageInput st) (errorMessages st)
        (formMessages st) (submitBtn st) (timers st) (nextNode st)
  | MessageField =>
      mkForm (nameInput st) (emailInput st) el (errorMessages st)
        (formMessages st) (submitBtn st) (timers st) (nextNode st)
  end.

Definition setErrorMessages (p : nat) (l : list Div) (st : FormState) : FormState :=
  mkForm (nameInput st) (emailInput st) (messageInput st)
    (fun q => if Nat.eqb q p then l else errorMessages st q)
    (formMessages st) (submitBtn st) (timers st) (nextNode st).

Definition setFormMessages (l : list Div) (st : FormState) : FormState :=
  mkForm (nameInput st) (emailInput st) (messageInput st) (errorMessages st)
    l (submitBtn st) (timers st) (nextNode st).

Definition setSubmitBtn (b : option Button) (st : FormState) : FormState :=
  mkForm (nameInput st) (emailInput st) (messageInput st) (errorMessages st)
    (formMessages st) b (timers st) (nextNode st).

(** [setTimeout(task, delay)] *)
Definition setTimeout (delay : N) (t : Task) (st : FormState) : FormState :=
  mkForm (nameInput st) (emailInput st) (messageInput st) (errorMessages st)
    (formMessages st) (submitBtn st) (timers st ++ [(delay, t)]) (nextNode st).

Definition setTimers (l : list (N * Task)) (st : FormState) : FormState :=
  mkForm (nameInput st) (emailInput st) (messageInput st) (errorMessages st)
    (formMessages st) (submitBtn st) l (nextNode st).

(** [document.createElement]: the identity of the new element. *)
Definition createElement (st : FormState) : nat * FormState :=
  (nextNode st,
   mkForm (nameInput st) (emailInput st) (messageInput st) (errorMessages st)
     (formMessages st) (submitBtn st) (timers st) (S (nextNode st))).

Definition setBorderColor (f : Field) (c : string) (st : FormState) : FormState :=
  setInput f {| value := value (input f st); borderColor := c |} st.

Definition setValue (f : Field) (v : list N) (st : FormState) : FormState :=
  setInput f {| value := v; borderColor := borderColor (input f st) |} st.

Definition errorRed : string := "#d32f2f".

Definition errorDivFor (n : nat) (message : string) : Div :=
  {| node := n;
     className := "error-message";
     style := [("color", errorRed); ("fontSize", "0.875rem"); ("marginTop", "0.25rem")];
     textContent := message |}.

Definition nameMessage : string := "Name must be at least 2 characters long".
Definition emailMessage : string := "Please enter a valid email address".
Definition messageMessage : string := "Message must be at least 10 characters long".
Definition successText : string :=
  "Thank you for your message! We will get back to you soon.".

Definition formMessageDiv (n : nat) (type message : string) : Div :=
  {| node := n;
     className := "form-message";
     style := [("padding", "1rem"); ("marginTop", "1rem"); ("borderRadius", "5px");
               ("textAlign", "center"); ("fontWeight", "600");
               ("background", if String.eqb type "success" then "#4caf50" else "#f44336");
               ("color", "white")];
     textContent := message |}.

Section Markup.

(** The markup is not part of the scripts: which element is the parent of
    each field, and the value each field has in the markup (the value a
    form reset restores), are parameters.  Parents of different fields are
    taken to be the same element or to lie in disjoint subtrees. *)
Variable parentElement : Field -> nat.
Variable defaultValue : Field -> list N.

(** [querySelector('.error-message')] on the parent yields its first such
    descendant; [remove()] detaches it. *)
Definition clearError (f : Field) (st : FormState) : FormState :=
  let st1 :=
    match errorMessages st (parentElement f) with
    | errorDiv :: rest => setErrorMessages (parentElement f) rest st
    | [] => st
    end in
  setBorderColor f "" st1.

Definition showError (f : Field) (message : string) (st : FormState) : FormState :=
  let st1 := clearError f st in
  let '(n, st2) := createElement st1 in
  let errorDiv := errorDivFor n message in
  let st3 := setErrorMessages (parentElement f)
               (errorMessages st2 (parentElement f) ++ [errorDiv]) st2 in
  setBorderColor f errorRed st3.

Definition validateName (st : FormState) : bool * FormState :=
  let name := trim (value (nameInput st)) in
  if (length name <? 2)%nat
  then (false, showError NameField nameMessage st)
  else (true, clearError NameField st).

Definition validateEmail (st : FormState) : bool * FormState :=
  let email := trim (value (emailInput st)) in
  if negb (test emailRegex email)
  then (false, showError EmailField emailMessage st)
  else (true, clearError EmailField st).

Definition validateMessage (st : FormState) : bool * FormState :=
  let message := trim (value (messageInput st)) in
  if (length message <? 10)%nat
  then (false, showError MessageField messageMessage st)
  else (true, clearError MessageField st).

Definition showFormMessage (type message : string) (st : FormState) : FormState :=
  let st1 :=
    match formMessages st with
    | existingMessage :: rest => setFormMessages rest st
    | [] => st
    end in
  let '(n, st2) := createElement st1 in
  let messageDiv := formMessageDiv n type message in
  let st3 := setFormMessages (formMessages st2 ++ [messageDiv]) st2 in
  setTimeout 5000 (RemoveMessage n) st3.

(** [contactForm.reset()]: every field goes back to its markup value. *)
Definition formReset (st : FormState) : FormState :=
  setValue MessageField (defaultValue MessageField)
    (setValue EmailField (defaultValue EmailField)
      (setValue NameField (defaultValue NameField) st)).

(** How a run of the submit handler ends: it returns after a failed
    validation, it throws because the form has no submit button, or it is
    suspended at its [await] with the delay timer pending. *)
Inductive Outcome :=
| Returned (st : FormState)
| Threw (st : FormState)
| Awaiting (st : FormState).

Definition stateOf (o : Outcome) : FormState :=
  match o with
  | Returned st | Threw st | Awaiting st => st
  end.

Definition submitHandler (st : FormState) : Outcome :=
  let '(isNameValid, st1) := validateName st in
  let '(isEmailValid, st2) := validateEmail st1 in
  let '(isMessageValid, st3) := validateMessage st2 in
  if negb isNameValid || negb isEmailValid || negb isMessageValid
  then Returned st3
  else
    match submitBtn st3 with
    | None => Threw st3
    | Some btn =>
        let originalText := btn_textContent btn in
        let st4 := setSubmitBtn (Some {| btn_textContent := "Sending...";
                                         disabled := true |}) st3 in
        Awaiting (setTimeout 1500 (SubmitDelayElapsed originalText) st4)
    end.

(** The handler after its [await]: the try block, then the finally block
    on the button the handler holds.  The awaited promise only resolves and
    the statements of the try block do not throw, so the catch block, which
    would show the error banner, is never entered. *)
Definition submitResume (originalText : string) (st : FormState) : FormState :=
  let st1 := showFormMessage "success" successText st in
  let st2 := formReset st1 in
  setSubmitBtn
    (match submitBtn st2 with
     | Some _ => Some {| btn_textContent := originalText; disabled := false |}
     | None => None
     end) st2.

Definition runTask (t : Task) (st : FormState) : FormState :=
  match t with
  | SubmitDelayElapsed originalText => submitResume originalText st
  | RemoveMessage n =>
      setFormMessages
        (List.filter (fun d => negb (Nat.eqb (node d) n)) (formMessages st)) st
  end.

(** What can happen to the form: the user edits a field, a field loses
    focus, the form is submitted, a pending timer fires. *)
Inductive Event :=
| UserInput (f : Field) (v : list N)
| Blur (f : Field)
| Submit
| TimerFires (i : nat).

Definition step (st : FormState) (ev : Event) : FormState :=
  match ev with
  | UserInput f v => setValue f v st
  | Blur NameField => snd (validateName st)
  | Blur EmailField => snd (validateEmail st)
  | Blur MessageField => snd (validateMessage st)
  | Submit => stateOf (submitHandler st)
  | TimerFires i =>
      match timers st !! i with
      | Some (_, t) => runTask t (setTimers (delete i (timers st)) st)
      | None => st
      end
  end.

Definition run (events : list Event) (st : FormState) : FormState :=
  fold_left step events st.

(** *** What the helpers change and what they leave alone *)

Lemma errorMessages_clearError f st p :
  errorMessages (clearError f st) p =
  if Nat.eqb p (parentElement f) then tail (errorMessages st p)
  else errorMessages st p.
Proof.
  unfold clearError.
  destruct (errorMessages st (parentElement f)) as [|d rest] eqn:E;
    destruct f; cbn; destruct (Nat.eqb p _) eqn:Ep; try reflexivity;
    apply Nat.eqb_eq in Ep; subst p; now rewrite E.
Qed.

Lemma errorMessages_showError f message st p :
  errorMessages (showError f message st) p =
  if Nat.eqb p (parentElement f)
  then tail (errorMessages st p) ++ [errorDivFor (nextNode st) message]
  else errorMessages st p.
Proof.
  pose proof (errorMessages_clearError f st p) as Hc.
  pose proof (errorMessages_clearError f st (parentElement f)) as Hc'.
  rewrite Nat.eqb_refl in Hc'.
  assert (Hn : nextNode (clearError f st) = nextNode st).
  { unfold clearError.
    destruct (errorMessages st (parentElement f)); destruct f; reflexivity. }
  unfold showError, createElement.
  destruct f; cbn in *; rewrite Hn;
    (destruct (Nat.eqb p _) eqn:Ep;
     [apply Nat.eqb_eq in Ep; subst p; now rewrite Hc' | exact Hc]).
Qed.

Lemma input_clearError f st g :
  input g (clearError f st) =
  if bool_decide (g = f)
  then {| value := value (input g st); borderColor := "" |}
  else input g st.
Proof.
  unfold clearError.
  destruct (errorMessages st (parentElement f)); destruct f, g; reflexivity.
Qed.

Lemma input_showError f message st g :
  input g (showError f message st) =
  if bool_decide (g = f)
  then {| value := value (input g st); borderColor := errorRed |}
  else input g st.
Proof.
  unfold showError, createElement, clearError.
  destruct (errorMessages st (parentElement f)); destruct f, g; reflexivity.
Qed.

Lemma nextNode_clearError f st : nextNode (clearError f st) = nextNode st.
Proof.
  unfold clearError.
  destruct (errorMessages st (parentElement f)); destruct f; reflexivity.
Qed.

(** Showing or clearing an error touches neither the button, nor the
    timers, nor the banners. *)
Lemma clearError_frame f st :
  submitBtn (clearError f st) = submitBtn st
  /\ timers (clearError f st) = timers st
  /\ formMessages (clearError f st) = formMessages st.
Proof.
  unfold clearError.
  destruct (errorMessages st (parentElement f)); destruct f; cbn; auto.
Qed.

Lemma showError_frame f message st :
  submitBtn (showError f message st) = submitBtn st
  /\ timers (showError f message st) = timers st
  /\ formMessages (showError f message st) = formMessages st.
Proof.
  unfold showError, createElement, clearError.
  destruct (errorMessages st (parentElement f)); destruct f; cbn; auto.
Qed.

Definition validate (f : Field) (st : FormState) : bool * FormState :=
  match f with
  | NameField => validateName st
  | EmailField => validateEmail st
  | MessageField => validateMessage st
  end.

(** A validation either shows the field's error or clears it. *)
Lemma validate_cases f st :
  (fst (validate f st) = false
   /\ exists message, snd (validate f st) = showError f message st)
  \/ (fst (validate f st) = true /\ snd (validate f st) = clearError f st).
Proof.
  destruct f; cbn; unfold validateName, validateEmail, validateMessage.
  - destruct (length _ <? 2)%nat; cbn; eauto.
  - destruct (negb _); cbn; eauto.
  - destruct (length _ <? 10)%nat; cbn; eauto.
Qed.

Lemma validate_frame f st :
  submitBtn (snd (validate f st)) = submitBtn st
  /\ timers (snd (validate f st)) = timers st
  /\ formMessages (snd (validate f st)) = formMessages st.
Proof.
  destruct (validate_cases f st) as [[_ [m ->]]|[_ ->]];
    [apply showError_frame | apply clearError_frame].
Qed.

Lemma validate_value f st g :
  value (input g (snd (validate f st))) = value (input g st).
Proof.
  destruct (validate_cases f st) as [[_ [m ->]]|[_ ->]];
    rewrite ?input_showError, ?input_clearError;
    destruct (bool_decide (g = f)); reflexivity.
Qed.

Lemma submitHandler_unfold st :
  submitHandler st =
  let r1 := validateName st in
  let r2 := validateEmail (snd r1) in
  let r3 := validateMessage (snd r2) in
  if negb (fst r1) || negb (fst r2) || negb (fst r3)
  then Returned (snd r3)
  else
    match submitBtn (snd r3) with
    | None => Threw (snd r3)
    | Some btn =>
        Awaiting
          (setTimeout 1500 (SubmitDelayElapsed (btn_textContent btn))
             (setSubmitBtn (Some {| btn_textContent := "Sending...";
                                    disabled := true |}) (snd r3)))
    end.
Proof.
  unfold submitHandler.
  destruct (validateName st) as [b1 st1]; cbn.
  destruct (validateEmail st1) as [b2 st2]; cbn.
  destruct (validateMessage st2) as [b3 st3]; reflexivity.
Qed.

(** *** Email validation *)

(** C5: for every form state, validateEmail answers true exactly when the
    trimmed value of the email field contains no whitespace, contains
    exactly one "@", has a non-empty part before the "@", and has in the
    part after the "@" some "." with a non-empty segment on each side. *)
Theorem validateEmail_accepts_iff_emailSpec (st : FormState) :
  fst (validateEmail st) = true <-> emailSpec (trim (value (emailInput st))).
Proof.
  rewrite <- emailRegex_emailSpec, <- test_spec. unfold validateEmail.
  destruct (test emailRegex (trim (value (emailInput st)))); cbn.
  - split; reflexivity.
  - split; discriminate.
Qed.

(** *** One error message per field *)











(** *** Submission *)


(** All three fields pass their rule. *)
Definition allValid (st : FormState) : Prop :=
  (2 <= length (trim (value (nameInput st))))%nat
  /\ test emailRegex (trim (value (emailInput st))) = true
  /\ (10 <= length (trim (value (messageInput st))))%nat.

Lemma validate_true f st :
  match f with
  | NameField => (2 <= length (trim (value (nameInput st))))%nat
  | EmailField => test emailRegex (trim (value (emailInput st))) = true
  | MessageField => (10 <= length (trim (value (messageInput st))))%nat
  end ->
  validate f st = (true, clearError f st).
Proof.
  destruct f; cbn; unfold validateName, validateEmail, validateMessage; intros H.
  - destruct (Nat.ltb_spec (length (trim (value (nameInput st)))) 2);
      [lia | reflexivity].
  - now rewrite H.
  - destruct (Nat.ltb_spec (length (trim (value (messageInput st)))) 10);
      [lia | reflexivity].
Qed.

(** The rest of the handler, run in any state: the success banner is the
    last banner (the first earlier banner removed), the fields hold their
    markup values and the button has its old label back and is enabled. *)
Lemma submitResume_spec originalText st :
  let st' := submitResume originalText st in
  formMessages st'
  = tail (formMessages st) ++ [formMessageDiv (nextNode st) "success" successText]
  /\ (forall f, value (input f st') = defaultValue f)
  /\ submitBtn st'
     = match submitBtn st with
       | Some _ => Some {| btn_textContent := originalText; disabled := false |}
       | None => None
       end
  /\ timers st' = timers st ++ [(5000%N, RemoveMessage (nextNode st))].
Proof.
  cbn zeta. unfold submitResume, formReset, showFormMessage, createElement.
  destruct (formMessages st) as [|m ms] eqn:E; cbn; rewrite ?E;
    (split; [reflexivity|]; split; [intros f; destruct f; reflexivity|]);
    destruct (submitBtn st); cbn; auto.
Qed.

(** C4, amended: for every form state in which all three fields pass
    validation and the form has its submit button: the submit handler
    disables the button, sets its label to "Sending..." and is suspended on
    a 1500 ms timer; when that timer's task runs, in whatever state the
    form then is, a new element of class form-message with the text "Thank
    you for your message! We will get back to you soon." on the success
    background is appended as the last banner, every field holds the value
    the markup gives it (so all three are empty when the markup gives them
    no value), and the button has its earlier label and is enabled again.
    In particular this holds when the timer fires right after the
    submission. *)
Theorem submit_valid_form_succeeds (st : FormState) (btn : Button) :
  allValid st ->
  submitBtn st = Some btn ->
  let banner (n : nat) :=
    {| node := n;
       className := "form-message";
       style := [("padding", "1rem"); ("marginTop", "1rem");
                 ("borderRadius", "5px"); ("textAlign", "center");
                 ("fontWeight", "600"); ("background", "#4caf50");
                 ("color", "white")];
       textContent :=
         "Thank you for your message! We will get back to you soon." |} in
  exists st1,
    submitHandler st = Awaiting st1
    /\ submitBtn st1 = Some {| btn_textContent := "Sending..."; disabled := true |}
    /\ timers st1 = timers st ++ [(1500%N, SubmitDelayElapsed (btn_textContent btn))]
    /\ (forall later,
          let st2 := runTask (SubmitDelayElapsed (btn_textContent btn)) later in
          last (formMessages st2) = Some (banner (nextNode later))
          /\ (forall f, value (input f st2) = defaultValue f)
          /\ ((forall f, defaultValue f = []) ->
              forall f, value (input f st2) = [])
          /\ (is_Some (submitBtn later) ->
              submitBtn st2 = Some {| btn_textContent := btn_textContent btn;
                                      disabled := false |}))
    /\ (let st2 := run [Submit; TimerFires (length (timers st))] st in
        last (formMessages st2) = Some (banner (nextNode st))
        /\ (forall f, value (input f st2) = defaultValue f)
        /\ ((forall f, defaultValue f = []) ->
            forall f, value (input f st2) = [])
        /\ submitBtn st2 = Some {| btn_textContent := btn_textContent btn;
                                   disabled := false |}).
Proof.
  intros (Hn & He & Hm) Hbtn. cbn zeta.
  set (s1 := clearError NameField st).
  set (s2 := clearError EmailField s1).
  set (s3 := clearError MessageField s2).
  assert (H1 : validateName st = (true, s1))
    by exact (validate_true NameField st Hn).
  assert (H2 : validateEmail s1 = (true, s2)).
  { apply (validate_true EmailField s1).
    change (emailInput s1) with (input EmailField s1). unfold s1.
    now rewrite input_clearError. }
  assert (H3 : validateMessage s2 = (true, s3)).
  { apply (validate_true MessageField s2).
    change (messageInput s2) with (input MessageField s2). unfold s2, s1.
    now rewrite !input_clearError. }
  destruct (clearError_frame NameField st) as (Hb1 & Ht1 & _).
  destruct (clearError_frame EmailField s1) as (Hb2 & Ht2 & _).
  destruct (clearError_frame MessageField s2) as (Hb3 & Ht3 & _).
  fold s1 in Hb1, Ht1. fold s2 in Hb2, Ht2. fold s3 in Hb3, Ht3.
  assert (Hbtn3 : submitBtn s3 = Some btn) by congruence.
  assert (Htim3 : timers s3 = timers st) by congruence.
  assert (Hnext3 : nextNode s3 = nextNode st).
  { unfold s3, s2, s1. rewrite !nextNode_clearError. reflexivity. }
  clearbody s3. clear Hb1 Ht1 Hb2 Ht2 Hb3 Ht3. clearbody s2 s1.
  set (st1 := setTimeout 1500 (SubmitDelayElapsed (btn_textContent btn))
                (setSubmitBtn (Some {| btn_textContent := "Sending...";
                                       disabled := true |}) s3)).
  assert (Hsub : submitHandler st = Awaiting st1).
  { rewrite submitHandler_unfold. cbn zeta.
    rewrite H1; cbn [fst snd]. rewrite H2; cbn [fst snd].
    rewrite H3; cbn [fst snd negb orb]. now rewrite Hbtn3. }
  assert (Hlater : forall later,
            let st2 := runTask (SubmitDelayElapsed (btn_textContent btn)) later in
            last (formMessages st2)
            = Some (formMessageDiv (nextNode later) "success" successText)
            /\ (forall f, value (input f st2) = defaultValue f)
            /\ (is_Some (submitBtn later) ->
                submitBtn st2 = Some {| btn_textContent := btn_textContent btn;
                                        disabled := false |})).
  { intros later. cbn zeta. cbn [runTask].
    destruct (submitResume_spec (btn_textContent btn) later) as (Hf & Hv & Hb & _).
    split; [rewrite Hf; apply last_snoc|]. split; [exact Hv|].
    intros [b Hsome]. now rewrite Hb, Hsome. }
  exists st1. split; [exact Hsub|]. split; [reflexivity|].
  split; [cbn; now rewrite Htim3|]. split.
  { intros later. destruct (Hlater later) as (Hl & Hv & Hb).
    split; [exact Hl|]. split; [exact Hv|]. split; [|exact Hb].
    intros Hdef f. now rewrite Hv. }
  unfold run. cbn [fold_left step]. rewrite Hsub. cbn [stateOf].
  assert (Htimers : timers st1 = timers st ++ [(1500%N, SubmitDelayElapsed (btn_textContent btn))])
    by (cbn; now rewrite Htim3).
  rewrite Htimers, (list_lookup_middle _ [] _ (length (timers st))) by reflexivity.
  set (later := setTimers _ st1).
  destruct (Hlater later) as (Hl & Hv & Hb).
  assert (Hnl : nextNode later = nextNode st) by (cbn; exact Hnext3).
  rewrite Hnl in Hl. split; [exact Hl|]. split; [exact Hv|]. split.
  - intros Hdef f. now rewrite Hv.
  - apply Hb. eexists. reflexivity.
Qed.

End Markup.

(** *** A concrete page: every field in a wrapper of its own, empty in the
    markup, no message shown yet *)

Definition ownParent (f : Field) : nat :=
  match f with
  | NameField => 0%nat
  | EmailField => 1%nat
  | MessageField => 2%nat
  end.

Definition emptyDefault (f : Field) : list N := [].

Definition sendButton : Button :=
  {| btn_textContent := "Send Message"; disabled := false |}.

Definition freshForm (name email message : string) : FormState :=
  {| nameInput := {| value := ofString name; borderColor := "" |};
     emailInput := {| value := ofString email; borderColor := "" |};
     messageInput := {| value := ofString message; borderColor := "" |};
     errorMessages := fun _ => [];
     formMessages := [];
     submitBtn := Some sendButton;
     timers := [];
     nextNode := 0%nat |}.

(** Name "Ann", email "bad-email", a ten-character message: the handler
    returns and only the email field carries an error. *)
Example submit_bad_email_only_email_error :
  let st := freshForm "Ann" "bad-email" "1234567890" in
  exists st',
    submitHandler ownParent st = Returned st'
    /\ errorMessages st' (ownParent NameField) = []
    /\ errorMessages st' (ownParent EmailField) = [errorDivFor 0 emailMessage]
    /\ errorMessages st' (ownParent MessageField) = []
    /\ submitBtn st' = Some sendButton
    /\ timers st' = [].
Proof. cbn zeta. eexists. split; [reflexivity|]. cbn. auto 10. Qed.


(** *** A page whose three fields sit directly in one wrapper *)





(** *** A page whose name field has a value in the markup *)

Definition prefilledDefault (f : Field) : list N :=
  match f with
  | NameField => ofString "Your name"
  | EmailField | MessageField => []
  end.

Definition validForm : FormState :=
  freshForm "Ann" "ann@example.com" "1234567890".

(** The fields are cleared: each holds the empty string. *)
Definition fieldsCleared (st : FormState) : Prop :=
  forall f, value (input f st) = [].

(** C4, counterexample: the markup gives the name field the value "Your
    name".  The three typed values are valid, the handler is suspended and
    its timer fires; the success banner is shown and the form reset puts
    "Your name" back into the name field, so the fields are not all
    cleared. *)
Lemma submit_valid_form_restores_markup_value :
  allValid validForm
  /\ (exists st1, submitHandler ownParent validForm = Awaiting st1)
  /\ value (nameInput (run ownParent prefilledDefault [Submit; TimerFires 0] validForm))
     = ofString "Your name"
  /\ ~ fieldsCleared (run ownParent prefilledDefault [Submit; TimerFires 0] validForm).
Proof.
  split; [|split; [|split]].
  - split; [vm_compute; lia|]. split; [reflexivity | vm_compute; lia].
  - eexists. reflexivity.
  - reflexivity.
  - intros H. specialize (H NameField). vm_compute in H. discriminate H.
Qed.

Lemma submit_valid_form_succeeds_example :
  exists st1,
    submitHandler ownParent validForm = Awaiting st1
    /\ submitBtn st1 = Some {| btn_textContent := "Sending..."; disabled := true |}
    /\ timers st1 = [(1500%N, SubmitDelayElapsed "Send Message")]
    /\ (let st2 := run ownParent emptyDefault [Submit; TimerFires 0] validForm in
        formMessages st2
        = [{| node := 0%nat;
              className := "form-message";
              style := [("padding", "1rem"); ("marginTop", "1rem");
                        ("borderRadius", "5px"); ("textAlign", "center");
                        ("fontWeight", "600"); ("background", "#4caf50");
                        ("color", "white")];
              textContent :=
                "Thank you for your message! We will get back to you soon." |}]
        /\ (forall f, value (input f st2) = [])
        /\ submitBtn st2
           = Some {| btn_textContent := "Send Message"; disabled := false |}).
Proof.
  assert (Hvalid : allValid validForm).
  { split; [vm_compute; lia|]. split; [reflexivity | vm_compute; lia]. }
  destruct (submit_valid_form_succeeds ownParent emptyDefault
              validForm sendButton Hvalid eq_refl)
    as (st1 & Hsub & Hbtn & Htim & _ & Hrun).
  exists st1. split; [exact Hsub|]. split; [exact Hbtn|].
  split; [exact Htim|].
  destruct Hrun as (_ & _ & Hclr & Hb).
  split; [reflexivity|]. split; [apply Hclr; reflexivity | exact Hb].
Defined.


End Form.

(** ** Running the script at page load *)

Module Loader.

(** The two scripts: js/script.js and Mdule-1/js/script.js. *)
Inductive Variant := RootScript | ModuleScript.

(** The elements the scripts look up when they run. *)
Inductive Element :=
| CustomCursor
| HamburgerBtn
| NavMenuEl
| ScrollToTop
| LightboxRoot
| LightboxImg
| LightboxCaption
| LightboxClose
| ContactForm
| NameInput
| EmailInput
| MessageInput
| NavList
| ThemeToggle
| DownloadReport.

#[global] Instance Element_eq_dec : EqDecision Element.
Proof. solve_decision. Defined.

(** The page as the script finds it: which elements exist, whether the
    document is still loading, the viewport width and whether the primary
    pointer is coarse. *)
Record Page := mkPage {
  present : Element -> bool;
  readyStateLoading : bool;
  innerWidth : Z;
  coarsePointer : bool
}.

(** The listeners and observers the script installs. *)
Inductive Listener :=
| InitCursorOnLoad
| CursorMouseMoveDocument
| CursorMouseMoveWindow
| CursorMouseEnter
| CursorMouseLeave
| CursorHover
| CursorResizeRecheck
| NavScroll
| NavScrollOnLoad
| HamburgerClick
| HamburgerTouchStart
| NavMenuClick
| OutsideClick
| MenuResizeClose
| MenuResetOnLoad
| ScrollToTopVisibility
| ScrollToTopClick
| HighlightOnScroll
| SmoothScrollClicks
| RevealObserver
| GalleryClicks
| LightboxCloseClick
| LightboxBackdropClick
| EscapeKey
| NameBlur
| EmailBlur
| MessageBlur
| FormSubmit
| LazyImageObserver
| KeyboardNav
| DebouncedHighlight
| ThemeToggleClick
| DownloadWiringOnLoad
| InitOnLoad.

#[global] Instance Listener_eq_dec : EqDecision Listener.
Proof. solve_decision. Defined.

(** A run of top-level statements either reaches the end of the script or
    stops at an uncaught TypeError; the listeners installed so far stay. *)
Inductive Result :=
| Completed (installed : list Listener)
| Aborted (installed : list Listener).

Definition Stmt : Type := list Listener -> Result.

Definition skip : Stmt := fun ls => Completed ls.

Definition andThen (s1 s2 : Stmt) : Stmt :=
  fun ls =>
    match s1 ls with
    | Completed ls' => s2 ls'
    | Aborted ls' => Aborted ls'
    end.

Infix ">>>" := andThen (at level 62, right associativity).

(** [target.addEventListener(...)] or [observer.observe(...)] on a target
    that exists. *)
Definition listen (l : Listener) : Stmt := fun ls => Completed (ls ++ [l]).

(** A property access on the result of a lookup: a TypeError when the
    lookup returned null. *)
Definition deref (p : Page) (e : Element) : Stmt :=
  fun ls => if present p e then Completed ls else Aborted ls.

(** [if (cond) { ... }] *)
Definition when (cond : bool) (s : Stmt) : Stmt := if cond then s else skip.

Definition isModule (v : Variant) : bool :=
  match v with
  | ModuleScript => true
  | RootScript => false
  end.

(** [initCursor()], called at once or on DOMContentLoaded. *)
Definition initCursor (v : Variant) (p : Page) : Stmt :=
  let isMobile := (innerWidth p <=? 768) || coarsePointer p in
  if isModule v && isMobile then skip
  else if negb (present p CustomCursor) then skip
  else
    listen CursorMouseMoveDocument >>> listen CursorMouseMoveWindow >>>
    listen CursorMouseEnter >>> listen CursorMouseLeave >>> listen CursorHover.

(** The top-level statements of the script, in source order. *)
Definition script (v : Variant) (p : Page) : Stmt :=
  (if readyStateLoading p then listen InitCursorOnLoad else initCursor v p) >>>
  when (isModule v) (listen CursorResizeRecheck) >>>
  listen NavScroll >>>
  listen NavScrollOnLoad >>>
  when (isModule v)
    (when (present p HamburgerBtn) (listen HamburgerClick >>> listen HamburgerTouchStart) >>>
     when (present p NavMenuEl) (listen NavMenuClick) >>>
     listen OutsideClick >>>
     listen MenuResizeClose >>>
     listen MenuResetOnLoad) >>>
  listen ScrollToTopVisibility >>>
  deref p ScrollToTop >>> listen ScrollToTopClick >>>
  listen HighlightOnScroll >>>
  listen SmoothScrollClicks >>>
  listen RevealObserver >>>
  listen GalleryClicks >>>
  deref p LightboxClose >>> listen LightboxCloseClick >>>
  deref p LightboxRoot >>> listen LightboxBackdropClick >>>
  listen EscapeKey >>>
  deref p NameInput >>> listen NameBlur >>>
  deref p EmailInput >>> listen EmailBlur >>>
  deref p MessageInput >>> listen MessageBlur >>>
  deref p ContactForm >>> listen FormSubmit >>>
  listen LazyImageObserver >>>
  when (innerWidth p <=? 768) (deref p NavList) >>>
  listen KeyboardNav >>>
  listen DebouncedHighlight >>>
  when (present p ThemeToggle) (listen ThemeToggleClick) >>>
  when (isModule v) (listen DownloadWiringOnLoad) >>>
  listen InitOnLoad.

Definition load (v : Variant) (p : Page) : Result := script v p [].

Definition installed (r : Result) : list Listener :=
  match r with
  | Completed ls | Aborted ls => ls
  end.

(** A desktop page with every element, still loading when the script runs. *)
Definition fullPage : Page :=
  {| present := fun _ => true;
     readyStateLoading := true;
     innerWidth := 1280;
     coarsePointer := false |}.

(** The same page with one element missing. *)
Definition without (e : Element) (p : Page) : Page :=
  {| present := fun x => if bool_decide (x = e) then false else present p x;
     readyStateLoading := readyStateLoading p;
     innerWidth := innerWidth p;
     coarsePointer := coarsePointer p |}.

(** The listeners that belong to the feature owning an element. *)
Definition ownedBy (e : Element) (l : Listener) : bool :=
  match e, l with
  | CustomCursor, (CursorMouseMoveDocument | CursorMouseMoveWindow
                   | CursorMouseEnter | CursorMouseLeave | CursorHover) => true
  | HamburgerBtn, (HamburgerClick | HamburgerTouchStart) => true
  | NavMenuEl, NavMenuClick => true
  | ScrollToTop, (ScrollToTopVisibility | ScrollToTopClick) => true
  | (LightboxRoot | LightboxImg | LightboxCaption | LightboxClose),
    (GalleryClicks | LightboxCloseClick | LightboxBackdropClick | EscapeKey) => true
  | (ContactForm | NameInput | EmailInput | MessageInput),
    (NameBlur | EmailBlur | MessageBlur | FormSubmit) => true
  | ThemeToggle, ThemeToggleClick => true
  | DownloadReport, DownloadWiringOnLoad => true
  | _, _ => false
  end.

(** Only the feature owning [e] is lost: the script reaches its end and the
    listeners of every other feature are installed as on the full page. *)
Definition degradesAlone (v : Variant) (e : Element) : bool :=
  match load v (without e fullPage), load v fullPage with
  | Completed ls, Completed full =>
      bool_decide (List.filter (fun l => negb (ownedBy e l)) ls
                   = List.filter (fun l => negb (ownedBy e l)) full)
  | _, _ => false
  end.

(** The elements the specification names as expected. *)
Definition expectedElements : list Element :=
  [CustomCursor; ScrollToTop; LightboxRoot; LightboxImg; LightboxCaption;
   LightboxClose; ContactForm; NameInput; EmailInput; MessageInput;
   ThemeToggle; DownloadReport].

Example load_fullPage_root :
  load RootScript fullPage =
  Completed
    [InitCursorOnLoad; NavScroll; NavScrollOnLoad; ScrollToTopVisibility;
     ScrollToTopClick; HighlightOnScroll; SmoothScrollClicks; RevealObserver;
     GalleryClicks; LightboxCloseClick; LightboxBackdropClick; EscapeKey;
     NameBlur; EmailBlur; MessageBlur; FormSubmit; LazyImageObserver;
     KeyboardNav; DebouncedHighlight; ThemeToggleClick; InitOnLoad].
Proof. reflexivity. Qed.

(** On any page and in either script, a missing scroll-to-top control stops
    the script at [scrollToTopBtn.addEventListener]: nothing that the
    script installs after that statement is installed. *)
Lemma missing_scrollToTop_stops_load v p :
  present p ScrollToTop = false ->
  exists ls,
    load v p = Aborted ls
    /\ ~ In ScrollToTopClick ls /\ ~ In HighlightOnScroll ls
    /\ ~ In LightboxCloseClick ls /\ ~ In FormSubmit ls
    /\ ~ In LazyImageObserver ls /\ ~ In KeyboardNav ls
    /\ ~ In ThemeToggleClick ls /\ ~ In InitOnLoad ls.
Proof.
  intros H. destruct p as [pr rs iw cp]. cbn in H.
  unfold load, script, initCursor, deref, when, andThen, listen, skip; cbn.
  rewrite H.
  destruct v, rs, (iw <=? 768), cp, (pr CustomCursor), (pr HamburgerBtn),
    (pr NavMenuEl); cbn;
    (eexists; split; [reflexivity|]; cbn; intuition discriminate).
Qed.

(** The elements whose lookups the script guards: without one of them the
    script still reaches its end and every other feature is installed. *)
Lemma guarded_elements_degrade_alone v :
  forallb (degradesAlone v)
    [CustomCursor; HamburgerBtn; NavMenuEl; LightboxImg; LightboxCaption;
     ThemeToggle; DownloadReport] = true.
Proof. destruct v; vm_compute; reflexivity. Qed.

(** C2, evaluated: the page has every expected element except the
    scroll-to-top control.  Either script installs the cursor, nav and
    scroll-visibility listeners and then stops; highlighting, smooth
    scrolling, reveal, lightbox, form, lazy loading, keyboard navigation,
    theme toggle and the load-time initialisation are never installed.  Of
    the expected elements, only the cursor root, the lightbox image and
    caption, the theme toggle and the download trigger can be missing
    without the rest of the script being lost. *)
Theorem missing_scrollToTop_aborts_script :
  load RootScript (without ScrollToTop fullPage)
  = Aborted [InitCursorOnLoad; NavScroll; NavScrollOnLoad; ScrollToTopVisibility]
  /\ load ModuleScript (without ScrollToTop fullPage)
     = Aborted [InitCursorOnLoad; CursorResizeRecheck; NavScroll; NavScrollOnLoad;
                HamburgerClick; HamburgerTouchStart; NavMenuClick; OutsideClick;
                MenuResizeClose; MenuResetOnLoad; ScrollToTopVisibility]
  /\ In ThemeToggleClick (installed (load RootScript fullPage))
  /\ In FormSubmit (installed (load RootScript fullPage))
  /\ List.filter (degradesAlone RootScript) expectedElements
     = [CustomCursor; LightboxImg; LightboxCaption; ThemeToggle; DownloadReport]
  /\ List.filter (degradesAlone ModuleScript) expectedElements
     = [CustomCursor; LightboxImg; LightboxCaption; ThemeToggle; DownloadReport].
Proof.
  split; [reflexivity|]. split; [reflexivity|].
  split; [vm_compute; tauto|]. split; [vm_compute; tauto|].
  split; vm_compute; reflexivity.
Qed.

End Loader.

(** ** Contact form: further properties of validation and banners *)

Module FormProps.

Import JsString Regex Form.

(** The rule of each field, as its validator tests it. *)
Definition valid (f : Field) (st : FormState) : bool :=
  match f with
  | NameField => negb (length (trim (value (nameInput st))) <? 2)%nat
  | EmailField => test emailRegex (trim (value (emailInput st)))
  | MessageField => negb (length (trim (value (messageInput st))) <? 10)%nat
  end.

(** The message each validator shows. *)
Definition messageOf (f : Field) : string :=
  match f with
  | NameField => nameMessage
  | EmailField => emailMessage
  | MessageField => messageMessage
  end.

Definition atMostOneBanner (st : FormState) : Prop :=
  (length (formMessages st) <= 1)%nat.

(** Every banner on the page was created before the next node identity. *)
Definition bannersCreated (st : FormState) : Prop :=
  Forall (fun d => (node d < nextNode st)%nat) (formMessages st).

Definition isWhiteSpaceOnly (v : list N) : Prop :=
  Forall (fun c => isWhiteSpace c = true) v.

Lemma trimStart_whitespace_only v : isWhiteSpaceOnly v -> trimStart v = [].
Proof.
  induction 1 as [|c rest Hc _ IH]; cbn; [reflexivity|]. now rewrite Hc.
Qed.

Lemma trim_whitespace_only v : isWhiteSpaceOnly v -> trim v = [].
Proof.
  intros H. unfold trim. now rewrite (trimStart_whitespace_only v H).
Qed.

Section Markup.

Variable parentElement : Field -> nat.
Variable defaultValue : Field -> list N.

Lemma validate_valid f st :
  validate parentElement f st =
  if valid f st then (true, clearError parentElement f st)
  else (false, showError parentElement f (messageOf f) st).
Proof.
  destruct f; cbn [validate valid messageOf];
    unfold validateName, validateEmail, validateMessage; cbn zeta.
  - now destruct (length _ <? 2)%nat.
  - now destruct (test _ _).
  - now destruct (length _ <? 10)%nat.
Qed.

Lemma valid_after_validate g f st :
  valid g (snd (validate parentElement f st)) = valid g st.
Proof.
  pose proof (validate_value parentElement f st g) as Hv.
  destruct g; cbn in *; now rewrite Hv.
Qed.




(** The state in which the submit handler makes its decision. *)
Definition validated (st : FormState) : FormState :=
  snd (validate parentElement MessageField
         (snd (validate parentElement EmailField
                 (snd (validate parentElement NameField st))))).

Lemma submitHandler_validated st :
  submitHandler parentElement st =
  if valid NameField st && valid EmailField st && valid MessageField st
  then
    match submitBtn st with
    | None => Threw (validated st)
    | Some btn =>
        Awaiting
          (setTimeout 1500 (SubmitDelayElapsed (btn_textContent btn))
             (setSubmitBtn (Some {| btn_textContent := "Sending...";
                                    disabled := true |}) (validated st)))
    end
  else Returned (validated st).
Proof.
  rewrite submitHandler_unfold. cbn zeta. unfold validated.
  change (validateName parentElement st) with (validate parentElement NameField st).
  set (s1 := snd (validate parentElement NameField st)).
  change (validateEmail parentElement s1) with (validate parentElement EmailField s1).
  set (s2 := snd (validate parentElement EmailField s1)).
  change (validateMessage parentElement s2) with (validate parentElement MessageField s2).
  assert (H1 : fst (validate parentElement NameField st) = valid NameField st)
    by (rewrite validate_valid; now destruct (valid NameField st)).
  assert (H2 : fst (validate parentElement EmailField s1) = valid EmailField st).
  { rewrite validate_valid. unfold s1. rewrite valid_after_validate.
    now destruct (valid EmailField st). }
  assert (H3 : fst (validate parentElement MessageField s2) = valid MessageField st).
  { rewrite validate_valid. unfold s2, s1. rewrite !valid_after_validate.
    now destruct (valid MessageField st). }
  rewrite H1, H2, H3.
  assert (Hbtn : submitBtn (snd (validate parentElement MessageField s2)) = submitBtn st).
  { rewrite (proj1 (validate_frame parentElement MessageField s2)). unfold s2.
    rewrite (proj1 (validate_frame parentElement EmailField s1)). unfold s1.
    apply (proj1 (validate_frame parentElement NameField st)). }
  rewrite Hbtn.
  destruct (valid NameField st), (valid EmailField st), (valid MessageField st);
    reflexivity.
Qed.




(** X2: the submit handler returns early exactly when some field fails its
    rule; when all pass it throws if the form has no submit button, and
    otherwise it is suspended with the button disabled and labelled
    "Sending..." and one more timer, the 1500 ms delay, pending. *)
Theorem submit_outcome_by_validity (st : FormState) :
  match submitHandler parentElement st with
  | Returned _ => exists f, valid f st = false
  | Threw _ => (forall f, valid f st = true) /\ submitBtn st = None
  | Awaiting st' =>
      (forall f, valid f st = true)
      /\ exists btn,
           submitBtn st = Some btn
           /\ submitBtn st' = Some {| btn_textContent := "Sending...";
                                      disabled := true |}
           /\ timers st'
              = timers st ++ [(1500%N, SubmitDelayElapsed (btn_textContent btn))]
  end.
Proof.
  rewrite submitHandler_validated.
  destruct (valid NameField st) eqn:E1; cbn [andb];
    [|exists NameField; assumption].
  destruct (valid EmailField st) eqn:E2; cbn [andb];
    [|exists EmailField; assumption].
  destruct (valid MessageField st) eqn:E3; [|exists MessageField; assumption].
  assert (Hall : forall f, valid f st = true) by (intros []; assumption).
  destruct (submitBtn st) as [btn|] eqn:Eb; [|auto].
  split; [assumption|]. exists btn. split; [reflexivity|]. split; [reflexivity|].
  cbn. f_equal. unfold validated.
  rewrite (proj1 (proj2 (validate_frame parentElement MessageField _))).
  rewrite (proj1 (proj2 (validate_frame parentElement EmailField _))).
  apply (proj1 (proj2 (validate_frame parentElement NameField st))).
Qed.

(** *** Banners *)

Lemma formMessages_validate f st :
  formMessages (snd (validate parentElement f st)) = formMessages st.
Proof. apply (proj2 (proj2 (validate_frame parentElement f st))). Qed.

Lemma nextNode_validate f st :
  (nextNode st <= nextNode (snd (validate parentElement f st)))%nat.
Proof.
  rewrite validate_valid. destruct (valid f st); cbn [snd].
  - now rewrite nextNode_clearError.
  - assert (Hn : nextNode (showError parentElement f (messageOf f) st)
                 = S (nextNode st)).
    { unfold showError, createElement, clearError.
      destruct (errorMessages st (parentElement f)); destruct f; reflexivity. }
    rewrite Hn. lia.
Qed.

Lemma formMessages_validated st : formMessages (validated st) = formMessages st.
Proof. unfold validated. now rewrite !formMessages_validate. Qed.

Lemma nextNode_validated st : (nextNode st <= nextNode (validated st))%nat.
Proof.
  unfold validated.
  etransitivity; [|apply nextNode_validate].
  etransitivity; [|apply nextNode_validate]. apply nextNode_validate.
Qed.

Lemma banners_stateOf_submit st :
  formMessages (stateOf (submitHandler parentElement st)) = formMessages st
  /\ (nextNode st <= nextNode (stateOf (submitHandler parentElement st)))%nat.
Proof.
  rewrite submitHandler_validated.
  pose proof (formMessages_validated st) as Hf.
  pose proof (nextNode_validated st) as Hn.
  destruct (valid NameField st && valid EmailField st && valid MessageField st);
    [|cbn; auto].
  destruct (submitBtn st); cbn; auto.
Qed.

Lemma showFormMessage_banners type message st :
  formMessages (showFormMessage type message st)
  = tail (formMessages st) ++ [formMessageDiv (nextNode st) type message]
  /\ nextNode (showFormMessage type message st) = S (nextNode st)
  /\ timers (showFormMessage type message st)
     = timers st ++ [(5000%N, RemoveMessage (nextNode st))].
Proof.
  unfold showFormMessage, createElement.
  destruct (formMessages st) as [|m ms] eqn:E; cbn; rewrite ?E; auto.
Qed.

Lemma runTask_banners t st :
  (exists type message,
     formMessages (runTask defaultValue t st)
     = tail (formMessages st) ++ [formMessageDiv (nextNode st) type message]
     /\ nextNode (runTask defaultValue t st) = S (nextNode st))
  \/ (exists n,
       formMessages (runTask defaultValue t st)
       = List.filter (fun d => negb (Nat.eqb (node d) n)) (formMessages st)
       /\ nextNode (runTask defaultValue t st) = nextNode st).
Proof.
  destruct t as [originalText|n]; cbn [runTask].
  - left. exists "success", successText.
    destruct (showFormMessage_banners "success" successText st) as (Hf & Hn & _).
    unfold submitResume, formReset.
    destruct (submitBtn _); cbn; rewrite ?Hf, ?Hn; auto.
  - right. exists n. split; reflexivity.
Qed.

Lemma Forall_tail {A} (P : A -> Prop) l : Forall P l -> Forall P (tail l).
Proof. destruct 1; cbn; [constructor | assumption]. Qed.

Lemma bannersCreated_weaken (l : list Div) n n' :
  (n <= n')%nat ->
  Forall (fun d => (node d < n)%nat) l -> Forall (fun d => (node d < n')%nat) l.
Proof.
  intros Hle. apply List.Forall_impl. intros d Hd. lia.
Qed.

Lemma step_banners st ev :
  atMostOneBanner st /\ bannersCreated st ->
  atMostOneBanner (step parentElement defaultValue st ev)
  /\ bannersCreated (step parentElement defaultValue st ev).
Proof.
  unfold atMostOneBanner, bannersCreated. intros [H1 H2].
  destruct ev as [f v|f| |i]; cbn [step].
  - destruct f; cbn; auto.
  - assert (Hf := formMessages_validate f st).
    assert (Hn := nextNode_validate f st).
    destruct f; cbn [validate] in Hf, Hn; rewrite Hf;
      (split; [assumption | eapply bannersCreated_weaken; eassumption]).
  - destruct (banners_stateOf_submit st) as [Hf Hn]. rewrite Hf.
    split; [assumption | eapply bannersCreated_weaken; eassumption].
  - destruct (timers st !! i) as [[d t]|]; [|auto].
    set (s := setTimers (delete i (timers st)) st).
    assert (Hs1 : formMessages s = formMessages st) by reflexivity.
    assert (Hs2 : nextNode s = nextNode st) by reflexivity.
    destruct (runTask_banners t s) as [(ty & m & Hf & Hn)|(n & Hf & Hn)];
      rewrite Hf, Hn, Hs1, Hs2.
    + split.
      * rewrite length_app; cbn.
        destruct (formMessages st) as [|b [|b' bs]]; cbn in *; lia.
      * apply Forall_app. split.
        -- eapply bannersCreated_weaken; [|apply Forall_tail; eassumption]. lia.
        -- constructor; [cbn; lia | constructor].
    + split.
      * etransitivity; [apply List.filter_length_le | assumption].
      * apply List.Forall_forall. intros x Hx. apply filter_In in Hx as [Hx _].
        rewrite List.Forall_forall in H2. now apply H2.
Qed.

(** X3: from a page with at most one banner, whose banners carry node
    identities already handed out, every sequence of edits, blurs,
    submissions and timer firings keeps at most one banner on the page;
    and in such a state showFormMessage leaves exactly the new banner. *)
Theorem at_most_one_banner (st : FormState) (events : list Event) :
  atMostOneBanner st ->
  bannersCreated st ->
  let now := run parentElement defaultValue events st in
  atMostOneBanner now
  /\ bannersCreated now
  /\ forall type message,
       formMessages (showFormMessage type message now)
       = [formMessageDiv (nextNode now) type message].
Proof.
  intros H1 H2. cbn zeta.
  assert (H : atMostOneBanner (run parentElement defaultValue events st)
              /\ bannersCreated (run parentElement defaultValue events st)).
  { unfold run. revert st H1 H2.
    induction events as [|ev evs IH]; intros st H1 H2; cbn; [auto|].
    destruct (step_banners st ev (conj H1 H2)) as [H1' H2']. now apply IH. }
  destruct H as [Ha Hb]. split; [assumption|]. split; [assumption|].
  intros type message.
  rewrite (proj1 (showFormMessage_banners type message _)).
  unfold atMostOneBanner in Ha.
  destruct (formMessages (run parentElement defaultValue events st))
    as [|b [|b' bs]]; cbn in *; [reflexivity | reflexivity | lia].
Qed.

(** X5: showFormMessage leaves a 5000 ms timer pending for the banner it
    shows.  When that timer's task runs the banner is removed and the
    banners that were there stay; the task of any other banner's timer
    leaves the new banner on the page. *)
Theorem banner_removed_only_by_its_own_timer
    (st : FormState) (type message : string) :
  bannersCreated st ->
  let shown := showFormMessage type message st in
  let banner := formMessageDiv (nextNode st) type message in
  last (timers shown) = Some (5000%N, RemoveMessage (nextNode st))
  /\ formMessages (runTask defaultValue (RemoveMessage (nextNode st)) shown)
     = tail (formMessages st)
  /\ forall n, n <> nextNode st ->
       In banner (formMessages (runTask defaultValue (RemoveMessage n) shown)).
Proof.
  intros Hc. cbn zeta.
  destruct (showFormMessage_banners type message st) as (Hf & _ & Ht).
  split; [rewrite Ht; apply last_snoc|]. cbn [runTask]. cbn [formMessages setFormMessages].
  rewrite Hf. split.
  - rewrite List.filter_app. cbn. rewrite Nat.eqb_refl. cbn. rewrite app_nil_r.
    apply Forall_tail in Hc. revert Hc. generalize (tail (formMessages st)).
    induction 1 as [|d l Hd _ IH]; cbn; [reflexivity|].
    destruct (Nat.eqb_spec (node d) (nextNode st)) as [Heq|Hne]; [lia|].
    cbn. now rewrite IH.
  - intros n Hn. rewrite List.filter_app. apply in_or_app. right. cbn.
    destruct (Nat.eqb_spec (nextNode st) n) as [Heq|Hne];
      [congruence | now left].
Qed.

(** *** Validation *)

(** X4: a field whose value consists of whitespace only, of whatever
    length, fails its validation, and its message is the last one under
    its parent afterwards. *)
Theorem whitespace_only_value_is_rejected (f : Field) (st : FormState) :
  isWhiteSpaceOnly (value (input f st)) ->
  fst (validate parentElement f st) = false
  /\ (exists n, last (errorMessages (snd (validate parentElement f st))
                       (parentElement f))
               = Some (errorDivFor n (messageOf f)))
  /\ borderColor (input f (snd (validate parentElement f st))) = errorRed.
Proof.
  intros Hws. apply trim_whitespace_only in Hws.
  assert (Hv : valid f st = false).
  { destruct f; cbn in *; rewrite Hws; reflexivity. }
  rewrite validate_valid, Hv. cbn [fst snd].
  split; [reflexivity|]. split.
  - exists (nextNode st). rewrite errorMessages_showError, Nat.eqb_refl.
    apply last_snoc.
  - rewrite input_showError, bool_decide_eq_true_2 by reflexivity. reflexivity.
Qed.


End Markup.

Definition blankName : FormState := freshForm "   " "ann@example.com" "1234567890".

Lemma whitespace_only_name_is_rejected :
  fst (validate ownParent NameField blankName) = false.
Proof.
  refine (proj1 (whitespace_only_value_is_rejected ownParent NameField blankName _)).
  repeat constructor.
Defined.


Lemma at_most_one_banner_example :
  let st := freshForm "Ann" "ann@example.com" "1234567890" in
  atMostOneBanner
    (run ownParent emptyDefault [Submit; TimerFires 0; Submit; TimerFires 1] st).
Proof.
  refine (proj1 (at_most_one_banner ownParent emptyDefault
                   (freshForm "Ann" "ann@example.com" "1234567890")
                   [Submit; TimerFires 0; Submit; TimerFires 1] _ _)).
  - unfold atMostOneBanner. cbn. lia.
  - constructor.
Defined.

Lemma banner_removed_only_by_its_own_timer_example :
  let st := freshForm "Ann" "ann@example.com" "1234567890" in
  formMessages (runTask emptyDefault (RemoveMessage 0)
                  (showFormMessage "success" successText st)) = [].
Proof.
  refine (proj1 (proj2 (banner_removed_only_by_its_own_timer emptyDefault
            (freshForm "Ann" "ann@example.com" "1234567890")
            "success" successText _))).
  constructor.
Defined.

End FormProps.

(** ** Theme: further properties *)

Module ThemeProps.

Import Theme.

(** The icon text each file shows for a theme, as its [setTheme] line reads:
    the first literal of the conditional for "dark", the second for any
    other value. *)
Definition iconText (script : ScriptFile) (theme : string) : string :=
  match script, String.eqb theme "dark" with
  | JsScript, true => "â˜€ï¸"
  | JsScript, false => "ðŸŒ™"
  | Mdule1Script, true => "☀️"
  | Mdule1Script, false => "🌙"
  end.

Section Script.

Variable script : ScriptFile.

Local Abbreviation setTheme := (setTheme script).
Local Abbreviation toggleTheme := (toggleTheme script).
Local Abbreviation initTheme := (initTheme script).
Local Abbreviation runOp := (runOp script).
Local Abbreviation runOps := (runOps script).

Lemma getTheme_nonempty st : getTheme st <> "".
Proof.
  unfold getTheme. destruct (localStorage st !! "theme") as [t|]; [|discriminate].
  destruct (String.eqb t "") eqn:E; [discriminate|]. now apply String.eqb_neq.
Qed.

Lemma toggleTheme_target st :
  toggleTheme st
  = setTheme (if String.eqb (getTheme st) "dark" then "light" else "dark") st.
Proof. reflexivity. Qed.

Lemma persisted_after_toggle st : persistedLightOrDark (toggleTheme st).
Proof.
  rewrite toggleTheme_target. unfold persistedLightOrDark.
  rewrite stored_setTheme. destruct (String.eqb (getTheme st) "dark"); auto.
Qed.

(** X7: whatever the storage holds (nothing, "light", "dark" or any other
    string), one toggle makes the effective theme "light" if it was "dark"
    and "dark" otherwise, so the effective theme always changes and is
    afterwards one of the two known values. *)
Theorem toggleTheme_always_flips (st : ThemeState) :
  getTheme (toggleTheme st)
  = (if String.eqb (getTheme st) "dark" then "light" else "dark")
  /\ getTheme (toggleTheme st) <> getTheme st
  /\ (getTheme (toggleTheme st) = "light" \/ getTheme (toggleTheme st) = "dark").
Proof.
  assert (H : getTheme (toggleTheme st)
              = if String.eqb (getTheme st) "dark" then "light" else "dark").
  { rewrite toggleTheme_target. apply getTheme_setTheme.
    destruct (String.eqb (getTheme st) "dark"); discriminate. }
  split; [exact H|]. rewrite H.
  destruct (String.eqb (getTheme st) "dark") eqn:E.
  - apply String.eqb_eq in E. rewrite E. split; [discriminate | now left].
  - apply String.eqb_neq in E. split; [congruence | now right].
Qed.

(** X8: for every state, a third toggle undoes the second: once the theme
    has been toggled, two more toggles bring back the whole state (storage,
    attribute and icon). *)
Theorem toggleTheme_thrice (st : ThemeState) :
  toggleTheme (toggleTheme (toggleTheme st)) = toggleTheme st.
Proof.
  set (s := toggleTheme st).
  destruct (Theme.toggleTheme_twice script s (persisted_after_toggle st)) as [Hattr Hstore].
  assert (Hs : exists t, (t = "light" \/ t = "dark") /\ s = setTheme t st).
  { unfold s. rewrite toggleTheme_target.
    destruct (String.eqb (getTheme st) "dark"); eauto. }
  destruct Hs as (t & Ht & Hs).
  assert (Hget : getTheme s = t).
  { rewrite Hs. apply getTheme_setTheme. destruct Ht; subst; discriminate. }
  assert (Hicon : themeIcon (toggleTheme (toggleTheme s)) = themeIcon s).
  { rewrite (toggleTheme_target (toggleTheme s)), (toggleTheme_target s).
    rewrite getTheme_setTheme
      by (destruct (String.eqb (getTheme s) "dark"); discriminate).
    rewrite Hget, Hs. cbn.
    destruct (themeIcon st); [|reflexivity].
    destruct Ht; subst t; reflexivity. }
  rewrite Hget in Hattr, Hstore.
  assert (Hstore' : localStorage (toggleTheme (toggleTheme s)) = localStorage s).
  { rewrite Hstore. apply insert_id. rewrite Hs. apply stored_setTheme. }
  assert (Hattr' : data_theme (toggleTheme (toggleTheme s)) = data_theme s)
    by (rewrite Hattr, Hs; reflexivity).
  destruct (toggleTheme (toggleTheme s)) as [ls dt ic], s as [ls' dt' ic'].
  cbn in *. congruence.
Qed.

Lemma runOp_is_setTheme st op : exists theme, runOp st op = setTheme theme st.
Proof.
  destruct op as [|theme|]; cbn; eauto.
Qed.

(** X9: in either file, a sequence of theme operations (initialise, set,
    toggle) changes no storage entry other than "theme" and neither creates
    nor removes the icon; after at least one operation the icon, when the
    page has one, holds the file's first icon literal exactly when the
    attribute is "dark" and its second literal otherwise. In
    src/Mdule-1/js/script.js these are the sun and the moon emoji; in
    src/js/script.js they are the mis-encoded texts of eleven and nine
    bytes that its line 516 holds. *)
Theorem theme_operations_frame (st : ThemeState) (ops : list ThemeOp) :
  let st' := runOps ops st in
  (forall key, key <> "theme" -> localStorage st' !! key = localStorage st !! key)
  /\ (is_Some (themeIcon st') <-> is_Some (themeIcon st))
  /\ (ops <> [] ->
      exists theme,
        data_theme st' = Some theme
        /\ themeIcon st' = match themeIcon st with
                           | Some _ => Some (iconText script theme)
                           | None => None
                           end
        /\ (theme = "dark" -> script = JsScript ->
            option_map utf8Bytes (themeIcon st')
            = option_map
                (fun _ => [195; 162; 203; 156; 226; 130; 172; 195; 175; 194; 184]%nat)
                (themeIcon st))
        /\ (theme <> "dark" -> script = JsScript ->
            option_map utf8Bytes (themeIcon st')
            = option_map
                (fun _ => [195; 176; 197; 184; 197; 146; 226; 132; 162]%nat)
                (themeIcon st))
        /\ (theme = "dark" -> script = Mdule1Script ->
            option_map utf8Bytes (themeIcon st')
            = option_map (fun _ => [226; 152; 128; 239; 184; 143]%nat)
                (themeIcon st))
        /\ (theme <> "dark" -> script = Mdule1Script ->
            option_map utf8Bytes (themeIcon st')
            = option_map (fun _ => [240; 159; 140; 153]%nat) (themeIcon st))).
Proof.
  cbn zeta. unfold Theme.runOps. revert st.
  induction ops as [|op ops IH] using rev_ind; intros st.
  - cbn. split; [auto|]. split; [reflexivity|]. intros H. now destruct H.
  - rewrite fold_left_app. cbn [fold_left].
    destruct (IH st) as (Hkeys & Hicon & _).
    set (s := fold_left runOp ops st) in *.
    destruct (runOp_is_setTheme s op) as [theme ->].
    split; [|split].
    + intros key Hne. cbn. rewrite lookup_insert_ne by congruence. now apply Hkeys.
    + rewrite <- Hicon. cbn. destruct (themeIcon s); split; intros [x Hx];
        (discriminate Hx || eauto).
    + intros _. exists theme.
      assert (Hi : themeIcon (setTheme theme s)
                   = match themeIcon st with
                     | Some _ => Some (iconText script theme)
                     | None => None
                     end).
      { cbn. destruct (themeIcon s) eqn:Es, (themeIcon st) eqn:Est.
        - unfold iconText. destruct script, (String.eqb theme "dark"); reflexivity.
        - destruct Hicon as [Hi _]. destruct Hi as [x Hx]; [eauto | discriminate Hx].
        - destruct Hicon as [_ Hi]. destruct Hi as [x Hx]; [eauto | discriminate Hx].
        - reflexivity. }
      split; [reflexivity|]. split; [exact Hi|].
      rewrite Hi. clear Hi Hicon Hkeys IH. unfold iconText.
      repeat split; intros Ht Hs; subst script;
        destruct (themeIcon st); try reflexivity; cbn [option_map]; f_equal.
      * subst theme. reflexivity.
      * apply String.eqb_neq in Ht. rewrite Ht. reflexivity.
      * subst theme. reflexivity.
      * apply String.eqb_neq in Ht. rewrite Ht. reflexivity.
Qed.

(** X10: initialising the theme keeps the effective theme, makes the
    attribute and the stored entry equal to it, and is idempotent: a second
    initialisation changes nothing. *)
Theorem initTheme_idempotent (st : ThemeState) :
  getTheme (initTheme st) = getTheme st
  /\ data_theme (initTheme st) = Some (getTheme st)
  /\ localStorage (initTheme st) !! "theme" = Some (getTheme st)
  /\ initTheme (initTheme st) = initTheme st.
Proof.
  assert (Hg : getTheme (initTheme st) = getTheme st)
    by (apply getTheme_setTheme, getTheme_nonempty).
  split; [exact Hg|]. split; [reflexivity|]. split; [apply stored_setTheme|].
  unfold initTheme at 1. rewrite Hg. unfold initTheme, setTheme; cbn.
  rewrite insert_insert_eq. destruct (themeIcon st); reflexivity.
Qed.

End Script.

End ThemeProps.

(** ** Gallery lightbox (js/script.js)

    In js/script.js the lightbox listeners are the only code that reads or
    writes the overlay and the body overflow, and no other click or keydown
    listener of that file touches them; this module is that file's
    lightbox.  Mdule-1/js/script.js has the same listeners next to the
    hamburger menu, whose document click listener also runs on these clicks
    and writes the body overflow; the two together are modelled further
    down. *)

Module Lightbox.

(** A gallery thumbnail: its source and alternative text, and the text of
    the caption element of its gallery item, when the item has one. *)
Record GalleryImg := mkGalleryImg {
  g_src : string;
  g_alt : string;
  g_caption : option string
}.

(** The overlay, its image and caption, and the overflow style of the body
    (which the hamburger menu writes as well). *)
Record LightboxState := mkLightbox {
  display : string;
  imgSrc : string;
  imgAlt : string;
  captionText : string;
  bodyOverflow : string
}.

(** The click listener of a thumbnail.  Reading the text of a missing
    caption element throws after the image was already written. *)
Definition openLightbox (img : GalleryImg) (st : LightboxState) : LightboxState :=
  match g_caption img with
  | Some caption =>
      {| imgSrc := g_src img; imgAlt := g_alt img; captionText := caption;
         display := "flex"; bodyOverflow := "hidden" |}
  | None =>
      {| imgSrc := g_src img; imgAlt := g_alt img; captionText := captionText st;
         display := display st; bodyOverflow := bodyOverflow st |}
  end.

Definition closeLightbox (st : LightboxState) : LightboxState :=
  {| display := "none"; bodyOverflow := "";
     imgSrc := imgSrc st; imgAlt := imgAlt st; captionText := captionText st |}.

Inductive LightboxEvent :=
| ClickThumbnail (i : nat)
| ClickClose
| ClickInOverlay (targetIsOverlay : bool)
| KeyDown (key : string).

Definition lightboxStep (gallery : list GalleryImg) (st : LightboxState)
    (ev : LightboxEvent) : LightboxState :=
  match ev with
  | ClickThumbnail i =>
      match gallery !! i with
      | Some img => openLightbox img st
      | None => st
      end
  | ClickClose => closeLightbox st
  | ClickInOverlay targetIsOverlay =>
      if targetIsOverlay then closeLightbox st else st
  | KeyDown key =>
      if String.eqb key "Escape" && String.eqb (display st) "flex"
      then closeLightbox st
      else st
  end.

Definition lightboxRun (gallery : list GalleryImg) (events : list LightboxEvent)
    (st : LightboxState) : LightboxState :=
  fold_left (lightboxStep gallery) events st.

(** The overlay shows the thumbnail [img] and the page is locked. *)
Definition showing (img : GalleryImg) (st : LightboxState) : Prop :=
  display st = "flex" /\ bodyOverflow st = "hidden"
  /\ imgSrc st = g_src img /\ imgAlt st = g_alt img
  /\ g_caption img = Some (captionText st).

(** The overlay is not shown and the page scrolls. *)
Definition closed (st : LightboxState) : Prop :=
  display st <> "flex" /\ bodyOverflow st = "".

Definition allCaptioned (gallery : list GalleryImg) : Prop :=
  Forall (fun img => is_Some (g_caption img)) gallery.

Definition sampleGallery : list GalleryImg :=
  [mkGalleryImg "a.jpg" "Planting" (Some "Planting day");
   mkGalleryImg "b.jpg" "Watering" (Some "Watering")].

Definition initialOverlay : LightboxState :=
  {| display := ""; imgSrc := ""; imgAlt := ""; captionText := "";
     bodyOverflow := "" |}.

Lemma lightboxStep_invariant gallery st ev :
  allCaptioned gallery ->
  closed st \/ (exists img, In img gallery /\ showing img st) ->
  closed (lightboxStep gallery st ev)
  \/ (exists img, In img gallery /\ showing img (lightboxStep gallery st ev)).
Proof.
  intros Hcap Hinv.
  assert (Hclose : closed (closeLightbox st)) by (split; [discriminate | reflexivity]).
  destruct ev as [i| |targetIsOverlay|key]; cbn [lightboxStep].
  - destruct (gallery !! i) as [img|] eqn:Ei; [|assumption].
    assert (Hin : In img gallery).
    { apply list_elem_of_In. eapply list_elem_of_lookup_2; eauto. }
    right. exists img. split; [assumption|].
    unfold allCaptioned in Hcap. rewrite List.Forall_forall in Hcap.
    destruct (Hcap img Hin) as [c Hc]. unfold openLightbox, showing.
    rewrite Hc. cbn. auto.
  - now left.
  - destruct targetIsOverlay; [now left | assumption].
  - destruct (_ && _); [now left | assumption].
Qed.

(** X13: in js/script.js, in a gallery whose items all have a caption,
    starting with the
    overlay closed and the page scrolling, after any sequence of thumbnail
    clicks, close clicks, clicks inside the overlay and key presses, either
    the overlay is closed and the body overflow is empty, or the overlay is
    shown with the body overflow "hidden" and its image source, alternative
    text and caption are those of one thumbnail of the gallery. *)
Theorem lightbox_open_or_closed
    (gallery : list GalleryImg) (events : list LightboxEvent) (st : LightboxState) :
  allCaptioned gallery ->
  closed st ->
  let now := lightboxRun gallery events st in
  closed now \/ (exists img, In img gallery /\ showing img now).
Proof.
  intros Hcap Hclosed. cbn zeta. unfold lightboxRun.
  assert (Hinv : closed st \/ (exists img, In img gallery /\ showing img st))
    by now left.
  clear Hclosed. revert st Hinv.
  induction events as [|ev evs IH]; intros st Hinv; cbn; [assumption|].
  apply IH. now apply lightboxStep_invariant.
Qed.

(** X14: in js/script.js, a click on thumbnail [i] of a captioned item
    shows exactly that
    thumbnail, whatever was shown before; afterwards the close control, a
    click on the overlay itself and the Escape key each close the overlay
    and unlock the page, while any other key and a click on something
    inside the overlay change nothing.  Escape pressed while the overlay is
    not shown changes nothing either. *)
Theorem lightbox_open_then_close
    (gallery : list GalleryImg) (i : nat) (img : GalleryImg) (st : LightboxState) :
  gallery !! i = Some img ->
  is_Some (g_caption img) ->
  let opened := lightboxStep gallery st (ClickThumbnail i) in
  showing img opened
  /\ (forall ev, ev = ClickClose \/ ev = ClickInOverlay true \/ ev = KeyDown "Escape" ->
        let after := lightboxStep gallery opened ev in
        display after = "none" /\ bodyOverflow after = ""
        /\ imgSrc after = g_src img)
  /\ (forall key, key <> "Escape" -> lightboxStep gallery opened (KeyDown key) = opened)
  /\ lightboxStep gallery opened (ClickInOverlay false) = opened
  /\ (forall s, display s <> "flex" -> lightboxStep gallery s (KeyDown "Escape") = s).
Proof.
  intros Hi [c Hc]. cbn zeta. cbn [lightboxStep]. rewrite Hi.
  unfold openLightbox. rewrite Hc.
  split; [unfold showing; cbn; auto|]. split; [|split; [|split]].
  - intros ev [-> | [-> | ->]]; cbn; auto.
  - intros key Hne. cbn.
    destruct (String.eqb_spec key "Escape"); [contradiction | reflexivity].
  - reflexivity.
  - intros s Hs. cbn [String.eqb Ascii.eqb Bool.eqb andb].
    destruct (String.eqb_spec (display s) "flex"); [contradiction | reflexivity].
Qed.

(** X15: in js/script.js, a click on the thumbnail of an item without a
    caption element
    overwrites the overlay's image source and alternative text and then
    stops: the overlay's visibility, its caption and the body overflow stay
    as they were.  So from a closed overlay nothing is shown, and while the
    overlay shows a captioned thumbnail it goes on being shown, now with
    the new image under the old caption. *)
Theorem lightbox_uncaptioned_thumbnail
    (gallery : list GalleryImg) (i : nat) (img : GalleryImg) (st : LightboxState) :
  gallery !! i = Some img ->
  g_caption img = None ->
  let after := lightboxStep gallery st (ClickThumbnail i) in
  imgSrc after = g_src img /\ imgAlt after = g_alt img
  /\ display after = display st
  /\ captionText after = captionText st
  /\ bodyOverflow after = bodyOverflow st
  /\ (forall j shownImg caption,
        gallery !! j = Some shownImg -> g_caption shownImg = Some caption ->
        let mixed := lightboxRun gallery [ClickThumbnail j; ClickThumbnail i] st in
        display mixed = "flex" /\ imgSrc mixed = g_src img
        /\ captionText mixed = caption).
Proof.
  intros Hi Hc. cbn zeta. cbn [lightboxStep]. rewrite Hi.
  unfold openLightbox. rewrite Hc. cbn.
  repeat (split; [reflexivity|]).
  intros j shownImg caption Hj Hcap. unfold lightboxRun. cbn.
  rewrite Hj, Hi. unfold openLightbox. rewrite Hcap, Hc. cbn. auto.
Qed.

Lemma lightbox_open_or_closed_example :
  let now := lightboxRun sampleGallery
               [ClickThumbnail 1; KeyDown "Enter"; ClickInOverlay false;
                ClickThumbnail 0] initialOverlay in
  closed now \/ (exists img, In img sampleGallery /\ showing img now).
Proof.
  apply (lightbox_open_or_closed sampleGallery).
  - repeat constructor; eexists; reflexivity.
  - split; [discriminate | reflexivity].
Defined.

Lemma lightbox_open_then_close_example :
  lightboxStep sampleGallery
    (lightboxStep sampleGallery initialOverlay (ClickThumbnail 1))
    (KeyDown "Tab")
  = lightboxStep sampleGallery initialOverlay (ClickThumbnail 1).
Proof.
  refine (proj1 (proj2 (proj2 (lightbox_open_then_close sampleGallery 1
            (mkGalleryImg "b.jpg" "Watering" (Some "Watering")) initialOverlay
            eq_refl _))) "Tab" _).
  - eexists; reflexivity.
  - discriminate.
Defined.

Lemma lightbox_uncaptioned_thumbnail_example :
  display (lightboxStep [mkGalleryImg "c.jpg" "Bare" None] initialOverlay
             (ClickThumbnail 0)) = "".
Proof.
  exact (proj1 (proj2 (proj2 (lightbox_uncaptioned_thumbnail
           [mkGalleryImg "c.jpg" "Bare" None] 0 (mkGalleryImg "c.jpg" "Bare" None)
           initialOverlay eq_refl eq_refl)))).
Defined.

End Lightbox.

(** ** Hamburger menu and lightbox on one page: the listeners around
       toggleMobileMenu and the lightbox listeners, which share the body
       overflow (Mdule-1/js/script.js) *)

Module MenuProps.

Import Menu.

(** [navMenu.classList.remove('active')] and the two writes to the
    hamburger, each behind its null check. *)
Definition resetClasses (st : MenuState) : MenuState :=
  {| navMenu :=
       match navMenu st with
       | Some n => Some {| nav_classList := nav_classList n ∖ {["active"]} |}
       | None => None
       end;
     hamburger :=
       match hamburger st with
       | Some h => Some {| ham_classList := ham_classList h ∖ {["active"]};
                           aria_expanded := Some "false" |}
       | None => None
       end;
     bodyOverflow := bodyOverflow st |}.

(** The statements that run when the script is loaded. *)
Definition loadReset (st : MenuState) : MenuState := resetClasses st.

(** The DOMContentLoaded listener. *)
Definition onDomContentLoaded (st : MenuState) : MenuState :=
  let st1 := resetClasses st in
  {| navMenu := navMenu st1; hamburger := hamburger st1; bodyOverflow := "" |}.

(** The click listener on the document. *)
Definition documentClick (inNavMenu inHamburger closestHamburger : bool)
    (st : MenuState) : MenuState :=
  match navMenu st, hamburger st with
  | Some n, Some _ =>
      if bool_decide ("active" ∈ nav_classList n) then
        if negb inNavMenu && negb inHamburger && negb closestHamburger
        then toggleMobileMenu st
        else st
      else st
  | _, _ => st
  end.

(** The resize listener.  The hamburger is used without a null check: when
    it is missing the listener stops after the first statement. *)
Definition onResize (innerWidth : Z) (st : MenuState) : MenuState :=
  match navMenu st with
  | Some n =>
      if (768 <? innerWidth) && bool_decide ("active" ∈ nav_classList n) then
        let n' := {| nav_classList := nav_classList n ∖ {["active"]} |} in
        match hamburger st with
        | Some h =>
            {| navMenu := Some n';
               hamburger := Some {| ham_classList := ham_classList h ∖ {["active"]};
                                    aria_expanded := Some "false" |};
               bodyOverflow := "" |}
        | None =>
            {| navMenu := Some n'; hamburger := None;
               bodyOverflow := bodyOverflow st |}
        end
      else st
  | None => st
  end.

(** What the menu code and the lightbox code of src/Mdule-1/js/script.js
    read and write between them: the two menu elements, the overlay with
    its image and caption, and the one overflow style of the body, which
    both write. *)
Record PageState := mkPage {
  pageHamburger : option Hamburger;
  pageNavMenu : option NavMenu;
  lightboxDisplay : string;
  lightboxImgSrc : string;
  lightboxImgAlt : string;
  lightboxCaptionText : string;
  pageBodyOverflow : string
}.

(** The part of the page the menu code sees, and the part the lightbox
    code sees. *)
Definition menuOf (st : PageState) : MenuState :=
  {| hamburger := pageHamburger st;
     navMenu := pageNavMenu st;
     bodyOverflow := pageBodyOverflow st |}.

Definition lightboxOf (st : PageState) : Lightbox.LightboxState :=
  Lightbox.mkLightbox (lightboxDisplay st) (lightboxImgSrc st) (lightboxImgAlt st)
    (lightboxCaptionText st) (pageBodyOverflow st).

(** Running menu code, or lightbox code, on the page. *)
Definition onMenu (f : MenuState -> MenuState) (st : PageState) : PageState :=
  let m := f (menuOf st) in
  {| pageHamburger := hamburger m;
     pageNavMenu := navMenu m;
     lightboxDisplay := lightboxDisplay st;
     lightboxImgSrc := lightboxImgSrc st;
     lightboxImgAlt := lightboxImgAlt st;
     lightboxCaptionText := lightboxCaptionText st;
     pageBodyOverflow := bodyOverflow m |}.

Definition onLightbox (g : Lightbox.LightboxState -> Lightbox.LightboxState)
    (st : PageState) : PageState :=
  let b := g (lightboxOf st) in
  {| pageHamburger := pageHamburger st;
     pageNavMenu := pageNavMenu st;
     lightboxDisplay := Lightbox.display b;
     lightboxImgSrc := Lightbox.imgSrc b;
     lightboxImgAlt := Lightbox.imgAlt b;
     lightboxCaptionText := Lightbox.captionText b;
     pageBodyOverflow := Lightbox.bodyOverflow b |}.

(** Where a click lands.  The hamburger and the nav menu are taken not to
    contain one another, and the gallery thumbnails, the overlay and its
    close control to lie outside both and outside any element of class
    hamburger. *)
Inductive ClickTarget :=
| InHamburger
| InNavMenu (tagName : string)
| OnThumbnail (i : nat)
| OnLightboxClose
| OnOverlay
| InsideOverlay
| Elsewhere (insideHamburgerClass : bool).

Inductive MenuEvent :=
| Click (target : ClickTarget)
| TouchStartOnHamburger
| KeyDown (key : string)
| Resize (innerWidth : Z)
| DomContentLoaded.

Section Gallery.

Variable gallery : list Lightbox.GalleryImg.

(** The lightbox listeners are the same in both files. *)
Definition lightboxListeners (ev : Lightbox.LightboxEvent) (st : PageState) : PageState :=
  onLightbox (fun b => Lightbox.lightboxStep gallery b ev) st.

(** A click, seen by the listeners on its way up: the hamburger's listener
    stops the propagation; the listeners of the nav menu, of a thumbnail,
    of the close control and of the overlay let it reach the document, whose
    listener runs last. *)
Definition click (target : ClickTarget) (st : PageState) : PageState :=
  match target with
  | InHamburger =>
      match pageHamburger st with
      | Some _ => onMenu toggleMobileMenu st
      | None => st
      end
  | InNavMenu tagName =>
      let st1 :=
        match pageNavMenu st with
        | Some _ => if String.eqb tagName "A" then onMenu toggleMobileMenu st else st
        | None => st
        end in
      onMenu (documentClick true false false) st1
  | OnThumbnail i =>
      onMenu (documentClick false false false)
        (lightboxListeners (Lightbox.ClickThumbnail i) st)
  | OnLightboxClose =>
      onMenu (documentClick false false false)
        (lightboxListeners Lightbox.ClickClose st)
  | OnOverlay =>
      onMenu (documentClick false false false)
        (lightboxListeners (Lightbox.ClickInOverlay true) st)
  | InsideOverlay =>
      onMenu (documentClick false false false)
        (lightboxListeners (Lightbox.ClickInOverlay false) st)
  | Elsewhere closestHamburger =>
      onMenu (documentClick false false closestHamburger) st
  end.

(** A key press reaches the Escape listener of the lightbox; the click
    that Enter or Space fires on a focused control is an event of its
    own. *)
Definition menuStep (st : PageState) (ev : MenuEvent) : PageState :=
  match ev with
  | Click target => click target st
  | TouchStartOnHamburger =>
      match pageHamburger st with
      | Some _ => onMenu toggleMobileMenu st
      | None => st
      end
  | KeyDown key => lightboxListeners (Lightbox.KeyDown key) st
  | Resize innerWidth => onMenu (onResize innerWidth) st
  | DomContentLoaded => onMenu onDomContentLoaded st
  end.

Definition menuRun (events : list MenuEvent) (st : PageState) : PageState :=
  fold_left menuStep events st.

End Gallery.

(** The closed state in which all four values agree. *)
Definition closedState (st : MenuState) : Prop :=
  menuOpen st = false /\ hamburgerActive st = false
  /\ ariaExpanded st = Some "false" /\ bodyOverflow st = "".

(** Events that run no lightbox code that writes. *)
Definition leavesLightboxAlone (ev : MenuEvent) : bool :=
  match ev with
  | Click (OnThumbnail _) | Click OnLightboxClose | Click OnOverlay => false
  | KeyDown key => negb (String.eqb key "Escape")
  | _ => true
  end.

(** Events that cannot open a closed menu, the DOMContentLoaded listener
    apart. *)
Definition leavesMenuClosed (ev : MenuEvent) : bool :=
  match ev with
  | Click InHamburger | TouchStartOnHamburger | DomContentLoaded => false
  | Click (InNavMenu tagName) => negb (String.eqb tagName "A")
  | _ => true
  end.

Definition staleOpenPage : PageState :=
  {| pageHamburger := Some {| ham_classList := {["hamburger"]}; aria_expanded := None |};
     pageNavMenu := Some {| nav_classList := {["nav-menu"; "active"]} |};
     lightboxDisplay := "";
     lightboxImgSrc := "";
     lightboxImgAlt := "";
     lightboxCaptionText := "";
     pageBodyOverflow := "hidden" |}.

Definition closedPage : PageState :=
  {| pageHamburger := Some {| ham_classList := {["hamburger"]};
                              aria_expanded := Some "false" |};
     pageNavMenu := Some {| nav_classList := {["nav-menu"]} |};
     lightboxDisplay := "";
     lightboxImgSrc := "";
     lightboxImgAlt := "";
     lightboxCaptionText := "";
     pageBodyOverflow := "" |}.

Definition openMenuPage : PageState :=
  {| pageHamburger := Some {| ham_classList := {["hamburger"; "active"]};
                              aria_expanded := Some "true" |};
     pageNavMenu := Some {| nav_classList := {["nav-menu"; "active"]} |};
     lightboxDisplay := "";
     lightboxImgSrc := "";
     lightboxImgAlt := "";
     lightboxCaptionText := "";
     pageBodyOverflow := "hidden" |}.

(** *** The menu code on its own *)

Lemma toggle_observations st :
  bothExist st ->
  bothExist (toggleMobileMenu st)
  /\ observations (toggleMobileMenu st)
     = if menuOpen st then (false, false, Some "false", "")
       else (true, true, Some "true", "hidden").
Proof.
  intros [[h Hh] [n Hn]]. destruct st as [ho no ov]; cbn in *; subst.
  unfold toggleMobileMenu, observations, menuOpen, hamburgerActive, ariaExpanded,
    bothExist; cbn.
  destruct (bool_decide ("active" ∈ nav_classList n)) eqn:E; cbn.
  - rewrite !active_after_remove. split; [split; eexists; reflexivity | reflexivity].
  - rewrite !active_after_add. split; [split; eexists; reflexivity | reflexivity].
Qed.

Lemma consistent_observations st :
  consistent st <->
  observations st = (true, true, Some "true", "hidden")
  \/ observations st = (false, false, Some "false", "").
Proof.
  unfold consistent, observations. split.
  - intros [(-> & -> & -> & ->)|(-> & -> & -> & ->)]; auto.
  - intros [H|H]; inversion H; [left | right]; auto.
Qed.

Lemma toggle_consistent st :
  bothExist st -> bothExist (toggleMobileMenu st) /\ consistent (toggleMobileMenu st).
Proof.
  intros Hex. destruct (toggle_observations st Hex) as [Hex' Hobs].
  split; [assumption|]. apply consistent_observations. rewrite Hobs.
  destruct (menuOpen st); auto.
Qed.

Lemma menuOpen_toggle st :
  bothExist st -> menuOpen (toggleMobileMenu st) = negb (menuOpen st).
Proof.
  intros Hex. destruct (toggle_observations st Hex) as [_ Hobs].
  revert Hobs. unfold observations.
  destruct (menuOpen st); intros Hobs; cbn [negb]; congruence.
Qed.

Lemma documentClick_cases inNav inHam closest st :
  documentClick inNav inHam closest st =
  if menuOpen st && negb inNav && negb inHam && negb closest
     && bool_decide (is_Some (hamburger st))
  then toggleMobileMenu st else st.
Proof.
  unfold documentClick, menuOpen.
  destruct (navMenu st) as [n|]; [|reflexivity].
  destruct (hamburger st) as [h|].
  - rewrite (bool_decide_eq_true_2 (is_Some (Some h))) by eauto.
    rewrite andb_true_r.
    destruct (bool_decide ("active" ∈ nav_classList n)); [|reflexivity].
    cbn [andb]. reflexivity.
  - rewrite (bool_decide_eq_false_2 (is_Some None)) by (intros [x Hx]; discriminate).
    now rewrite andb_false_r.
Qed.

Lemma documentClick_closed inNav inHam closest st :
  menuOpen st = false -> documentClick inNav inHam closest st = st.
Proof. intros H. rewrite documentClick_cases, H. reflexivity. Qed.

Lemma closed_after_reset st :
  bothExist st -> bothExist (onDomContentLoaded st) /\ closedState (onDomContentLoaded st).
Proof.
  intros [[h Hh] [n Hn]]. destruct st as [ho no ov]; cbn in *; subst.
  unfold onDomContentLoaded, resetClasses, closedState, bothExist, menuOpen,
    hamburgerActive, ariaExpanded; cbn.
  rewrite !active_after_remove.
  split; [split; eexists; reflexivity | auto].
Qed.

Lemma onResize_cases innerWidth st :
  bothExist st ->
  (onResize innerWidth st = st /\ ((768 <? innerWidth) && menuOpen st = false))
  \/ (bothExist (onResize innerWidth st) /\ closedState (onResize innerWidth st)
      /\ (768 <? innerWidth) && menuOpen st = true).
Proof.
  intros [[h Hh] [n Hn]]. destruct st as [ho no ov]; cbn in *; subst.
  unfold onResize, menuOpen; cbn.
  destruct ((768 <? innerWidth) && bool_decide ("active" ∈ nav_classList n)) eqn:E;
    [right | left; auto].
  unfold closedState, bothExist, menuOpen, hamburgerActive, ariaExpanded; cbn.
  rewrite !active_after_remove.
  split; [split; eexists; reflexivity | auto].
Qed.

Lemma onResize_closed innerWidth st :
  menuOpen st = false -> onResize innerWidth st = st.
Proof.
  unfold onResize, menuOpen. destruct (navMenu st) as [n|]; [|reflexivity].
  intros ->. now rewrite andb_false_r.
Qed.

Lemma closedState_consistent st : closedState st -> consistent st.
Proof. intros H. right. exact H. Qed.

(** Each piece of menu code either changes nothing or leaves the four
    values agreeing. *)
Definition menuOp (f : MenuState -> MenuState) : Prop :=
  forall m, bothExist m -> f m = m \/ (bothExist (f m) /\ consistent (f m)).

Lemma menuOp_toggle : menuOp toggleMobileMenu.
Proof. intros m Hex. right. now apply toggle_consistent. Qed.

Lemma menuOp_documentClick inNav inHam closest :
  menuOp (documentClick inNav inHam closest).
Proof.
  intros m Hex. rewrite documentClick_cases.
  destruct (_ && _); [right; now apply toggle_consistent | now left].
Qed.

Lemma menuOp_onResize innerWidth : menuOp (onResize innerWidth).
Proof.
  intros m Hex.
  destruct (onResize_cases innerWidth m Hex) as [[-> _]|(H1 & H2 & _)];
    [now left | right; split; [assumption | now apply closedState_consistent]].
Qed.

Lemma menuOp_onDomContentLoaded : menuOp onDomContentLoaded.
Proof.
  intros m Hex. right. destruct (closed_after_reset m Hex) as [H1 H2].
  split; [assumption | now apply closedState_consistent].
Qed.

(** *** Menu code and lightbox code on the page *)

Lemma menuOf_onMenu f st : menuOf (onMenu f st) = f (menuOf st).
Proof. unfold onMenu, menuOf; cbn. now destruct (f _). Qed.

Lemma onMenu_same f st : f (menuOf st) = menuOf st -> onMenu f st = st.
Proof. intros H. unfold onMenu. rewrite H. now destruct st. Qed.

Lemma onLightbox_same g st : g (lightboxOf st) = lightboxOf st -> onLightbox g st = st.
Proof. intros H. unfold onLightbox. rewrite H. now destruct st. Qed.

Lemma lightboxOf_onLightbox g st : lightboxOf (onLightbox g st) = g (lightboxOf st).
Proof. unfold onLightbox, lightboxOf; cbn. now destruct (g _). Qed.

(** Each lightbox listener leaves the overlay's visibility and the body
    overflow alone, or shows the overlay and locks the page, or hides the
    overlay and unlocks the page. *)
Definition lightboxOp (g : Lightbox.LightboxState -> Lightbox.LightboxState) : Prop :=
  forall b,
    (Lightbox.display (g b) = Lightbox.display b
     /\ Lightbox.bodyOverflow (g b) = Lightbox.bodyOverflow b)
    \/ (Lightbox.display (g b) = "flex" /\ Lightbox.bodyOverflow (g b) = "hidden")
    \/ (Lightbox.display (g b) <> "flex" /\ Lightbox.bodyOverflow (g b) = "").

Lemma lightboxOp_step gallery ev :
  lightboxOp (fun b => Lightbox.lightboxStep gallery b ev).
Proof.
  intros b. destruct ev as [i| |targetIsOverlay|key]; cbn [Lightbox.lightboxStep].
  - destruct (gallery !! i) as [img|]; [|now left].
    unfold Lightbox.openLightbox. destruct (Lightbox.g_caption img); cbn; auto.
  - right; right. split; [discriminate | reflexivity].
  - destruct targetIsOverlay; [|now left].
    right; right. split; [discriminate | reflexivity].
  - destruct (_ && _); [|now left].
    right; right. split; [discriminate | reflexivity].
Qed.

(** What holds of the page once the menu has been through its load code. *)
Definition pageInvariant (st : PageState) : Prop :=
  bothExist (menuOf st)
  /\ hamburgerActive (menuOf st) = menuOpen (menuOf st)
  /\ ariaExpanded (menuOf st) = Some (if menuOpen (menuOf st) then "true" else "false")
  /\ (pageBodyOverflow st = "" \/ pageBodyOverflow st = "hidden")
  /\ (pageBodyOverflow st = "hidden" ->
      menuOpen (menuOf st) = true \/ lightboxDisplay st = "flex").

Lemma consistent_invariant st :
  bothExist (menuOf st) -> consistent (menuOf st) -> pageInvariant st.
Proof.
  intros Hex Hc. split; [assumption|].
  destruct Hc as [(Ho & Hh & Ha & Hov)|(Ho & Hh & Ha & Hov)];
    rewrite Ho, Hh, Ha; cbn [bodyOverflow menuOf] in Hov; rewrite Hov; auto.
  repeat split; auto. discriminate.
Qed.

Lemma onMenu_invariant f st :
  menuOp f -> pageInvariant st -> pageInvariant (onMenu f st).
Proof.
  intros Hf Hinv. pose proof Hinv as (Hex & _).
  destruct (Hf (menuOf st) Hex) as [Heq|[Hex' Hc]].
  - now rewrite (onMenu_same f st Heq).
  - apply consistent_invariant; now rewrite menuOf_onMenu.
Qed.

Lemma onMenu_consistent f st :
  menuOp f -> bothExist (menuOf st) -> consistent (menuOf st) ->
  bothExist (menuOf (onMenu f st)) /\ consistent (menuOf (onMenu f st)).
Proof.
  intros Hf Hex Hc. rewrite menuOf_onMenu.
  destruct (Hf (menuOf st) Hex) as [->|H]; auto.
Qed.

Lemma onLightbox_invariant g st :
  lightboxOp g -> pageInvariant st -> pageInvariant (onLightbox g st).
Proof.
  intros Hg (Hex & Hh & Ha & Hov & Hlock).
  unfold pageInvariant, onLightbox, menuOf in *; cbn in *.
  change (Lightbox.mkLightbox (lightboxDisplay st) (lightboxImgSrc st)
            (lightboxImgAlt st) (lightboxCaptionText st) (pageBodyOverflow st))
    with (lightboxOf st).
  unfold bothExist, menuOpen, hamburgerActive, ariaExpanded in *; cbn in *.
  split; [assumption|]. split; [assumption|]. split; [assumption|].
  destruct (Hg (lightboxOf st)) as [[Hd Ho]|[[Hd Ho]|[Hd Ho]]]; rewrite Ho.
  - cbn. rewrite Hd. cbn. auto.
  - auto.
  - split; [now left | discriminate].
Qed.

Lemma click_invariant gallery target st :
  pageInvariant st -> pageInvariant (click gallery target st).
Proof.
  intros Hinv. pose proof Hinv as ([[h Hh] [n Hn]] & _). cbn in Hh, Hn.
  destruct target as [|tagName|i| | | |closest]; cbn [click];
    rewrite ?Hh, ?Hn;
    repeat first
      [ apply onMenu_invariant;
        [first [apply menuOp_toggle | apply menuOp_documentClick]|]
      | apply onLightbox_invariant; [apply lightboxOp_step|]
      | assumption ].
  destruct (String.eqb tagName "A");
    [apply onMenu_invariant; [apply menuOp_toggle | assumption] | assumption].
Qed.

Lemma menuStep_invariant gallery st ev :
  pageInvariant st -> pageInvariant (menuStep gallery st ev).
Proof.
  intros Hinv. pose proof Hinv as ([[h Hh] [n Hn]] & _). cbn in Hh, Hn.
  destruct ev as [target| |key|innerWidth|]; cbn [menuStep].
  - now apply click_invariant.
  - rewrite Hh. apply onMenu_invariant; [apply menuOp_toggle | assumption].
  - apply onLightbox_invariant; [apply lightboxOp_step | assumption].
  - apply onMenu_invariant; [apply menuOp_onResize | assumption].
  - apply onMenu_invariant; [apply menuOp_onDomContentLoaded | assumption].
Qed.

Lemma menuStep_consistent gallery st ev :
  leavesLightboxAlone ev = true ->
  bothExist (menuOf st) -> consistent (menuOf st) ->
  bothExist (menuOf (menuStep gallery st ev))
  /\ consistent (menuOf (menuStep gallery st ev)).
Proof.
  intros Hev Hex Hc. pose proof Hex as [[h Hh] [n Hn]]. cbn in Hh, Hn.
  destruct ev as [[|tagName|i| | | |closest]| |key|innerWidth|];
    cbn [menuStep click]; try discriminate Hev; rewrite ?Hh, ?Hn.
  - apply onMenu_consistent; [apply menuOp_toggle | assumption..].
  - assert (H1 : bothExist (menuOf (if String.eqb tagName "A"
                                    then onMenu toggleMobileMenu st else st))
                 /\ consistent (menuOf (if String.eqb tagName "A"
                                        then onMenu toggleMobileMenu st else st))).
    { destruct (String.eqb tagName "A"); [|auto].
      apply onMenu_consistent; [apply menuOp_toggle | assumption..]. }
    destruct H1 as [H1 H2].
    apply onMenu_consistent; [apply menuOp_documentClick | assumption..].
  - unfold lightboxListeners. rewrite onLightbox_same by reflexivity.
    apply onMenu_consistent; [apply menuOp_documentClick | assumption..].
  - apply onMenu_consistent; [apply menuOp_documentClick | assumption..].
  - apply onMenu_consistent; [apply menuOp_toggle | assumption..].
  - unfold lightboxListeners. rewrite onLightbox_same; [auto|].
    cbn [Lightbox.lightboxStep]. cbn [leavesLightboxAlone] in Hev.
    apply negb_true_iff in Hev. now rewrite Hev.
  - apply onMenu_consistent; [apply menuOp_onResize | assumption..].
  - apply onMenu_consistent; [apply menuOp_onDomContentLoaded | assumption..].
Qed.

Section GalleryProps.

Variable gallery : list Lightbox.GalleryImg.

(** X11: on a page of src/Mdule-1/js/script.js that has both menu
    elements, whatever classes, attribute and overflow the markup left
    behind, the DOMContentLoaded listener leaves the menu closed with all
    four values agreeing.  After every later sequence of clicks anywhere
    (hamburger, nav menu, gallery thumbnails, lightbox overlay and close
    control, or elsewhere), touches on the hamburger, key presses, resizes
    and repeated DOMContentLoaded runs, the nav menu's open class, the
    hamburger's active class and aria-expanded still agree; the body
    overflow is "" or "hidden", and it is "hidden" only while the menu is
    open or the overlay is shown.  When none of the events is a click on a
    thumbnail, on the overlay or on its close control, or an Escape key
    press, the body overflow agrees with the other three values as well. *)
Theorem menu_values_agree_after_load (st : PageState) (events : list MenuEvent) :
  bothExist (menuOf st) ->
  let loaded := onMenu onDomContentLoaded (onMenu loadReset st) in
  let later := menuRun gallery events loaded in
  closedState (menuOf loaded)
  /\ bothExist (menuOf later)
  /\ hamburgerActive (menuOf later) = menuOpen (menuOf later)
  /\ ariaExpanded (menuOf later)
     = Some (if menuOpen (menuOf later) then "true" else "false")
  /\ (pageBodyOverflow later = "" \/ pageBodyOverflow later = "hidden")
  /\ (pageBodyOverflow later = "hidden" ->
      menuOpen (menuOf later) = true \/ lightboxDisplay later = "flex")
  /\ (forallb leavesLightboxAlone events = true -> consistent (menuOf later)).
Proof.
  intros Hex. cbn zeta.
  assert (Hex1 : bothExist (menuOf (onMenu loadReset st))).
  { rewrite menuOf_onMenu. destruct Hex as [[h Hh] [n Hn]].
    unfold loadReset, resetClasses, bothExist.
    cbn in *. rewrite Hh, Hn. split; eexists; reflexivity. }
  destruct (closed_after_reset _ Hex1) as [Hex2 Hclosed].
  rewrite <- menuOf_onMenu in Hex2, Hclosed.
  split; [assumption|].
  apply closedState_consistent in Hclosed.
  set (loaded := onMenu onDomContentLoaded (onMenu loadReset st)) in *.
  clearbody loaded.
  assert (Hinv : pageInvariant (menuRun gallery events loaded)).
  { pose proof (consistent_invariant loaded Hex2 Hclosed) as Hinv.
    unfold menuRun. revert Hinv. generalize loaded.
    induction events as [|ev evs IH]; intros s Hs; cbn [fold_left]; [assumption|].
    apply IH. now apply menuStep_invariant. }
  destruct Hinv as (H1 & H2 & H3 & H4 & H5).
  do 5 (split; [assumption|]).
  clear H1 H2 H3 H4 H5. unfold menuRun. revert loaded Hex2 Hclosed.
  induction events as [|ev evs IH]; intros s Hs Hc Hall; cbn [fold_left];
    [assumption|].
  cbn [forallb] in Hall. apply andb_true_iff in Hall as [Hev Hall].
  destruct (menuStep_consistent gallery s ev Hev Hs Hc) as [Hs' Hc'].
  now apply IH.
Qed.

(** X12: on a page with both elements, in any state: a click on the
    hamburger, or on a link inside the nav menu, toggles the menu exactly
    once (the document listener does not toggle it back), so a link click
    on a closed menu opens it; a click inside the nav menu on anything but
    a link changes nothing; a click elsewhere, outside any element of class
    hamburger, leaves the menu closed; a click elsewhere inside an element
    of class hamburger changes nothing; and a resize to more than 768
    pixels leaves the menu closed. *)
Theorem menu_click_effects (st : PageState) :
  bothExist (menuOf st) ->
  menuOpen (menuOf (click gallery InHamburger st)) = negb (menuOpen (menuOf st))
  /\ menuOpen (menuOf (click gallery (InNavMenu "A") st)) = negb (menuOpen (menuOf st))
  /\ (forall tagName, tagName <> "A" -> click gallery (InNavMenu tagName) st = st)
  /\ menuOpen (menuOf (click gallery (Elsewhere false) st)) = false
  /\ click gallery (Elsewhere true) st = st
  /\ (forall innerWidth, 768 < innerWidth ->
        menuOpen (onResize innerWidth (menuOf st)) = false
        /\ menuOpen (menuOf (menuStep gallery st (Resize innerWidth))) = false).
Proof.
  intros Hex. pose proof Hex as [[h Hh] [n Hn]]. cbn in Hh, Hn.
  split; [|split; [|split; [|split; [|split]]]].
  - cbn [click]. rewrite Hh, menuOf_onMenu. now apply menuOpen_toggle.
  - cbn [click]. rewrite Hn. cbn [String.eqb Ascii.eqb Bool.eqb].
    rewrite onMenu_same.
    + rewrite menuOf_onMenu. now apply menuOpen_toggle.
    + rewrite documentClick_cases. cbn [negb andb].
      now rewrite andb_false_r.
  - intros tagName Hne. cbn [click]. rewrite Hn.
    destruct (String.eqb_spec tagName "A"); [contradiction|].
    apply onMenu_same. rewrite documentClick_cases. cbn [negb andb].
    now rewrite andb_false_r.
  - cbn [click]. rewrite menuOf_onMenu, documentClick_cases. cbn [negb].
    rewrite !andb_true_r.
    replace (hamburger (menuOf st)) with (Some h) by (symmetry; exact Hh).
    rewrite (bool_decide_eq_true_2 (is_Some (Some h))) by eauto.
    rewrite andb_true_r.
    destruct (menuOpen (menuOf st)) eqn:E; [|assumption].
    rewrite menuOpen_toggle by assumption. now rewrite E.
  - cbn [click]. apply onMenu_same. rewrite documentClick_cases. cbn [negb].
    now rewrite andb_false_r.
  - intros innerWidth Hw.
    assert (H0 : menuOpen (onResize innerWidth (menuOf st)) = false).
    { destruct (onResize_cases innerWidth (menuOf st) Hex)
        as [[-> H]|(_ & (H & _) & _)]; [|assumption].
      apply Z.ltb_lt in Hw. rewrite Hw in H. exact H. }
    split; [exact H0|]. cbn [menuStep]. now rewrite menuOf_onMenu.
Qed.

(** X29: in src/Mdule-1/js/script.js a click on a gallery thumbnail, on the
    overlay or on its close control also reaches the document's click
    listener of the menu.  With both menu elements present and the menu
    open, a thumbnail click therefore closes the menu and leaves the body
    overflow empty, although the thumbnail's own listener has just set it
    to "hidden": for a captioned thumbnail the overlay is shown over a page
    that still scrolls, and for an uncaptioned one the overlay's
    visibility is unchanged.  A click on the overlay or on its close
    control hides the overlay and closes the open menu as well. *)
Theorem lightbox_click_closes_open_menu
    (st : PageState) (i : nat) (img : Lightbox.GalleryImg) :
  bothExist (menuOf st) ->
  menuOpen (menuOf st) = true ->
  gallery !! i = Some img ->
  let after := click gallery (OnThumbnail i) st in
  menuOpen (menuOf after) = false
  /\ hamburgerActive (menuOf after) = false
  /\ ariaExpanded (menuOf after) = Some "false"
  /\ pageBodyOverflow after = ""
  /\ lightboxImgSrc after = Lightbox.g_src img
  /\ lightboxImgAlt after = Lightbox.g_alt img
  /\ (forall caption, Lightbox.g_caption img = Some caption ->
        lightboxDisplay after = "flex" /\ lightboxCaptionText after = caption)
  /\ (Lightbox.g_caption img = None ->
        lightboxDisplay after = lightboxDisplay st
        /\ lightboxCaptionText after = lightboxCaptionText st)
  /\ (forall target, target = OnLightboxClose \/ target = OnOverlay ->
        let hidden := click gallery target st in
        menuOpen (menuOf hidden) = false
        /\ lightboxDisplay hidden = "none"
        /\ pageBodyOverflow hidden = "").
Proof.
  intros Hex Hopen Hi. cbn zeta.
  assert (Hdoc : forall s,
            bothExist (menuOf s) -> menuOpen (menuOf s) = true ->
            let s' := onMenu (documentClick false false false) s in
            observations (menuOf s') = (false, false, Some "false", "")
            /\ lightboxDisplay s' = lightboxDisplay s
            /\ lightboxImgSrc s' = lightboxImgSrc s
            /\ lightboxImgAlt s' = lightboxImgAlt s
            /\ lightboxCaptionText s' = lightboxCaptionText s).
  { intros s Hs Ho. cbn zeta. split; [|cbn; auto].
    rewrite menuOf_onMenu, documentClick_cases, Ho. cbn [negb andb].
    destruct Hs as [[h Hh] Hn]. rewrite Hh.
    rewrite (bool_decide_eq_true_2 (is_Some (Some h))) by eauto.
    destruct (toggle_observations (menuOf s)) as [_ Hobs];
      [split; [eexists; exact Hh | exact Hn]|].
    now rewrite Ho in Hobs. }
  assert (Hkeep : forall g,
            bothExist (menuOf (onLightbox g st))
            /\ menuOpen (menuOf (onLightbox g st)) = true).
  { intros g. split; [exact Hex | exact Hopen]. }
  assert (Hobs : forall s, observations (menuOf s) = (false, false, Some "false", "") ->
            menuOpen (menuOf s) = false /\ hamburgerActive (menuOf s) = false
            /\ ariaExpanded (menuOf s) = Some "false" /\ pageBodyOverflow s = "").
  { intros s H. unfold observations in H.
    change (bodyOverflow (menuOf s)) with (pageBodyOverflow s) in H.
    repeat split; congruence. }
  split; [|split; [|split; [|split; [|split; [|split; [|split; [|split]]]]]]].
  1-8: cbn [click]; unfold lightboxListeners;
    destruct (Hkeep (fun b => Lightbox.lightboxStep gallery b (Lightbox.ClickThumbnail i)))
      as [He Ho];
    destruct (Hdoc _ He Ho) as (H0 & Hd & Hsrc & Halt & Hcap);
    destruct (Hobs _ H0) as (H1 & H2 & H3 & H4).
  - exact H1.
  - exact H2.
  - exact H3.
  - exact H4.
  - rewrite Hsrc. cbn. rewrite Hi. unfold Lightbox.openLightbox.
    now destruct (Lightbox.g_caption img).
  - rewrite Halt. cbn. rewrite Hi. unfold Lightbox.openLightbox.
    now destruct (Lightbox.g_caption img).
  - intros caption Hc. rewrite Hd, Hcap. cbn. rewrite Hi.
    unfold Lightbox.openLightbox. rewrite Hc. cbn. auto.
  - intros Hc. rewrite Hd, Hcap. cbn. rewrite Hi.
    unfold Lightbox.openLightbox. rewrite Hc. cbn. auto.
  - intros target [-> | ->]; cbn zeta; cbn [click]; unfold lightboxListeners.
    + destruct (Hkeep (fun b => Lightbox.lightboxStep gallery b Lightbox.ClickClose))
        as [He Ho].
      destruct (Hdoc _ He Ho) as (H0 & Hd & _).
      destruct (Hobs _ H0) as (H1 & _ & _ & H4).
      split; [exact H1|]. split; [rewrite Hd; reflexivity | exact H4].
    + destruct (Hkeep (fun b => Lightbox.lightboxStep gallery b
                                  (Lightbox.ClickInOverlay true)))
        as [He Ho].
      destruct (Hdoc _ He Ho) as (H0 & Hd & _).
      destruct (Hobs _ H0) as (H1 & _ & _ & H4).
      split; [exact H1|]. split; [rewrite Hd; reflexivity | exact H4].
Qed.

Lemma menuStep_closed_menu st ev :
  menuOpen (menuOf st) = false ->
  leavesMenuClosed ev = true ->
  exists lev,
    menuStep gallery st ev = lightboxListeners gallery lev st.
Proof.
  intros Hclosed Hev.
  assert (Hdoc : forall a b c s, menuOpen (menuOf s) = false ->
            onMenu (documentClick a b c) s = s).
  { intros a b c s Hs. apply onMenu_same. now apply documentClick_closed. }
  assert (Hsame : forall g, menuOpen (menuOf (onLightbox g st)) = false)
    by (intros g; exact Hclosed).
  assert (Hid : st = lightboxListeners gallery (Lightbox.ClickInOverlay false) st).
  { unfold lightboxListeners. now rewrite onLightbox_same. }
  destruct ev as [[|tagName|i| | | |closest]| |key|innerWidth|];
    cbn [menuStep click]; try discriminate Hev.
  - exists (Lightbox.ClickInOverlay false).
    cbn [leavesMenuClosed] in Hev. apply negb_true_iff in Hev. rewrite Hev.
    replace (match pageNavMenu st with Some _ => st | None => st end) with st
      by now destruct (pageNavMenu st).
    rewrite Hdoc by assumption. exact Hid.
  - eexists. unfold lightboxListeners. rewrite Hdoc by apply Hsame. reflexivity.
  - eexists. unfold lightboxListeners. rewrite Hdoc by apply Hsame. reflexivity.
  - eexists. unfold lightboxListeners. rewrite Hdoc by apply Hsame. reflexivity.
  - eexists. unfold lightboxListeners. rewrite Hdoc by apply Hsame. reflexivity.
  - exists (Lightbox.ClickInOverlay false). rewrite Hdoc by assumption. exact Hid.
  - eexists. reflexivity.
  - exists (Lightbox.ClickInOverlay false).
    rewrite onMenu_same by now apply onResize_closed. exact Hid.
Qed.

(** X30: in src/Mdule-1/js/script.js, while the menu is closed the lightbox
    behaves as it does on its own.  Start with the menu closed (or a menu
    element missing), the overlay closed and the body overflow empty, in a
    gallery whose items all have a caption.  After any sequence of events
    other than a click or touch on the hamburger, a click on a nav menu
    link and a DOMContentLoaded run, the menu elements are as they were,
    and either the overlay is closed and the body overflow is empty, or the
    overlay is shown with the body overflow "hidden" and its image source,
    alternative text and caption are those of one thumbnail of the
    gallery.  In particular a click on a captioned thumbnail shows exactly
    that thumbnail and locks the page. *)
Theorem lightbox_with_closed_menu (st : PageState) (events : list MenuEvent) :
  Lightbox.allCaptioned gallery ->
  menuOpen (menuOf st) = false ->
  Lightbox.closed (lightboxOf st) ->
  forallb leavesMenuClosed events = true ->
  let later := menuRun gallery events st in
  pageHamburger later = pageHamburger st
  /\ pageNavMenu later = pageNavMenu st
  /\ (Lightbox.closed (lightboxOf later)
      \/ (exists img, In img gallery /\ Lightbox.showing img (lightboxOf later)))
  /\ (forall i img,
        gallery !! i = Some img ->
        Lightbox.showing img (lightboxOf (click gallery (OnThumbnail i) later))).
Proof.
  intros Hcap Hclosed Hbox Hall. cbn zeta.
  assert (Hrun : pageHamburger (menuRun gallery events st) = pageHamburger st
                 /\ pageNavMenu (menuRun gallery events st) = pageNavMenu st
                 /\ (Lightbox.closed (lightboxOf (menuRun gallery events st))
                     \/ (exists img, In img gallery
                           /\ Lightbox.showing img
                                (lightboxOf (menuRun gallery events st))))).
  { assert (Hinv : Lightbox.closed (lightboxOf st)
                   \/ (exists img, In img gallery
                         /\ Lightbox.showing img (lightboxOf st)))
      by now left.
    clear Hbox. unfold menuRun.
    revert st Hclosed Hinv Hall.
    induction events as [|ev evs IH]; intros s Hs Hinv Hall; cbn [fold_left];
      [auto|].
    cbn [forallb] in Hall. apply andb_true_iff in Hall as [Hev Hall].
    destruct (menuStep_closed_menu s ev Hs Hev) as [lev Hstep].
    rewrite Hstep. unfold lightboxListeners.
    set (s' := onLightbox (fun b => Lightbox.lightboxStep gallery b lev) s).
    assert (Hs' : menuOpen (menuOf s') = false) by exact Hs.
    assert (Hinv' : Lightbox.closed (lightboxOf s')
                    \/ (exists img, In img gallery
                          /\ Lightbox.showing img (lightboxOf s'))).
    { unfold s'. rewrite lightboxOf_onLightbox.
      now apply Lightbox.lightboxStep_invariant. }
    destruct (IH s' Hs' Hinv' Hall) as (H1 & H2 & H3).
    split; [exact H1|]. split; [exact H2 | exact H3]. }
  destruct Hrun as (Hh & Hn & Hinv).
  split; [exact Hh|]. split; [exact Hn|]. split; [exact Hinv|].
  intros i img Hi.
  set (later := menuRun gallery events st) in *.
  assert (Hl : menuOpen (menuOf later) = false).
  { unfold menuOpen, menuOf in *. cbn in *. now rewrite Hn. }
  cbn [click]. unfold lightboxListeners.
  rewrite onMenu_same by (apply documentClick_closed; exact Hl).
  rewrite lightboxOf_onLightbox. cbn [Lightbox.lightboxStep]. rewrite Hi.
  assert (Hin : In img gallery).
  { apply list_elem_of_In. eapply list_elem_of_lookup_2; eauto. }
  unfold Lightbox.allCaptioned in Hcap. rewrite List.Forall_forall in Hcap.
  destruct (Hcap img Hin) as [c Hc].
  unfold Lightbox.openLightbox, Lightbox.showing. rewrite Hc. cbn. auto.
Qed.

End GalleryProps.

Lemma menu_values_agree_after_load_example :
  let later :=
    menuRun Lightbox.sampleGallery
      [Click (InNavMenu "A"); Click (OnThumbnail 0); Resize 1024]
      (onMenu onDomContentLoaded (onMenu loadReset staleOpenPage)) in
  closedState (menuOf (onMenu onDomContentLoaded (onMenu loadReset staleOpenPage)))
  /\ hamburgerActive (menuOf later) = menuOpen (menuOf later)
  /\ (pageBodyOverflow later = "" \/ pageBodyOverflow later = "hidden").
Proof.
  assert (Hex : bothExist (menuOf staleOpenPage)) by (split; eexists; reflexivity).
  pose proof (menu_values_agree_after_load Lightbox.sampleGallery staleOpenPage
                [Click (InNavMenu "A"); Click (OnThumbnail 0); Resize 1024] Hex)
    as (H1 & _ & H2 & _ & H3 & _).
  exact (conj H1 (conj H2 H3)).
Defined.

Lemma menu_click_effects_example :
  menuOpen (menuOf (click Lightbox.sampleGallery (InNavMenu "A") closedPage)) = true.
Proof.
  assert (Hex : bothExist (menuOf closedPage)) by (split; eexists; reflexivity).
  exact (proj1 (proj2 (menu_click_effects Lightbox.sampleGallery closedPage Hex))).
Defined.

Lemma lightbox_click_closes_open_menu_example :
  let after := click Lightbox.sampleGallery (OnThumbnail 1) openMenuPage in
  menuOpen (menuOf after) = false
  /\ pageBodyOverflow after = ""
  /\ lightboxDisplay after = "flex".
Proof.
  assert (Hex : bothExist (menuOf openMenuPage)) by (split; eexists; reflexivity).
  pose proof (lightbox_click_closes_open_menu Lightbox.sampleGallery openMenuPage 1
                (Lightbox.mkGalleryImg "b.jpg" "Watering" (Some "Watering"))
                Hex eq_refl eq_refl)
    as (H1 & _ & _ & H2 & _ & _ & H3 & _).
  split; [exact H1|]. split; [exact H2|]. exact (proj1 (H3 "Watering" eq_refl)).
Defined.

Lemma lightbox_with_closed_menu_example :
  Lightbox.showing (Lightbox.mkGalleryImg "b.jpg" "Watering" (Some "Watering"))
    (lightboxOf
       (click Lightbox.sampleGallery (OnThumbnail 1)
          (menuRun Lightbox.sampleGallery
             [Click (OnThumbnail 0); KeyDown "Escape"; Click (Elsewhere false)]
             closedPage))).
Proof.
  refine (proj2 (proj2 (proj2
            (lightbox_with_closed_menu Lightbox.sampleGallery closedPage
               [Click (OnThumbnail 0); KeyDown "Escape"; Click (Elsewhere false)]
               _ eq_refl _ eq_refl))) 1%nat _ eq_refl).
  - repeat constructor; eexists; reflexivity.
  - split; [discriminate | reflexivity].
Defined.

End MenuProps.

(** ** Keyboard navigation between nav links *)

Module KeyboardNav.

(** Where the focus is: on the [i]-th of the nav links that the script
    collected ([nav a[href^="#"]]), on another anchor inside the nav, or
    anywhere else. *)
Inductive Focus :=
| OnNavLink (i : nat)
| OnOtherNavAnchor
| NotInNav.

(** [navLinksArray.indexOf(document.activeElement)] *)
Definition indexOfFocus (focus : Focus) : Z :=
  match focus with
  | OnNavLink i => Z.of_nat i
  | _ => -1
  end.

(** The keydown listener for [count] nav links: whether it called
    preventDefault, and where the focus is when it returns.  The collected
    links are taken to be focusable, so that [focus()] moves the focus. *)
Definition onKeyDown (count : nat) (key : string) (focus : Focus) : bool * Focus :=
  match focus with
  | NotInNav => (false, focus)
  | _ =>
      let currentIndex := indexOfFocus focus in
      if String.eqb key "ArrowDown" && (currentIndex <? Z.of_nat count - 1)
      then (true, OnNavLink (Z.to_nat (currentIndex + 1)))
      else if String.eqb key "ArrowUp" && (0 <? currentIndex)
      then (true, OnNavLink (Z.to_nat (currentIndex - 1)))
      else (false, focus)
  end.

(** The two keys on which the listener acts, with the [e.key] value of
    each. *)
Inductive ArrowKey :=
| ArrowDown
| ArrowUp.

Definition keyOf (a : ArrowKey) : string :=
  match a with
  | ArrowDown => "ArrowDown"
  | ArrowUp => "ArrowUp"
  end.

(** A run of arrow-key presses.  The default action of an arrow key
    scrolls and leaves the focus where it is, and no other keydown listener
    of the script acts on an arrow key, so the focus after each press is
    the one this listener leaves.  Other keys are not part of a run: Tab
    moves the focus by its default action, and Enter on a link fires a
    click, whose listener blurs the link. *)
Definition pressArrows (count : nat) (arrows : list ArrowKey) (focus : Focus) : Focus :=
  fold_left (fun f a => snd (onKeyDown count (keyOf a) f)) arrows focus.

(** The focus names a link that exists. *)
Definition wellFocused (count : nat) (focus : Focus) : Prop :=
  match focus with
  | OnNavLink i => (i < count)%nat
  | _ => True
  end.

Lemma onKeyDown_wellFocused count key focus :
  wellFocused count focus -> wellFocused count (snd (onKeyDown count key focus)).
Proof.
  intros Hw. destruct focus as [i| |]; cbn in *; try assumption.
  - destruct (String.eqb key "ArrowDown" && (Z.of_nat i <? Z.of_nat count - 1)) eqn:E1.
    + apply andb_true_iff in E1 as [_ E1]. apply Z.ltb_lt in E1. cbn. lia.
    + destruct (String.eqb key "ArrowUp" && (0 <? Z.of_nat i)) eqn:E2; cbn; [|assumption].
      apply andb_true_iff in E2 as [_ E2]. apply Z.ltb_lt in E2. lia.
  - destruct (String.eqb key "ArrowDown" && (-1 <? Z.of_nat count - 1)) eqn:E1.
    + apply andb_true_iff in E1 as [_ E1]. apply Z.ltb_lt in E1. cbn. lia.
    + rewrite andb_false_r. exact I.
Qed.

(** X16: with the focus on an existing nav link, any run of ArrowDown and
    ArrowUp presses leaves the focus on an existing nav link; ArrowDown on
    the last link and ArrowUp on the first neither move the focus nor
    suppress the default action (no wrap-around); on a key other than the
    two arrows the listener does nothing (it neither focuses a link nor
    suppresses the key's default action); and the listener calls
    preventDefault exactly when it moves the focus. *)
Theorem keyboard_focus_stays_in_range
    (count : nat) (arrows : list ArrowKey) (i : nat) :
  (i < count)%nat ->
  (exists j, pressArrows count arrows (OnNavLink i) = OnNavLink j /\ (j < count)%nat)
  /\ onKeyDown count "ArrowDown" (OnNavLink (count - 1)) = (false, OnNavLink (count - 1))
  /\ onKeyDown count "ArrowUp" (OnNavLink 0) = (false, OnNavLink 0)
  /\ (forall key, key <> "ArrowDown" -> key <> "ArrowUp" ->
        onKeyDown count key (OnNavLink i) = (false, OnNavLink i))
  /\ (forall key,
        fst (onKeyDown count key (OnNavLink i)) = true
        <-> snd (onKeyDown count key (OnNavLink i)) <> OnNavLink i).
Proof.
  intros Hi. split; [|split; [|split; [|split]]].
  - unfold pressArrows. revert i Hi.
    induction arrows as [|k ks IH]; intros j Hj; cbn [fold_left]; [eauto|].
    pose proof (onKeyDown_wellFocused count (keyOf k) (OnNavLink j) Hj) as Hw.
    cbn in Hw |- *.
    destruct (String.eqb (keyOf k) "ArrowDown" && (Z.of_nat j <? Z.of_nat count - 1));
      [apply IH; exact Hw|].
    destruct (String.eqb (keyOf k) "ArrowUp" && (0 <? Z.of_nat j));
      apply IH; exact Hw.
  - cbn. replace (Z.of_nat (count - 1) <? Z.of_nat count - 1) with false
      by (symmetry; apply Z.ltb_ge; lia).
    reflexivity.
  - reflexivity.
  - intros key Hd Hu. cbn.
    destruct (String.eqb_spec key "ArrowDown"); [contradiction|].
    destruct (String.eqb_spec key "ArrowUp"); [contradiction|]. reflexivity.
  - intros key. cbn.
    destruct (String.eqb key "ArrowDown" && (Z.of_nat i <? Z.of_nat count - 1)) eqn:E1.
    + cbn. split; [intros _ H | reflexivity]. inversion H. lia.
    + destruct (String.eqb key "ArrowUp" && (0 <? Z.of_nat i)) eqn:E2; cbn.
      * apply andb_true_iff in E2 as [_ E2]. apply Z.ltb_lt in E2.
        split; [intros _ H | reflexivity]. inversion H. lia.
      * split; [discriminate | intros H; now destruct H].
Qed.

(** X17: ArrowDown followed by ArrowUp returns the focus to the link it was
    on unless that link was the last one, and ArrowUp followed by ArrowDown
    does so unless it was the first; from an anchor inside the nav that is
    not one of the collected links, ArrowDown moves the focus to the first
    collected link and ArrowUp does nothing. *)
Theorem keyboard_arrows_round_trip (count i : nat) :
  (i < count)%nat ->
  ((i + 1 < count)%nat ->
     pressArrows count [ArrowDown; ArrowUp] (OnNavLink i) = OnNavLink i)
  /\ ((0 < i)%nat ->
      pressArrows count [ArrowUp; ArrowDown] (OnNavLink i) = OnNavLink i)
  /\ onKeyDown count "ArrowDown" OnOtherNavAnchor = (true, OnNavLink 0)
  /\ onKeyDown count "ArrowUp" OnOtherNavAnchor = (false, OnOtherNavAnchor).
Proof.
  intros Hi. split; [|split; [|split]].
  - intros Hnext. unfold pressArrows. cbn.
    replace (Z.of_nat i <? Z.of_nat count - 1) with true
      by (symmetry; apply Z.ltb_lt; lia).
    cbn. replace (0 <? Z.of_nat (Z.to_nat (Z.of_nat i + 1))) with true
      by (symmetry; apply Z.ltb_lt; lia).
    cbn. f_equal. lia.
  - intros Hprev. unfold pressArrows. cbn.
    replace (0 <? Z.of_nat i) with true by (symmetry; apply Z.ltb_lt; lia).
    cbn. replace (Z.of_nat (Z.to_nat (Z.of_nat i - 1)) <? Z.of_nat count - 1) with true
      by (symmetry; apply Z.ltb_lt; lia).
    cbn. f_equal. lia.
  - cbn. replace (-1 <? Z.of_nat count - 1) with true
      by (symmetry; apply Z.ltb_lt; lia).
    reflexivity.
  - reflexivity.
Qed.

Lemma keyboard_focus_stays_in_range_example :
  exists j,
    pressArrows 3 [ArrowDown; ArrowDown; ArrowDown; ArrowUp] (OnNavLink 1) = OnNavLink j
    /\ (j < 3)%nat.
Proof.
  refine (proj1 (keyboard_focus_stays_in_range 3
                   [ArrowDown; ArrowDown; ArrowDown; ArrowUp] 1 _)).
  lia.
Defined.

Lemma keyboard_arrows_round_trip_example :
  pressArrows 3 [ArrowDown; ArrowUp] (OnNavLink 1) = OnNavLink 1.
Proof.
  refine (proj1 (keyboard_arrows_round_trip 3 1 _) _); lia.
Defined.

End KeyboardNav.

(** ** Debouncing (debounce) *)

Module Debounce.

Section Debounced.

(** The arguments a call passes on to the wrapped function. *)
Variable A : Type.

(** The closure made by [debounce(func, wait)] together with the timers it
    has scheduled: [timeout] is its variable (undefined until the first
    call), [pending] maps the identity of each scheduled timer to the
    arguments its [later] will pass, [nextTimer] is the identity the next
    [setTimeout] returns, and [invoked] lists the argument lists [func] was
    called with, oldest first. *)
Record DebounceState := mkDebounce {
  timeout : option nat;
  pending : gmap nat A;
  nextTimer : nat;
  invoked : list A
}.

(** [clearTimeout(timeout)] *)
Definition clearTimeout (id : option nat) (timers : gmap nat A) : gmap nat A :=
  match id with
  | Some i => delete i timers
  | None => timers
  end.

(** A call of the debounced function. *)
Definition executedFunction (args : A) (st : DebounceState) : DebounceState :=
  let cleared := clearTimeout (timeout st) (pending st) in
  {| timeout := Some (nextTimer st);
     pending := <[nextTimer st := args]> cleared;
     nextTimer := S (nextTimer st);
     invoked := invoked st |}.

(** The timer [id] elapses: its [later] runs if the timer is still
    scheduled. *)
Definition elapse (id : nat) (st : DebounceState) : DebounceState :=
  match pending st !! id with
  | Some args =>
      let fired := delete id (pending st) in
      {| timeout := timeout st;
         pending := clearTimeout (timeout st) fired;
         nextTimer := nextTimer st;
         invoked := invoked st ++ [args] |}
  | None => st
  end.

Inductive DebounceEvent :=
| Call (args : A)
| Elapse (id : nat).

Definition debounceStep (st : DebounceState) (ev : DebounceEvent) : DebounceState :=
  match ev with
  | Call args => executedFunction args st
  | Elapse id => elapse id st
  end.

Definition debounceRun (events : list DebounceEvent) (st : DebounceState)
    : DebounceState :=
  fold_left debounceStep events st.

(** The closure right after [debounce] returned it. *)
Definition fresh : DebounceState :=
  {| timeout := None; pending := ∅; nextTimer := 0; invoked := [] |}.

(** No timer is scheduled, or exactly the one [timeout] names. *)
Definition atMostOnePending (st : DebounceState) : Prop :=
  pending st = ∅
  \/ exists id args, timeout st = Some id /\ pending st = {[id := args]}.

Lemma executedFunction_pending args st :
  atMostOnePending st ->
  pending (executedFunction args st) = {[nextTimer st := args]}.
Proof.
  intros [He|(id & a & Ht & Hp)]; cbn; rewrite ?He, ?Ht, ?Hp; cbn.
  - destruct (timeout st); cbn; rewrite ?delete_empty; apply insert_empty.
  - rewrite delete_singleton_eq. apply insert_empty.
Qed.

Lemma debounceStep_atMostOnePending st ev :
  atMostOnePending st -> atMostOnePending (debounceStep st ev).
Proof.
  intros H. destruct ev as [args|id]; cbn [debounceStep].
  - right. exists (nextTimer st), args. split; [reflexivity|].
    now apply executedFunction_pending.
  - unfold elapse. destruct (pending st !! id) as [args|] eqn:E; [|assumption].
    left. cbn. destruct H as [He|(id' & a & Ht & Hp)].
    + rewrite He in E. rewrite lookup_empty in E. discriminate.
    + rewrite Ht, Hp. cbn. rewrite Hp in E.
      apply lookup_singleton_Some in E as [<- _].
      rewrite delete_singleton_eq. apply delete_empty.
Qed.

(** X18: a debounced function never has more than one timer scheduled.
    Starting from a state with at most one (the fresh closure has none),
    after any sequence of calls and elapsing timers either no timer is
    scheduled or only the timer of the latest call is; and every call
    leaves exactly its own timer scheduled, carrying that call's
    arguments, without invoking the wrapped function. *)
Theorem debounce_at_most_one_timer
    (events : list DebounceEvent) (st : DebounceState) :
  atMostOnePending st ->
  let now := debounceRun events st in
  atMostOnePending now
  /\ forall args,
       pending (executedFunction args now) = {[nextTimer now := args]}
       /\ timeout (executedFunction args now) = Some (nextTimer now)
       /\ invoked (executedFunction args now) = invoked now.
Proof.
  intros H. cbn zeta.
  assert (Hnow : atMostOnePending (debounceRun events st)).
  { unfold debounceRun. revert st H.
    induction events as [|ev evs IH]; intros st H; cbn; [assumption|].
    apply IH. now apply debounceStep_atMostOnePending. }
  split; [assumption|]. intros args.
  split; [now apply executedFunction_pending | split; reflexivity].
Qed.

Lemma burst_pending (burst : list A) : forall st,
  atMostOnePending st -> burst <> [] ->
  let after := debounceRun (map Call burst) st in
  Some (pending after)
  = (fun args => {[(nextTimer st + length burst - 1)%nat := args]}) <$> last burst
  /\ timeout after = Some (nextTimer st + length burst - 1)%nat
  /\ nextTimer after = (nextTimer st + length burst)%nat
  /\ invoked after = invoked st.
Proof.
  induction burst as [|a rest IH]; intros st H Hne; [contradiction|].
  cbn zeta. unfold debounceRun. cbn [map fold_left debounceStep].
  destruct rest as [|b rest'].
  - cbn [map fold_left]. rewrite (executedFunction_pending a st H). cbn.
    replace (nextTimer st + 1 - 1)%nat with (nextTimer st) by lia.
    split; [reflexivity|]. split; [reflexivity|]. split; [f_equal; lia | reflexivity].
  - assert (H' : atMostOnePending (executedFunction a st))
      by (apply (debounceStep_atMostOnePending st (Call a)), H).
    destruct (IH (executedFunction a st) H') as (Hp & Ht & Hn & Hi); [discriminate|].
    unfold debounceRun in Hp, Ht, Hn, Hi. cbn [nextTimer executedFunction] in Hp, Ht, Hn.
    replace (S (nextTimer st) + length (b :: rest') - 1)%nat
      with (nextTimer st + length (a :: b :: rest') - 1)%nat in Hp, Ht by (cbn; lia).
    split; [exact Hp|]. split; [exact Ht|]. split; [rewrite Hn; cbn; lia | exact Hi].
Qed.

(** X19: a burst of one or more calls with no timer elapsing in between
    does not invoke the wrapped function; when the one timer left then
    elapses, the function is invoked exactly once, with the arguments of
    the last call of the burst, and no timer remains scheduled.  A timer
    identity that is not scheduled (one cancelled by a later call, for
    example) elapsing changes nothing. *)
Theorem debounce_burst_invokes_once
    (burst : list A) (lastArgs : A) (st : DebounceState) :
  atMostOnePending st ->
  last burst = Some lastArgs ->
  let after := debounceRun (map Call burst) st in
  let id := (nextTimer st + length burst - 1)%nat in
  invoked after = invoked st
  /\ pending after = {[id := lastArgs]}
  /\ invoked (elapse id after) = invoked st ++ [lastArgs]
  /\ pending (elapse id after) = ∅
  /\ (forall other, other <> id -> elapse other after = after).
Proof.
  intros H Hlast. cbn zeta.
  assert (Hne : burst <> []) by (intros ->; discriminate).
  destruct (burst_pending burst st H Hne) as (Hp & Ht & _ & Hi).
  rewrite Hlast in Hp. cbn in Hp. inversion Hp as [Hp'].
  split; [exact Hi|]. split; [reflexivity|]. unfold elapse.
  rewrite Hp', lookup_singleton_eq. cbn. rewrite Ht, Hi. cbn.
  rewrite delete_singleton_eq, delete_empty.
  split; [reflexivity|]. split; [reflexivity|].
  intros other Hother. rewrite lookup_singleton_ne by congruence. reflexivity.
Qed.

End Debounced.

Lemma debounce_at_most_one_timer_example :
  atMostOnePending string
    (debounceRun string [Call string "s1"; Call string "s2"; Elapse string 0;
                         Elapse string 1; Call string "s3"] (fresh string)).
Proof.
  refine (proj1 (debounce_at_most_one_timer string
                   [Call string "s1"; Call string "s2"; Elapse string 0;
                    Elapse string 1; Call string "s3"] (fresh string) _)).
  left. reflexivity.
Defined.

Lemma debounce_burst_invokes_once_example :
  invoked string
    (elapse string 2
       (debounceRun string (map (Call string) ["s1"; "s2"; "s3"]) (fresh string)))
  = ["s3"].
Proof.
  refine (proj1 (proj2 (proj2 (debounce_burst_invokes_once string
            ["s1"; "s2"; "s3"] "s3" (fresh string) _ eq_refl)))).
  left. reflexivity.
Defined.

End Debounce.

(** ** Lazy loading: images that do carry a deferred source *)

Module LazyProps.

Import LazyLoad.

Definition lazyPage : gmap nat (gmap string string) :=
  {[ 0%nat := {["data-src" := "b.jpg"; "alt" := "B"]};
     1%nat := {["data-src" := ""]} ]}.

Lemma observeAll_registers st i (img : gmap string string) :
  images st !! i = Some img -> is_Some (img !! "data-src") ->
  i ∈ observed (observeAll st).
Proof.
  intros Hi Hd. unfold observeAll; cbn.
  apply elem_of_union. right. apply elem_of_dom. exists img.
  apply map_lookup_filter_Some. split; [assumption|]. cbn.
  unfold hasDataSrc. now apply bool_decide_eq_true.
Qed.

Lemma handleEntry_swap st i (img : gmap string string) dataSrc :
  images st !! i = Some img -> img !! "data-src" = Some dataSrc -> dataSrc <> "" ->
  handleEntry st (mkEntry i true)
  = {| images := <[i := delete "data-src" (<["src" := dataSrc]> img)]> (images st);
       observed := observed st ∖ {[i]} |}.
Proof.
  intros Hi Hd Hne. unfold handleEntry; cbn. rewrite Hi, Hd.
  destruct (String.eqb_spec dataSrc ""); [contradiction | reflexivity].
Qed.

(** X20: when the observer reports an image with a non-empty data-src as
    intersecting, the image's src becomes the former data-src, the data-src
    attribute is gone, every other attribute is kept, and the image is no
    longer observed; no later batch of entries changes the image again.  An
    entry that is not intersecting changes nothing. *)
Theorem lazy_image_swapped_once
    (st : LazyState) (i : nat) (img : gmap string string) (dataSrc : string) :
  images st !! i = Some img ->
  img !! "data-src" = Some dataSrc ->
  dataSrc <> "" ->
  let loaded := handleEntry st (mkEntry i true) in
  let img' := delete "data-src" (<["src" := dataSrc]> img) in
  images loaded !! i = Some img'
  /\ img' !! "src" = Some dataSrc
  /\ img' !! "data-src" = None
  /\ (forall key, key <> "src" -> key <> "data-src" -> img' !! key = img !! key)
  /\ (i ∉ observed loaded)
  /\ (forall batches, images (runCallbacks batches loaded) !! i = Some img')
  /\ handleEntry st (mkEntry i false) = st.
Proof.
  intros Hi Hd Hne. cbn zeta.
  rewrite (handleEntry_swap st i img dataSrc Hi Hd Hne). cbn.
  assert (Himg : <[i := delete "data-src" (<["src" := dataSrc]> img)]> (images st) !! i
                 = Some (delete "data-src" (<["src" := dataSrc]> img)))
    by apply lookup_insert_eq.
  split; [exact Himg|]. split.
  { rewrite lookup_delete_ne by discriminate. apply lookup_insert_eq. }
  split; [apply lookup_delete_eq|]. split.
  { intros key H1 H2. rewrite lookup_delete_ne by congruence.
    now rewrite lookup_insert_ne by congruence. }
  split.
  { rewrite elem_of_difference, elem_of_singleton. intros [_ H]. now apply H. }
  split; [|reflexivity].
  intros batches. apply runCallbacks_keep_plain_image; [exact Himg|].
  apply lookup_delete_eq.
Qed.

Lemma handleEntry_keeps_empty_data_src st entry i (img : gmap string string) :
  images st !! i = Some img -> img !! "data-src" = Some "" -> i ∈ observed st ->
  images (handleEntry st entry) !! i = Some img
  /\ i ∈ observed (handleEntry st entry).
Proof.
  intros Hi Hd Hobs. unfold handleEntry.
  destruct (isIntersecting entry); [|auto].
  destruct (images st !! target entry) as [img'|] eqn:Et; [|auto].
  destruct (img' !! "data-src") as [d|] eqn:Ed; [|auto].
  destruct (String.eqb_spec d "") as [->|Hne]; [auto|]. cbn.
  assert (Hti : target entry <> i).
  { intros <-. rewrite Et in Hi. inversion Hi; subst. rewrite Ed in Hd.
    inversion Hd. contradiction. }
  split; [now rewrite lookup_insert_ne|].
  rewrite elem_of_difference, elem_of_singleton. split; [assumption | congruence].
Qed.

(** X21: an image whose data-src attribute is present but empty is handed
    to the observer by the registration loop, and then stays as it is: no
    batch of entries changes any of its attributes, and it is never taken
    out of observation. *)
Theorem lazy_image_with_empty_data_src
    (imgs : gmap nat (gmap string string)) (i : nat) (img : gmap string string)
    (batches : list (list Entry)) :
  imgs !! i = Some img ->
  img !! "data-src" = Some "" ->
  let st0 := observeAll {| images := imgs; observed := ∅ |} in
  (i ∈ observed st0)
  /\ images (runCallbacks batches st0) !! i = Some img
  /\ (i ∈ observed (runCallbacks batches st0)).
Proof.
  intros Hi Hd st0.
  assert (H0 : images st0 !! i = Some img /\ i ∈ observed st0).
  { split; [exact Hi|]. apply (observeAll_registers _ i img); [exact Hi|].
    rewrite Hd. eauto. }
  split; [apply H0|].
  unfold runCallbacks. revert H0. generalize st0.
  induction batches as [|b bs IH]; intros st H; cbn; [exact H|].
  apply IH. unfold imageObserverCallback. revert H. generalize st.
  induction b as [|e es IHe]; intros s [H1 H2]; cbn; [auto|].
  apply IHe. now apply handleEntry_keeps_empty_data_src.
Qed.

Lemma lazy_image_swapped_once_example :
  images (handleEntry {| images := lazyPage; observed := {[0%nat; 1%nat]} |}
            (mkEntry 0 true)) !! 0%nat
  = Some (delete "data-src"
            (<["src" := "b.jpg"]> ({["data-src" := "b.jpg"; "alt" := "B"]}
                                   : gmap string string))).
Proof.
  refine (proj1 (lazy_image_swapped_once
            {| images := lazyPage; observed := {[0%nat; 1%nat]} |} 0%nat
            {["data-src" := "b.jpg"; "alt" := "B"]} "b.jpg" _ _ _)).
  - reflexivity.
  - reflexivity.
  - discriminate.
Defined.

Lemma lazy_image_with_empty_data_src_example :
  1%nat ∈ observed
    (runCallbacks [[mkEntry 1 true; mkEntry 0 true]; [mkEntry 1 true]]
       (observeAll {| images := lazyPage; observed := ∅ |})).
Proof.
  refine (proj2 (proj2 (lazy_image_with_empty_data_src lazyPage 1%nat
            {["data-src" := ""]} [[mkEntry 1 true; mkEntry 0 true]; [mkEntry 1 true]]
            _ _))).
  - reflexivity.
  - reflexivity.
Defined.

End LazyProps.

(** ** Reveal animation on scroll *)

Module Reveal.

Import LazyLoad.

(** The inline styles the reveal code writes. *)
Record RevealStyle := mkStyle {
  opacity : string;
  transform : string;
  transition : string
}.

Definition revealTransition : string := "opacity 0.6s ease, transform 0.6s ease".

(** The loop over the sections and cards: each one is hidden, shifted down
    and handed to the observer. *)
Definition initReveal (elements : gmap nat RevealStyle) : gmap nat RevealStyle :=
  (fun _ => {| opacity := "0"; transform := "translateY(20px)";
               transition := revealTransition |}) <$> elements.

(** Body of [entries.forEach] in the observer callback. *)
Definition revealEntry (elements : gmap nat RevealStyle) (entry : Entry)
    : gmap nat RevealStyle :=
  if isIntersecting entry then
    alter (fun s => {| opacity := "1"; transform := "translateY(0)";
                       transition := transition s |}) (target entry) elements
  else elements.

Definition revealCallback (elements : gmap nat RevealStyle) (entries : list Entry)
    : gmap nat RevealStyle :=
  fold_left revealEntry entries elements.

Definition runReveal (batches : list (list Entry)) (elements : gmap nat RevealStyle)
    : gmap nat RevealStyle :=
  fold_left revealCallback batches elements.

(** The style of an element that was, or was not yet, revealed. *)
Definition styleWhen (revealed : bool) : RevealStyle :=
  if revealed
  then {| opacity := "1"; transform := "translateY(0)"; transition := revealTransition |}
  else {| opacity := "0"; transform := "translateY(20px)"; transition := revealTransition |}.

(** Some entry of the batches reports the element [i] as intersecting. *)
Definition reported (i : nat) (batches : list (list Entry)) : bool :=
  existsb (fun e => isIntersecting e && Nat.eqb (target e) i) (concat batches).

Lemma revealEntry_style elements entry i revealed :
  elements !! i = Some (styleWhen revealed) ->
  revealEntry elements entry !! i
  = Some (styleWhen (revealed || (isIntersecting entry && Nat.eqb (target entry) i))).
Proof.
  intros H. unfold revealEntry.
  destruct (isIntersecting entry); cbn [andb].
  - destruct (Nat.eqb_spec (target entry) i) as [->|Hne].
    + rewrite lookup_alter_eq, H. cbn. rewrite orb_true_r.
      destruct revealed; reflexivity.
    + rewrite lookup_alter_ne by assumption. now rewrite orb_false_r.
  - now rewrite orb_false_r.
Qed.

Lemma revealCallback_style entries : forall elements i revealed,
  elements !! i = Some (styleWhen revealed) ->
  revealCallback elements entries !! i
  = Some (styleWhen
            (revealed
             || existsb (fun e => isIntersecting e && Nat.eqb (target e) i) entries)).
Proof.
  unfold revealCallback.
  induction entries as [|e es IH]; intros elements i revealed H; cbn.
  - now rewrite orb_false_r.
  - rewrite (IH _ i _ (revealEntry_style elements e i revealed H)).
    now rewrite orb_assoc.
Qed.

Lemma runReveal_style batches : forall elements i revealed,
  elements !! i = Some (styleWhen revealed) ->
  runReveal batches elements !! i = Some (styleWhen (revealed || reported i batches)).
Proof.
  unfold runReveal, reported.
  induction batches as [|b bs IH]; intros elements i revealed H; cbn.
  - now rewrite orb_false_r.
  - rewrite (IH _ i _ (revealCallback_style b elements i revealed H)).
    now rewrite existsb_app, orb_assoc.
Qed.

(** X22: every section or card starts hidden (opacity 0, shifted 20px
    down).  After any batches of observer entries it is shown (opacity 1,
    no shift) exactly when some entry so far reported it as intersecting;
    entries that report it as not intersecting never hide it again, and
    entries for other elements do not affect it. *)
Theorem reveal_is_one_way
    (elements : gmap nat RevealStyle) (i : nat) (batches : list (list Entry)) :
  is_Some (elements !! i) ->
  let after := runReveal batches (initReveal elements) in
  initReveal elements !! i = Some (styleWhen false)
  /\ after !! i = Some (styleWhen (reported i batches))
  /\ (forall more, reported i batches = true ->
        runReveal more after !! i = Some (styleWhen true)).
Proof.
  intros [s Hs]. cbn zeta.
  assert (H0 : initReveal elements !! i = Some (styleWhen false)).
  { unfold initReveal. rewrite lookup_fmap, Hs. reflexivity. }
  split; [exact H0|].
  pose proof (runReveal_style batches _ i false H0) as H1. cbn [orb] in H1.
  split; [exact H1|].
  intros more Hrep. rewrite Hrep in H1.
  now rewrite (runReveal_style more _ i true H1).
Qed.

Lemma reveal_is_one_way_example :
  runReveal [[mkEntry 0 true]; [mkEntry 0 false; mkEntry 1 false]]
    (initReveal {[ 0%nat := mkStyle "" "" ""; 1%nat := mkStyle "" "" "" ]}) !! 0%nat
  = Some (styleWhen true).
Proof.
  refine (proj1 (proj2 (reveal_is_one_way
            {[ 0%nat := mkStyle "" "" ""; 1%nat := mkStyle "" "" "" ]} 0%nat
            [[mkEntry 0 true]; [mkEntry 0 false; mkEntry 1 false]] _))).
  eexists. reflexivity.
Defined.

End Reveal.

(** ** Custom cursor: pointer samples and animation frames *)

Module Cursor.

(** The inline styles of the cursor element: [left] and [top] hold the
    number written before "px", [scale] the factor inside
    "translate(-50%, -50%) scale(...)" once a frame has written it. *)
Record CursorEl := mkCursorEl {
  cursorOpacity : string;
  left : Q;
  top : Q;
  scale : option Q
}.

(** The module-level variables of the script and the cursor element, null
    when the page has none. *)
Record CursorState := mkCursor {
  cursor : option CursorEl;
  mouseX : Q;
  mouseY : Q;
  cursorX : Q;
  cursorY : Q;
  isHovering : bool;
  isCursorInitialized : bool
}.

Definition setOpacity (o : string) (c : CursorEl) : CursorEl :=
  {| cursorOpacity := o; left := left c; top := top c; scale := scale c |}.

(** [handleMouseMove]; when the page has no cursor element the listener is
    never installed. *)
Definition handleMouseMove (clientX clientY : Q) (st : CursorState) : CursorState :=
  match cursor st with
  | Some c =>
      {| mouseX := clientX; mouseY := clientY;
         cursor := Some (if isCursorInitialized st then c else setOpacity "1" c);
         isCursorInitialized := true;
         cursorX := cursorX st; cursorY := cursorY st; isHovering := isHovering st |}
  | None => st
  end.

(** One run of [updateCursor]. *)
Definition updateCursor (st : CursorState) : CursorState :=
  match cursor st with
  | Some c =>
      {| cursorX := mouseX st; cursorY := mouseY st;
         cursor := Some {| cursorOpacity := cursorOpacity c;
                           left := mouseX st; top := mouseY st;
                           scale := Some (if isHovering st then 3 # 2 else 1)%Q |};
         mouseX := mouseX st; mouseY := mouseY st;
         isHovering := isHovering st;
         isCursorInitialized := isCursorInitialized st |}
  | None => st
  end.

Definition setHovering (b : bool) (st : CursorState) : CursorState :=
  match cursor st with
  | Some _ =>
      {| isHovering := b; cursor := cursor st; mouseX := mouseX st;
         mouseY := mouseY st; cursorX := cursorX st; cursorY := cursorY st;
         isCursorInitialized := isCursorInitialized st |}
  | None => st
  end.

Definition setCursorOpacity (o : string) (st : CursorState) : CursorState :=
  {| cursor := setOpacity o <$> cursor st; mouseX := mouseX st;
     mouseY := mouseY st; cursorX := cursorX st; cursorY := cursorY st;
     isHovering := isHovering st;
     isCursorInitialized := isCursorInitialized st |}.

(** What the listeners installed by [initCursor] react to.  A pointer move
    reaches the listener on the document and the one on the window. *)
Inductive CursorEvent :=
| MouseMove (clientX clientY : Q)
| Frame
| DocumentEnter
| DocumentLeave
| HoverEnter
| HoverLeave.

Definition cursorStep (st : CursorState) (ev : CursorEvent) : CursorState :=
  match ev with
  | MouseMove x y => handleMouseMove x y (handleMouseMove x y st)
  | Frame => updateCursor st
  | DocumentEnter => setCursorOpacity "1" st
  | DocumentLeave => setCursorOpacity "0" st
  | HoverEnter => setHovering true st
  | HoverLeave => setHovering false st
  end.

Definition cursorRun (events : list CursorEvent) (st : CursorState) : CursorState :=
  fold_left cursorStep events st.

(** The pointer position after the events: that of the last move, or the
    one given when there was none. *)
Definition latestSample (events : list CursorEvent) (start : Q * Q) : Q * Q :=
  fold_left (fun pos ev =>
               match ev with
               | MouseMove x y => (x, y)
               | _ => pos
               end) events start.

(** Whether an interactive element is hovered after the events. *)
Definition hoveringAfter (events : list CursorEvent) (start : bool) : bool :=
  fold_left (fun h ev =>
               match ev with
               | HoverEnter => true
               | HoverLeave => false
               | _ => h
               end) events start.

(** The state [initCursor] leaves behind when the element exists: the
    element hidden and moved off-screen, then the first run of
    [updateCursor]. *)
Definition afterInit (c : CursorEl) : CursorState :=
  updateCursor
    {| cursor := Some {| cursorOpacity := "0"; left := -100; top := -100;
                         scale := scale c |};
       mouseX := 0; mouseY := 0; cursorX := 0; cursorY := 0;
       isHovering := false; isCursorInitialized := false |}.

Lemma cursorStep_tracks st ev :
  is_Some (cursor st) ->
  is_Some (cursor (cursorStep st ev))
  /\ (mouseX (cursorStep st ev), mouseY (cursorStep st ev))
     = latestSample [ev] (mouseX st, mouseY st)
  /\ isHovering (cursorStep st ev) = hoveringAfter [ev] (isHovering st).
Proof.
  intros [c Hc]. destruct st as [co mx my cx cy h ini]. cbn in Hc. subst co.
  destruct ev; cbn; (split; [eexists; reflexivity | split; reflexivity]).
Qed.

Lemma cursorRun_tracks events : forall st,
  is_Some (cursor st) ->
  is_Some (cursor (cursorRun events st))
  /\ (mouseX (cursorRun events st), mouseY (cursorRun events st))
     = latestSample events (mouseX st, mouseY st)
  /\ isHovering (cursorRun events st) = hoveringAfter events (isHovering st).
Proof.
  unfold cursorRun, latestSample, hoveringAfter.
  induction events as [|ev evs IH]; intros st Hc; cbn [fold_left]; [auto|].
  destruct (cursorStep_tracks st ev Hc) as (Hc' & Hpos & Hh).
  destruct (IH _ Hc') as (H1 & H2 & H3).
  split; [exact H1|]. split.
  - rewrite H2, Hpos. reflexivity.
  - rewrite H3, Hh. reflexivity.
Qed.

(** X23: on a page with the cursor element, after any sequence of pointer
    moves, frames, hover and document enter/leave events, the next frame
    places the cursor exactly at the coordinates of the most recent pointer
    move (the unchanged earlier position if there was none; no
    interpolation between samples) and scales it by 1.5 exactly when the
    last hover event was an enter. *)
Theorem frame_renders_latest_sample (events : list CursorEvent) (st : CursorState) :
  is_Some (cursor st) ->
  let rendered := cursorStep (cursorRun events st) Frame in
  exists c,
    cursor rendered = Some c
    /\ (left c, top c) = latestSample events (mouseX st, mouseY st)
    /\ (cursorX rendered, cursorY rendered) = latestSample events (mouseX st, mouseY st)
    /\ scale c = Some (if hoveringAfter events (isHovering st) then 3 # 2 else 1)%Q.
Proof.
  intros Hc. cbn zeta.
  destruct (cursorRun_tracks events st Hc) as ([c Hc'] & Hpos & Hh).
  cbn [cursorStep]. unfold updateCursor. rewrite Hc'. cbn.
  eexists. split; [reflexivity|]. cbn. rewrite Hh. auto.
Qed.

(** X24: the cursor stays hidden until the first pointer move, which shows
    it; later pointer moves never write the opacity again, so after the
    pointer has left the document only a document enter shows the cursor. *)
Theorem cursor_shown_on_first_move (c : CursorEl) (x y : Q) :
  let init := afterInit c in
  (cursorOpacity <$> cursor init) = Some "0"
  /\ (left <$> cursor init, top <$> cursor init) = (Some 0%Q, Some 0%Q)
  /\ (cursorOpacity <$> cursor (cursorStep init (MouseMove x y))) = Some "1"
  /\ (forall st x' y',
        isCursorInitialized st = true ->
        (cursorOpacity <$> cursor (cursorStep st (MouseMove x' y')))
        = (cursorOpacity <$> cursor st))
  /\ (forall x' y',
        (cursorOpacity <$> cursor
           (cursorRun [MouseMove x y; DocumentLeave; MouseMove x' y'] init))
        = Some "0").
Proof.
  cbn zeta. split; [reflexivity|]. split; [reflexivity|]. split; [reflexivity|].
  split; [|reflexivity].
  intros st x' y' Hini. destruct st as [co mx my cx cy h ini]. cbn in Hini. subst ini.
  destruct co; reflexivity.
Qed.

Lemma frame_renders_latest_sample_example :
  exists c,
    cursor (cursorStep (cursorRun [MouseMove 10 20; HoverEnter; MouseMove 30 40]
                          (afterInit (mkCursorEl "" 0 0 None))) Frame) = Some c
    /\ (left c, top c) = (30%Q, 40%Q)
    /\ scale c = Some (3 # 2)%Q.
Proof.
  destruct (frame_renders_latest_sample
              [MouseMove 10 20; HoverEnter; MouseMove 30 40]
              (afterInit (mkCursorEl "" 0 0 None)))
    as (c & H1 & H2 & _ & H3).
  - eexists. reflexivity.
  - exists c. split; [exact H1|]. split; [exact H2 | exact H3].
Defined.

End Cursor.

(** ** Report download (downloadReport, Mdule-1/js/script.js) *)

Module Download.

Record DownloadBtn := mkDownloadBtn {
  label : string;
  btnDisabled : bool;
  focused : bool
}.

(** The download button (null when the page has none) and what the helper
    has done so far: the URLs fetched, the file names offered for
    download, the alerts shown and the errors logged. *)
Record DownloadState := mkDownload {
  downloadBtn : option DownloadBtn;
  fetched : list string;
  offered : list string;
  alerts : list string;
  logged : nat
}.

Definition fileName : string := "JIT Green Sunday Event Report (4).docx".
Definition targetName : string := "JIT_Green_Sunday_Event_Report_2025.docx".
Definition busyLabel : string := "Downloading Report...".
Definition alertText : string :=
  "Error downloading report. Please ensure the file exists in the same directory.".

(** How the fetch and the reading of its body can end. *)
Inductive FetchOutcome :=
| Responded (ok : bool) (blobRead : bool)
| NetworkError.

(** The synchronous part of [downloadReport]: nothing when the button is
    missing, otherwise the busy state and the request; the result carries
    the label to restore. *)
Definition downloadReport (st : DownloadState) : DownloadState * option string :=
  match downloadBtn st with
  | None => (st, None)
  | Some b =>
      let originalText := label b in
      ({| downloadBtn := Some {| label := busyLabel; btnDisabled := true;
                                 focused := focused b |};
          fetched := fetched st ++ [fileName];
          offered := offered st; alerts := alerts st; logged := logged st |},
       Some originalText)
  end.

Definition restore (originalText : string) (blur : bool) (b : DownloadBtn)
    : DownloadBtn :=
  {| label := originalText; btnDisabled := false;
     focused := if blur then false else focused b |}.

(** The promise chain once the fetch has ended: the two [then] callbacks or
    the [catch] callback. *)
Definition settle (originalText : string) (outcome : FetchOutcome)
    (st : DownloadState) : DownloadState :=
  match outcome with
  | Responded true true =>
      {| downloadBtn := restore originalText true <$> downloadBtn st;
         offered := offered st ++ [targetName];
         fetched := fetched st; alerts := alerts st; logged := logged st |}
  | _ =>
      {| downloadBtn := restore originalText false <$> downloadBtn st;
         alerts := alerts st ++ [alertText];
         logged := S (logged st);
         fetched := fetched st; offered := offered st |}
  end.

(** A click on the button, followed by the end of the request. *)
Definition clickAndSettle (outcome : FetchOutcome) (st : DownloadState)
    : DownloadState :=
  match downloadReport st with
  | (st1, Some originalText) => settle originalText outcome st1
  | (st1, None) => st1
  end.

Definition succeeded (outcome : FetchOutcome) : bool :=
  match outcome with
  | Responded true true => true
  | _ => false
  end.

Definition readyPage : DownloadState :=
  {| downloadBtn := Some (mkDownloadBtn "Download Report" false true);
     fetched := []; offered := []; alerts := []; logged := 0 |}.

(** X25: on a page with the download button, a click requests the fixed
    report file and shows the busy label with the button disabled; however
    the request ends (success, an error status, an unreadable body or a
    network error) the button gets back the label it had and is enabled
    again.  The file is offered for download, under its target name and
    with no alert, exactly when the request succeeded; every failure shows
    one alert and logs one error and offers nothing. *)
Theorem download_button_always_restored
    (st : DownloadState) (b : DownloadBtn) (outcome : FetchOutcome) :
  downloadBtn st = Some b ->
  let during := fst (downloadReport st) in
  let after := clickAndSettle outcome st in
  downloadBtn during
  = Some {| label := busyLabel; btnDisabled := true; focused := focused b |}
  /\ fetched during = fetched st ++ [fileName]
  /\ (label <$> downloadBtn after) = Some (label b)
  /\ (btnDisabled <$> downloadBtn after) = Some false
  /\ offered after = (if succeeded outcome then offered st ++ [targetName]
                      else offered st)
  /\ alerts after = (if succeeded outcome then alerts st
                     else alerts st ++ [alertText])
  /\ logged after = (if succeeded outcome then logged st else S (logged st)).
Proof.
  intros Hb. cbn zeta. unfold clickAndSettle, downloadReport. rewrite Hb. cbn.
  split; [reflexivity|]. split; [reflexivity|].
  destruct outcome as [[|] [|]|]; cbn; auto 10.
Qed.

(** On a page without the download button the helper does nothing: no
    request, no alert, no download, whatever the network would answer. *)
Lemma download_without_button (st : DownloadState) (outcome : FetchOutcome) :
  downloadBtn st = None -> clickAndSettle outcome st = st.
Proof.
  intros Hb. unfold clickAndSettle, downloadReport. now rewrite Hb.
Qed.

Lemma download_button_always_restored_example :
  (label <$> downloadBtn (clickAndSettle (Responded false true) readyPage))
  = Some "Download Report".
Proof.
  exact (proj1 (proj2 (proj2 (download_button_always_restored readyPage
           (mkDownloadBtn "Download Report" false true) (Responded false true)
           eq_refl)))).
Defined.

End Download.

(** ** Page load: when the script reaches its end *)

Module LoaderProps.

Import Loader.

(** The lookups the script dereferences without a null check. *)
Definition required (p : Page) : bool :=
  present p ScrollToTop && present p LightboxClose && present p LightboxRoot
  && present p NameInput && present p EmailInput && present p MessageInput
  && present p ContactForm
  && (negb (innerWidth p <=? 768) || present p NavList).

(** A statement that ends normally, or with a TypeError, whatever was
    installed before it. *)
Definition completes (s : Stmt) : Prop :=
  forall ls, exists ls', s ls = Completed ls' /\ incl ls ls'.

Definition aborts (s : Stmt) : Prop :=
  forall ls, exists ls', s ls = Aborted ls'.

Lemma completes_skip : completes skip.
Proof. intros ls. exists ls. split; [reflexivity | apply incl_refl]. Qed.

Lemma completes_listen l : completes (listen l).
Proof.
  intros ls. exists (ls ++ [l]). split; [reflexivity | now apply incl_appl].
Qed.

Lemma completes_seq s1 s2 : completes s1 -> completes s2 -> completes (s1 >>> s2).
Proof.
  intros H1 H2 ls. destruct (H1 ls) as (ls1 & E1 & I1).
  destruct (H2 ls1) as (ls2 & E2 & I2). exists ls2. unfold andThen.
  rewrite E1. split; [assumption | eapply incl_tran; eassumption].
Qed.

Lemma completes_when c s : completes s -> completes (when c s).
Proof. intros H. destruct c; [exact H | apply completes_skip]. Qed.

Lemma completes_if (c : bool) s1 s2 :
  completes s1 -> completes s2 -> completes (if c then s1 else s2).
Proof. intros H1 H2. now destruct c. Qed.

Lemma completes_deref p e : present p e = true -> completes (deref p e).
Proof.
  intros H ls. exists ls. unfold deref. rewrite H.
  split; [reflexivity | apply incl_refl].
Qed.

Lemma aborts_deref p e : present p e = false -> aborts (deref p e).
Proof. intros H ls. exists ls. unfold deref. now rewrite H. Qed.

Lemma aborts_seq_l s1 s2 : aborts s1 -> aborts (s1 >>> s2).
Proof.
  intros H ls. destruct (H ls) as (ls' & E). exists ls'. unfold andThen.
  now rewrite E.
Qed.

Lemma aborts_seq_r s1 s2 : completes s1 -> aborts s2 -> aborts (s1 >>> s2).
Proof.
  intros H1 H2 ls. destruct (H1 ls) as (ls1 & E1 & _).
  destruct (H2 ls1) as (ls2 & E2). exists ls2. unfold andThen. now rewrite E1.
Qed.

Lemma completes_initCursor v p : completes (initCursor v p).
Proof.
  unfold initCursor.
  repeat first [apply completes_if | apply completes_skip | apply completes_seq
               | apply completes_listen].
Qed.

Ltac run_script :=
  repeat first
    [ apply completes_seq
    | apply completes_listen
    | apply completes_skip
    | apply completes_initCursor
    | apply completes_deref; assumption
    | apply completes_if
    | apply completes_when
    | apply aborts_seq_l; apply aborts_deref; assumption
    | apply aborts_seq_r ].

Lemma script_outcome v p :
  if required p then completes (script v p) else aborts (script v p).
Proof.
  unfold required, script.
  destruct (present p ScrollToTop) eqn:E1, (present p LightboxClose) eqn:E2,
    (present p LightboxRoot) eqn:E3, (present p NameInput) eqn:E4,
    (present p EmailInput) eqn:E5, (present p MessageInput) eqn:E6,
    (present p ContactForm) eqn:E7, (innerWidth p <=? 768) eqn:E8,
    (present p NavList) eqn:E9; cbn [andb orb negb when]; run_script.
Qed.

(** Every normal end of the statement has installed [l]. *)
Definition installs (l : Listener) (s : Stmt) : Prop :=
  forall ls ls', s ls = Completed ls' -> In l ls'.

(** The statement never installs [l], however it ends. *)
Definition avoids (l : Listener) (s : Stmt) : Prop :=
  forall ls, ~ In l ls -> ~ In l (installed (s ls)).

(** The statement has not installed [l] when it ends with a TypeError. *)
Definition avoidsOnAbort (l : Listener) (s : Stmt) : Prop :=
  forall ls ls', ~ In l ls -> s ls = Aborted ls' -> ~ In l ls'.

Lemma installs_listen l : installs l (listen l).
Proof.
  intros ls ls' H. inversion H; subst. apply in_or_app. right. now left.
Qed.

Lemma installs_seq_r l s1 s2 : installs l s2 -> installs l (s1 >>> s2).
Proof.
  intros H ls ls' E. unfold andThen in E.
  destruct (s1 ls) as [ls1|ls1]; [eapply H; eassumption | discriminate].
Qed.

Lemma avoids_skip l : avoids l skip.
Proof. intros ls H. exact H. Qed.

Lemma avoids_listen l l' : l' <> l -> avoids l (listen l').
Proof.
  intros Hne ls H Hin. cbn in Hin. apply in_app_or in Hin as [Hin|[Hin|[]]];
    [contradiction | congruence].
Qed.

Lemma avoids_deref l p e : avoids l (deref p e).
Proof. intros ls H. unfold deref. now destruct (present p e). Qed.

Lemma avoids_seq l s1 s2 : avoids l s1 -> avoids l s2 -> avoids l (s1 >>> s2).
Proof.
  intros H1 H2 ls H. specialize (H1 ls H). unfold andThen.
  destruct (s1 ls) as [ls1|ls1]; cbn in *; [now apply H2 | assumption].
Qed.

Lemma avoids_when l c s : avoids l s -> avoids l (when c s).
Proof. intros H. destruct c; [exact H | apply avoids_skip]. Qed.

Lemma avoids_if l (c : bool) s1 s2 :
  avoids l s1 -> avoids l s2 -> avoids l (if c then s1 else s2).
Proof. intros H1 H2. now destruct c. Qed.

Lemma avoidsOnAbort_listen l l' : avoidsOnAbort l (listen l').
Proof. intros ls ls' _ H. discriminate H. Qed.

Lemma avoidsOnAbort_seq l s1 s2 :
  avoids l s1 -> avoidsOnAbort l s2 -> avoidsOnAbort l (s1 >>> s2).
Proof.
  intros H1 H2 ls ls' H E. specialize (H1 ls H). unfold andThen in E.
  destruct (s1 ls) as [ls1|ls1]; cbn in *.
  - exact (H2 ls1 ls' H1 E).
  - inversion E; subst. assumption.
Qed.

Ltac never_installs :=
  repeat first
    [ apply avoids_seq
    | apply avoids_listen; discriminate
    | apply avoids_deref
    | apply avoids_skip
    | apply avoids_if
    | apply avoids_when ].

Lemma script_installs_init v p : installs InitOnLoad (script v p).
Proof.
  unfold script. repeat apply installs_seq_r. apply installs_listen.
Qed.

Lemma script_abort_avoids_init v p : avoidsOnAbort InitOnLoad (script v p).
Proof.
  unfold script, initCursor.
  repeat (apply avoidsOnAbort_seq; [never_installs|]).
  apply avoidsOnAbort_listen.
Qed.

(** X26: for either script and every page, the script runs to its end
    exactly when the page has the scroll-to-top control, the lightbox and
    its close control, the three form fields and the form, and, on a
    viewport of at most 768 pixels, the nav list; otherwise it stops at an
    uncaught TypeError.  Missing cursor, hamburger, nav menu, theme toggle
    or download elements never stop it.  The DOMContentLoaded listener that
    initialises the theme is installed when the script reaches its end and
    is not installed when it stops early. *)
Theorem load_completes_iff_required (v : Variant) (p : Page) :
  match load v p with
  | Completed ls => required p = true /\ In InitOnLoad ls
  | Aborted ls => required p = false /\ ~ In InitOnLoad ls
  end.
Proof.
  pose proof (script_outcome v p) as Hout. unfold load.
  destruct (script v p []) as [ls|ls] eqn:E.
  - split; [|exact (script_installs_init v p [] ls E)].
    destruct (required p); [reflexivity|].
    destruct (Hout []) as (ls' & E'). congruence.
  - split; [|exact (script_abort_avoids_init v p [] ls (fun H => H) E)].
    destruct (required p); [|reflexivity].
    destruct (Hout []) as (ls' & E' & _). congruence.
Qed.

End LoaderProps.

(** ** Active navigation highlighting: repeated runs *)

Module HighlightProps.

Import Highlight.

(** X27: the routine never adds, removes or reorders links and never
    changes an href; after it ran, running it again at the same offset
    changes nothing (the scroll listener and its debounced twin may both
    run it); and when some section's span contains the offset, every link
    afterwards has the teal background or none, the marked ones all naming
    one and the same section. *)
Theorem highlight_idempotent
    (Y : Q) (sections : list SectionEl) (navLinks : list NavLink) :
  let after := highlightActiveSection Y sections navLinks in
  map href after = map href navLinks
  /\ highlightActiveSection Y sections after = after
  /\ (forall s, lastMatching Y sections = Some s ->
        forall l, In l after ->
          (background l = teal /\ href l = "#" +:+ sec_id s)
          \/ (background l = "" /\ href l <> "#" +:+ sec_id s)).
Proof.
  cbn zeta. rewrite !highlight_fold.
  destruct (lastMatching Y sections) as [s|] eqn:E.
  - split; [|split].
    + rewrite map_map. apply map_ext. intros l. apply markLink_href.
    + apply map_markLink_absorb.
    + intros s' Hs' l Hin. inversion Hs'; subst s'.
      apply in_map_iff in Hin as (l0 & <- & _).
      unfold markLink; cbn.
      destruct (String.eqb_spec (href l0) ("#" +:+ sec_id s)); cbn; auto.
  - split; [reflexivity|]. split; [reflexivity|]. intros s Hs. discriminate Hs.
Qed.

End HighlightProps.

(** ** Smooth scrolling to a section and the highlight that follows *)

Module SmoothScroll.

Import Highlight.

(** The click listener of an in-page anchor: the offset handed to
    [window.scrollTo], none when the href selects no element. *)
Definition scrollTarget (target : option SectionEl) : option Z :=
  (fun t => offsetTop t - 80) <$> target.

Definition tallSection : SectionEl := mkSection "about" 600 400.

Lemma inSpan_at_scrollTarget s :
  inSpan (inject_Z (offsetTop s - 80)) s = (20 <=? offsetHeight s).
Proof.
  unfold inSpan; cbn zeta.
  assert (H1 : Qle_bool (inject_Z (offsetTop s - 80)) (inject_Z (offsetTop s - 100))
               = false).
  { destruct (Qle_bool _ _) eqn:E; [|reflexivity].
    apply Qle_bool_iff in E. rewrite <- Zle_Qle in E. lia. }
  rewrite H1. clear H1. cbn [negb andb].
  destruct (Z.leb_spec 20 (offsetHeight s)) as [H|H].
  - apply Qle_bool_iff. rewrite <- Zle_Qle. lia.
  - destruct (Qle_bool _ _) eqn:E; [|reflexivity].
    apply Qle_bool_iff in E. rewrite <- Zle_Qle in E. lia.
Qed.

(** X28: a click on a link to a section scrolls to the section's offsetTop
    minus 80.  At that offset the highlighting routine's span test accepts
    the section exactly when the section is at least 20 pixels high; when
    it is, and no other section's span contains the offset, a run of the
    routine at the scroll target marks exactly the links that name the
    section. *)
Theorem scroll_target_is_highlighted
    (s : SectionEl) (sections : list SectionEl) (navLinks : list NavLink) (top : Z) :
  scrollTarget (Some s) = Some top ->
  In s sections ->
  20 <= offsetHeight s ->
  (forall s', In s' sections -> inHalfOpenSpan (inject_Z top) s' -> s' = s) ->
  inSpan (inject_Z top) s = true
  /\ highlightActiveSection (inject_Z top) sections navLinks
     = map (markLink (sec_id s)) navLinks
  /\ forall l, In l (highlightActiveSection (inject_Z top) sections navLinks) ->
       (marked l <-> href l = "#" +:+ sec_id s).
Proof.
  intros Htop Hin Hh Huniq. cbn in Htop. inversion Htop; subst top.
  assert (Hspan : inSpan (inject_Z (offsetTop s - 80)) s = true).
  { rewrite inSpan_at_scrollTarget. now apply Z.leb_le. }
  split; [exact Hspan|].
  assert (Hlast : lastMatching (inject_Z (offsetTop s - 80)) sections = Some s).
  { apply lastMatching_unique; [assumption | now apply inSpan_spec | assumption]. }
  rewrite highlight_fold, Hlast. split; [reflexivity|].
  intros l. apply marked_after_markLink.
Qed.

(** A section less than 20 pixels high is not highlighted at its own scroll
    target: the span test rejects it there, and when it is the only section
    the routine leaves every link as it was. *)
Lemma short_section_not_highlighted_at_target
    (s : SectionEl) (navLinks : list NavLink) :
  offsetHeight s < 20 ->
  inSpan (inject_Z (offsetTop s - 80)) s = false
  /\ highlightActiveSection (inject_Z (offsetTop s - 80)) [s] navLinks = navLinks.
Proof.
  intros Hh.
  assert (Hspan : inSpan (inject_Z (offsetTop s - 80)) s = false).
  { rewrite inSpan_at_scrollTarget. now apply Z.leb_gt. }
  split; [exact Hspan|].
  unfold highlightActiveSection; cbn. unfold highlightStep. now rewrite Hspan.
Qed.

Lemma scroll_target_is_highlighted_example :
  highlightActiveSection (inject_Z 520) [mkSection "home" 0 600; tallSection]
    [mkLink "#home" teal; mkLink "#about" ""]
  = [mkLink "#home" ""; mkLink "#about" teal].
Proof.
  refine (proj1 (proj2 (scroll_target_is_highlighted tallSection
            [mkSection "home" 0 600; tallSection]
            [mkLink "#home" teal; mkLink "#about" ""] 520 eq_refl _ _ _))).
  - right. now left.
  - cbn. lia.
  - intros s' [<-|[<-|[]]] [H1 H2]; [|reflexivity].
    exfalso. cbn in H2. rewrite <- Zle_Qle in H2. lia.
Defined.

Lemma short_section_not_highlighted_at_target_example :
  highlightActiveSection (inject_Z 20) [mkSection "thin" 100 10] [mkLink "#thin" ""]
  = [mkLink "#thin" ""].
Proof.
  refine (proj2 (short_section_not_highlighted_at_target (mkSection "thin" 100 10)
                   [mkLink "#thin" ""] _)).
  cbn. lia.
Defined.

End SmoothScroll.
